(** * ReturningResultsEntityUpdator

    A shallow embedding of [src/query-builder/ReturningResultsEntityUpdator.ts]
    and the properties the specification states about it.

    Entities are caller-owned JavaScript objects that the updator mutates in
    place, so they live in a heap and the entity list is a list of
    references.  Plain objects are finite maps from property names to values.
    The driver, the entity metadata, the entity manager and the query builder
    are collaborators of the class: they are record fields here, and every
    theorem quantifies over them. *)

From stdpp Require Import base option list gmap strings.

Set Warnings "-register-all".
Set Default Proof Using "Type".

(** ** JavaScript values and objects *)

Inductive Value : Type :=
  | VUndefined
  | VNull
  | VBool (b : bool)
  | VNum (n : Z)
  | VStr (s : string)
  | VArr (items : list Value)
  | VObj (fields : gmap string Value).

(** [ObjectLiteral]: a property that is present may still hold [VUndefined]. *)
Abbreviation Obj := (gmap string Value).

(** References to caller-owned entity objects, and the heap holding them. *)
Abbreviation loc := nat.
Abbreviation Heap := (gmap nat (gmap string Value)).

Inductive Error : Type :=
  | TypeORMError (message : string)
  | TypeError
  | QueryFailedError (message : string).

(** What a call, or the promise it returns, ends with. *)
Inductive Outcome (A : Type) : Type :=
  | Resolved (a : A)
  | Rejected (e : Error).
Arguments Resolved {A} a.
Arguments Rejected {A} e.

#[global] Instance Outcome_ret : MRet Outcome := fun A a => Resolved a.
#[global] Instance Outcome_bind : MBind Outcome := fun A B f m =>
  match m with
  | Resolved a => f a
  | Rejected e => Rejected e
  end.
#[global] Instance Outcome_fmap : FMap Outcome := fun A B f m =>
  match m with
  | Resolved a => Resolved (f a)
  | Rejected e => Rejected e
  end.

(** [value !== undefined && value !== null] *)
Definition isUsable (v : Value) : bool :=
  match v with
  | VUndefined | VNull => false
  | _ => true
  end.

(** [raw[i]] on an array: a missing slot reads as [undefined]. *)
Definition arrayGet (items : list Value) (i : nat) : Value :=
  default VUndefined (items !! i).

(** [s[0]] on a string: its first UTF-16 code unit, as a string of its own.
    A [VStr] holds the UTF-8 bytes of the JavaScript string.  A character
    of the basic plane is one code unit, encoded on one to three bytes, and
    is returned whole.  A character outside it is encoded on four bytes and
    is two code units: the first is its high surrogate,
    [0xD800 + ((cp - 0x10000) >> 10)], returned in the three-byte encoding
    of that code unit. *)
Definition firstCodeUnit (s : string) : option string :=
  match s with
  | EmptyString => None
  | String c rest =>
      let b := Ascii.N_of_ascii c in
      if (b <? 192)%N then Some (String c EmptyString)
      else if (b <? 224)%N then Some (String c (String.substring 0 1 rest))
      else if (b <? 240)%N then Some (String c (String.substring 0 2 rest))
      else
        match rest with
        | String c1 (String c2 _) =>
            let b1 := N.land (Ascii.N_of_ascii c1) 63 in
            let b2 := N.land (Ascii.N_of_ascii c2) 63 in
            let high :=
              (N.lor (N.lor (N.shiftl (N.land b 7) 8) (N.shiftl b1 2))
                 (N.shiftr b2 4) - 64)%N in
            let surrogate := (55296 + high)%N in
            Some (String (Ascii.ascii_of_N 237)
                    (String (Ascii.ascii_of_N
                               (N.lor 128 (N.land (N.shiftr surrogate 6) 63)))
                       (String (Ascii.ascii_of_N
                                  (N.lor 128 (N.land surrogate 63)))
                          EmptyString)))
        | _ => Some (String c rest)
        end
  end.

(** [rawItem[0]]: property access throws on [undefined] and [null], reads
    the first slot of an array, the property ["0"] of an object and the first
    code unit of a string ([undefined] on the empty string), and is
    [undefined] on the other primitives. *)
Definition index0 (rawItem : Value) : Outcome Value :=
  match rawItem with
  | VUndefined | VNull => Rejected TypeError
  | VArr items => Resolved (arrayGet items 0)
  | VObj fields => Resolved (default VUndefined (fields !! "0"))
  | VStr s =>
      Resolved (match firstCodeUnit s with
                | Some unit => VStr unit
                | None => VUndefined
                end)
  | VBool _ | VNum _ => Resolved VUndefined
  end.

(** [Object.keys(o).length > 0] *)
Definition hasKeys (o : Obj) : bool := bool_decide (o ≠ ∅).

(** ** Metadata, expression map and collaborators *)

Record ColumnMetadata : Type := {
  databaseName : string;
  propertyPath : string;
  asExpression : option string;
  isUpdateDate : bool;
  isVersion : bool;
  isDeleteDate : bool;
  isGenerated : bool;
  getEntityValue : Obj → Value;
}.

Record EntityMetadata : Type := {
  targetName : string;
  columns : list ColumnMetadata;
  primaryColumns : list ColumnMetadata;
  getInsertionReturningColumns : list ColumnMetadata;
  getEntityIdMap : Obj → option Obj;
}.

(** [onUpdate.conflict : string | string[]] *)
Inductive ConflictTarget : Type :=
  | ConflictName (name : string)
  | ConflictNames (names : list string).

Record OnUpdate : Type := {
  conflict : option ConflictTarget;
}.

Record QueryExpressionMap : Type := {
  metadata : EntityMetadata;          (* mainAlias!.metadata *)
  extraReturningColumns : list ColumnMetadata;
  locallyGenerated : gmap nat Obj;
  onUpdate : option OnUpdate;
}.

Inductive ReturningType : Type := ReturningInsert | ReturningUpdate | ReturningDelete.

Record Driver : Type := {
  driverType : string;                 (* driver.options.type *)
  isReturningSqlSupported : ReturningType → bool;
  createGeneratedMap :
    EntityMetadata → Value → option nat → option nat → option Obj;
}.

(** The read built by the query builder chain. *)
Inductive WhereClause : Type :=
  | WhereObject (condition : Obj)
  | WhereIds (ids : list Obj).

Record Query : Type := {
  q_select : list string;
  q_addSelect : list string;
  q_from : string;
  q_where : WhereClause;
  q_withDeleted : bool;
  q_options : list string;
}.

Record EntityManager : Type := {
  merge : EntityMetadata → Obj → Obj → Obj;
  getOne : Query → Outcome (option Obj);
  getMany : Query → Outcome (list Obj);
}.

Record QueryRunner : Type := {
  driver : Driver;
  manager : EntityManager;
}.

Record ReturningResultsEntityUpdator : Type := {
  queryRunner : QueryRunner;
  expressionMap : QueryExpressionMap;
}.

(** Modelled from the spec: [EntityManager.merge] is not part of the reviewed
    sources; a source that is absent ([returningResult[i]] left as a hole)
    addresses no field, so the destination is left untouched (step 4d). *)
Definition mergeInto (self : ReturningResultsEntityUpdator)
    (dest : Obj) (source : option Obj) : Obj :=
  match source with
  | Some src => merge (manager (queryRunner self)) (metadata (expressionMap self)) dest src
  | None => dest
  end.

(** ** Returning-column selectors *)

Definition isUpdationReturning (column : ColumnMetadata) : bool :=
  bool_decide (asExpression column ≠ None)
  || isUpdateDate column || isVersion column.

Definition getUpdationReturningColumns (self : ReturningResultsEntityUpdator)
    : list ColumnMetadata :=
  List.filter isUpdationReturning (columns (metadata (expressionMap self))).

Definition getSoftDeletionReturningColumns (self : ReturningResultsEntityUpdator)
    : list ColumnMetadata :=
  List.filter
    (fun column =>
       bool_decide (asExpression column ≠ None)
       || isUpdateDate column || isVersion column || isDeleteDate column)
    (columns (metadata (expressionMap self))).

(** ** Conflict-column resolver *)

(** [if (this.expressionMap.onUpdate?.conflict)]: an absent target and the
    empty string are falsy, every array is truthy. *)
Definition truthyConflict (em : QueryExpressionMap) : option ConflictTarget :=
  match onUpdate em with
  | None => None
  | Some ou =>
      match conflict ou with
      | None => None
      | Some (ConflictName "") => None
      | Some target => Some target
      end
  end.

Definition conflictPaths (target : ConflictTarget) : list string :=
  match target with
  | ConflictName name => [name]
  | ConflictNames names => names
  end.

Definition findColumn (md : EntityMetadata) (conflictPath : string)
    : option ColumnMetadata :=
  List.find (fun col => bool_decide (databaseName col = conflictPath)) (columns md).

Fixpoint pushResolved (md : EntityMetadata) (conflicts : list string)
    (conflictColumns : list ColumnMetadata) : list ColumnMetadata :=
  match conflicts with
  | [] => conflictColumns
  | conflictPath :: rest =>
      match findColumn md conflictPath with
      | Some column => pushResolved md rest (conflictColumns ++ [column])
      | None => pushResolved md rest conflictColumns
      end
  end.

Definition getConflictColumns (self : ReturningResultsEntityUpdator)
    : list ColumnMetadata :=
  let md := metadata (expressionMap self) in
  match truthyConflict (expressionMap self) with
  | Some target => pushResolved md (conflictPaths target) []
  | None => []
  end.

(** ** Mutation results and the world the updator acts on *)

Module UpdateResult.
Record t : Type := {
  raw : Value;
  generatedMaps : list Obj;
}.
End UpdateResult.

Module InsertResult.
Record t : Type := {
  raw : Value;
  identifiers : list (option Obj);
  generatedMaps : list Obj;
}.
End InsertResult.

(** The entity heap, and the supplemental reads issued so far (oldest first). *)
Record World : Type := {
  heap : Heap;
  issued : list Query;
}.

(** [merge(metadata.target, entity, source)] on a caller-owned entity: the
    object behind the reference is updated in place. *)
Definition mergeEntity (self : ReturningResultsEntityUpdator)
    (entity : loc) (source : option Obj) (h : Heap) : Heap :=
  match source with
  | Some _ => <[entity := mergeInto self (h !!! entity) source]> h
  | None => h
  end.

Definition selectPaths (md : EntityMetadata) (cols : list ColumnMetadata)
    : list string :=
  (fun column => targetName md +:+ "." +:+ propertyPath column) <$> cols.

(** ** [Promise.all(items.map(async (item, index) => ...))]

    Each callback runs synchronously up to its first [await]: it has then
    finished, thrown, or is suspended on one read with the rest of its body
    as a continuation.  The reads complete in an order the code does not
    control: [sched] chooses, at every step, which of the pending reads
    completes next.  The first rejection rejects the whole call. *)

Section PromiseAll.
Context {St : Type}.

Inductive Task : Type :=
  | TaskDone
  | TaskThrow (e : Error)
  | TaskAwait (q : Query) (k : option Obj → St → St).

Fixpoint launch {A} (callback : A → nat → St → St * Task)
    (items : list A) (index : nat) (st : St) : St * list Task :=
  match items with
  | [] => (st, [])
  | item :: rest =>
      let '(st1, t) := callback item index st in
      let '(st2, ts) := launch callback rest (S index) st1 in
      (st2, t :: ts)
  end.

Fixpoint firstThrown (tasks : list Task) : option Error :=
  match tasks with
  | [] => None
  | TaskThrow e :: _ => Some e
  | _ :: rest => firstThrown rest
  end.

Fixpoint pendingOf (tasks : list Task) : list (Query * (option Obj → St → St)) :=
  match tasks with
  | [] => []
  | TaskAwait q k :: rest => (q, k) :: pendingOf rest
  | _ :: rest => pendingOf rest
  end.

Definition pick {X} (choice : nat) (l : list X) : option (X * list X) :=
  let i := choice `mod` length l in
  match l !! i with
  | Some x => Some (x, delete i l)
  | None => None
  end.

Fixpoint settle (getOne : Query → Outcome (option Obj)) (n : nat)
    (sched : list nat) (pending : list (Query * (option Obj → St → St)))
    (st : St) : Outcome St :=
  match n with
  | 0 => Resolved st
  | S n' =>
      match pick (hd 0 sched) pending with
      | None => Resolved st
      | Some ((q, k), rest) =>
          match getOne q with
          | Rejected e => Rejected e
          | Resolved row => settle getOne n' (tl sched) rest (k row st)
          end
      end
  end.

Definition promiseAll {A} (getOne : Query → Outcome (option Obj))
    (sched : list nat) (callback : A → nat → St → St * Task)
    (items : list A) (st : St) : Outcome St :=
  let '(st1, tasks) := launch callback items 0 st in
  match firstThrown tasks with
  | Some e => Rejected e
  | None =>
      let pending := pendingOf tasks in
      settle getOne (length pending) sched pending st1
  end.
End PromiseAll.
Arguments Task St : clear implicits.

(** ** Oracle result normalisation

    [raw.reduce((newRaw, rawItem, rawItemIndex) => { newRaw[
    extraReturningColumns[rawItemIndex].databaseName] = rawItem[0]; return
    newRaw }, {})] *)
Fixpoint reduceOracleRaw (cols : list ColumnMetadata) (items : list Value)
    (rawItemIndex : nat) (newRaw : Obj) : Outcome Obj :=
  match items with
  | [] => Resolved newRaw
  | rawItem :: rest =>
      match cols !! rawItemIndex with
      | None => Rejected TypeError
      | Some column =>
          v ← index0 rawItem;
          reduceOracleRaw cols rest (S rawItemIndex) (<[databaseName column := v]> newRaw)
      end
  end.

(** ** [update]: entities after an updation query *)

Definition missingIdMessage : string :=
  "Cannot update entity because entity id is not set in the entity.".

Abbreviation UpdateState := (UpdateResult.t * World)%type.

(** The oracle branch of [update]: the raw array is flattened once, by the
    first callback that sees it as an array. *)
Definition update_normalizeRaw (self : ReturningResultsEntityUpdator)
    (raw : Value) : Outcome Value :=
  let em := expressionMap self in
  match raw with
  | VArr items =>
      if bool_decide (driverType (driver (queryRunner self)) = "oracle")
         && bool_decide (0 < length (extraReturningColumns em))
      then VObj <$> reduceOracleRaw (extraReturningColumns em) items 0 ∅
      else Resolved raw
  | _ => Resolved raw
  end.

(** [Array.isArray(raw) ? raw[entityIndex] : raw] *)
Definition rawRow (raw : Value) (entityIndex : nat) : Value :=
  match raw with
  | VArr items => arrayGet items entityIndex
  | _ => raw
  end.

Definition update_query (self : ReturningResultsEntityUpdator)
    (entityId : Obj) : Query :=
  let md := metadata (expressionMap self) in
  {| q_select := selectPaths md (primaryColumns md);
     q_addSelect := selectPaths md (extraReturningColumns (expressionMap self));
     q_from := targetName md;
     q_where := WhereObject entityId;
     q_withDeleted := true;
     q_options := ["create-pojo"] |}.

(** [if (x) { merge(entity, x); updateResult.generatedMaps.push(x) }] *)
Definition update_record (self : ReturningResultsEntityUpdator)
    (entity : loc) (returned : option Obj) (st : UpdateState) : UpdateState :=
  match returned with
  | Some returningColumns =>
      ({| UpdateResult.raw := UpdateResult.raw st.1;
          UpdateResult.generatedMaps :=
            UpdateResult.generatedMaps st.1 ++ [returningColumns] |},
       {| heap := mergeEntity self entity (Some returningColumns) (heap st.2);
          issued := issued st.2 |})
  | None => st
  end.

Definition update_callback (self : ReturningResultsEntityUpdator)
    (entity : loc) (entityIndex : nat) (st : UpdateState)
    : UpdateState * Task UpdateState :=
  let drv := driver (queryRunner self) in
  let em := expressionMap self in
  let md := metadata em in
  if isReturningSqlSupported drv ReturningUpdate then
    match update_normalizeRaw self (UpdateResult.raw st.1) with
    | Rejected e => (st, TaskThrow e)
    | Resolved raw1 =>
        let st1 : UpdateState :=
          ({| UpdateResult.raw := raw1;
              UpdateResult.generatedMaps := UpdateResult.generatedMaps st.1 |},
           st.2) in
        let result := rawRow raw1 entityIndex in
        let returningColumns := createGeneratedMap drv md result None None in
        (update_record self entity returningColumns st1, TaskDone)
    end
  else
    let updationColumns := extraReturningColumns em in
    if bool_decide (0 < length updationColumns) then
      match getEntityIdMap md (heap st.2 !!! entity) with
      | None => (st, TaskThrow (TypeORMError missingIdMessage))
      | Some entityId =>
          let q := update_query self entityId in
          ((st.1, {| heap := heap st.2; issued := issued st.2 ++ [q] |}),
           TaskAwait q (update_record self entity))
      end
    else (st, TaskDone).

Definition update (self : ReturningResultsEntityUpdator) (sched : list nat)
    (updateResult : UpdateResult.t) (entities : list loc) (w : World)
    : Outcome UpdateState :=
  promiseAll (getOne (manager (queryRunner self))) sched
    (update_callback self) entities (updateResult, w).

(** ** [insert]: entities after an insertion query *)

(** The normalisation at the head of the [entities.map] callback. *)
Definition insert_normalizeRaw (self : ReturningResultsEntityUpdator)
    (raw : Value) : Outcome Value :=
  let em := expressionMap self in
  let type := driverType (driver (queryRunner self)) in
  match raw with
  | VArr items =>
      if bool_decide (0 < length (extraReturningColumns em)) then
        if bool_decide (type = "oracle") then
          VObj <$> reduceOracleRaw (extraReturningColumns em) items 0 ∅
        else if bool_decide (type = "spanner") then
          Resolved (arrayGet items 0)
        else Resolved raw
      else Resolved raw
  | _ => Resolved raw
  end.

(** [createGeneratedMap(metadata, result, entityIndex, entities.length) || {}],
    with the locally generated values of this position merged on top. *)
Definition insert_generatedMap (self : ReturningResultsEntityUpdator)
    (total entityIndex : nat) (raw1 : Value) : Obj :=
  let em := expressionMap self in
  let result := rawRow raw1 entityIndex in
  let generatedMap :=
    default ∅ (createGeneratedMap (driver (queryRunner self)) (metadata em)
                 result (Some entityIndex) (Some total)) in
  match locallyGenerated em !! entityIndex with
  | Some local => merge (manager (queryRunner self)) (metadata em) generatedMap local
  | None => generatedMap
  end.

(** [const generatedMaps = entities.map((entity, entityIndex) => ...)] *)
Fixpoint insert_generatedMaps (self : ReturningResultsEntityUpdator)
    (total : nat) (entities : list loc) (entityIndex : nat)
    (raw : Value) (h : Heap) : Outcome (Value * Heap * list Obj) :=
  match entities with
  | [] => Resolved (raw, h, [])
  | entity :: rest =>
      raw1 ← insert_normalizeRaw self raw;
      let generatedMap := insert_generatedMap self total entityIndex raw1 in
      let h1 := mergeEntity self entity (Some generatedMap) h in
      '(raw2, h2, generatedMaps) ←
        insert_generatedMaps self total rest (S entityIndex) raw1 h1;
      Resolved (raw2, h2, generatedMap :: generatedMaps)
  end.

Definition insert_insertionColumns (self : ReturningResultsEntityUpdator)
    : list ColumnMetadata :=
  let isReturningClauseSupported :=
    isReturningSqlSupported (driver (queryRunner self)) ReturningInsert in
  List.filter
    (fun column =>
       if negb (isGenerated column) then true else isReturningClauseSupported)
    (getInsertionReturningColumns (metadata (expressionMap self))).

(** The [forEach] that splits the entities by whether an id map exists. *)
Fixpoint insert_partition (md : EntityMetadata) (h : Heap)
    (entities : list loc) (index : nat)
    (entityIds : list Obj) (conflictBasedEntities : list (loc * nat))
    : list Obj * list (loc * nat) :=
  match entities with
  | [] => (entityIds, conflictBasedEntities)
  | entity :: rest =>
      match getEntityIdMap md (h !!! entity) with
      | None =>
          insert_partition md h rest (S index)
            entityIds (conflictBasedEntities ++ [(entity, index)])
      | Some entityId =>
          insert_partition md h rest (S index)
            (entityIds ++ [entityId]) conflictBasedEntities
      end
  end.

Definition insert_whereCondition (conflictColumns : list ColumnMetadata)
    (entity : Obj) : Obj :=
  fold_left
    (fun whereCondition column =>
       let value := getEntityValue column entity in
       if isUsable value then <[propertyPath column := value]> whereCondition
       else whereCondition)
    conflictColumns ∅.

Definition insert_query (self : ReturningResultsEntityUpdator)
    (insertionColumns : list ColumnMetadata) (condition : WhereClause) : Query :=
  let md := metadata (expressionMap self) in
  {| q_select := selectPaths md (primaryColumns md);
     q_addSelect := selectPaths md insertionColumns;
     q_from := targetName md;
     q_where := condition;
     q_withDeleted := false;
     q_options := ["create-pojo"] |}.

(** What the re-selection phase builds: [returningResult] and the reads. *)
Abbreviation RecoverState := (list (option Obj) * list Query)%type.

(** [if (conflictResult) returningResult[index] = conflictResult] *)
Definition insert_recordConflict (index : nat) (conflictResult : option Obj)
    (st : RecoverState) : RecoverState :=
  match conflictResult with
  | Some row => (<[index := Some row]> st.1, st.2)
  | None => st
  end.

Definition insert_conflictCallback (self : ReturningResultsEntityUpdator)
    (h : Heap) (insertionColumns conflictColumns : list ColumnMetadata)
    (item : loc * nat) (_ : nat) (st : RecoverState)
    : RecoverState * Task RecoverState :=
  let '(entity, index) := item in
  let whereCondition := insert_whereCondition conflictColumns (h !!! entity) in
  if hasKeys whereCondition then
    let q := insert_query self insertionColumns (WhereObject whereCondition) in
    ((st.1, st.2 ++ [q]), TaskAwait q (insert_recordConflict index))
  else (st, TaskDone).

(** The [forEach] under "map results back to correct positions". *)
Fixpoint insert_mapBack (md : EntityMetadata) (h : Heap)
    (resultWithIds : list Obj) (entities : list loc) (index resultIndex : nat)
    (returningResult : list (option Obj)) : list (option Obj) :=
  match entities with
  | [] => returningResult
  | entity :: rest =>
      match getEntityIdMap md (h !!! entity) with
      | Some entityId =>
          if forallb isUsable (map_to_list entityId).*2 then
            insert_mapBack md h resultWithIds rest (S index) (S resultIndex)
              (<[index := resultWithIds !! resultIndex]> returningResult)
          else
            insert_mapBack md h resultWithIds rest (S index) resultIndex
              returningResult
      | None =>
          insert_mapBack md h resultWithIds rest (S index) resultIndex
            returningResult
      end
  end.

(** Everything between [const returningResult = new Array(entities.length)]
    and the merging [forEach]. *)
Definition insert_recover (self : ReturningResultsEntityUpdator)
    (sched : list nat) (insertionColumns : list ColumnMetadata)
    (entities : list loc) (h : Heap) (issued0 : list Query)
    : Outcome RecoverState :=
  let md := metadata (expressionMap self) in
  let mgr := manager (queryRunner self) in
  let '(entityIds, conflictBasedEntities) :=
    insert_partition md h entities 0 [] [] in
  let st0 : RecoverState := (replicate (length entities) None, issued0) in
  st1 ←
    (if bool_decide (0 < length conflictBasedEntities) then
       let conflictColumns := getConflictColumns self in
       if bool_decide (0 < length conflictColumns) then
         promiseAll (getOne mgr) sched
           (insert_conflictCallback self h insertionColumns conflictColumns)
           conflictBasedEntities st0
       else Resolved st0
     else Resolved st0);
  if bool_decide (0 < length insertionColumns)
     && bool_decide (0 < length entityIds)
  then
    let q := insert_query self insertionColumns (WhereIds entityIds) in
    resultWithIds ← getMany mgr q;
    Resolved (insert_mapBack md h resultWithIds entities 0 0 st1.1, st1.2 ++ [q])
  else Resolved st1.

(** The [forEach] merging [returningResult[entityIndex]] into the generated
    map and the entity of the same position. *)
Fixpoint insert_mergeBack (self : ReturningResultsEntityUpdator)
    (returningResult : list (option Obj)) (entities : list loc)
    (entityIndex : nat) (generatedMaps : list Obj) (h : Heap)
    : list Obj * Heap :=
  match entities with
  | [] => (generatedMaps, h)
  | entity :: rest =>
      let row := mjoin (returningResult !! entityIndex) in
      insert_mergeBack self returningResult rest (S entityIndex)
        (alter (fun generatedMap => mergeInto self generatedMap row)
           entityIndex generatedMaps)
        (mergeEntity self entity row h)
  end.

(** The closing [forEach]: one identifier and one generated map per entity. *)
Fixpoint insert_pushResults (md : EntityMetadata) (h : Heap)
    (generatedMaps : list Obj) (entities : list loc) (entityIndex : nat)
    (insertResult : InsertResult.t) : InsertResult.t :=
  match entities with
  | [] => insertResult
  | entity :: rest =>
      let entityId := getEntityIdMap md (h !!! entity) in
      insert_pushResults md h generatedMaps rest (S entityIndex)
        {| InsertResult.raw := InsertResult.raw insertResult;
           InsertResult.identifiers :=
             InsertResult.identifiers insertResult ++ [entityId];
           InsertResult.generatedMaps :=
             InsertResult.generatedMaps insertResult
               ++ option_list (generatedMaps !! entityIndex) |}
  end.

Definition insert (self : ReturningResultsEntityUpdator) (sched : list nat)
    (insertResult : InsertResult.t) (entities : list loc) (w : World)
    : Outcome (InsertResult.t * World) :=
  let md := metadata (expressionMap self) in
  '(raw1, h1, generatedMaps) ←
    insert_generatedMaps self (length entities) entities 0
      (InsertResult.raw insertResult) (heap w);
  let insertResult1 :=
    {| InsertResult.raw := raw1;
       InsertResult.identifiers := InsertResult.identifiers insertResult;
       InsertResult.generatedMaps := InsertResult.generatedMaps insertResult |} in
  let insertionColumns := insert_insertionColumns self in
  '(generatedMaps2, w2) ←
    (if negb (isReturningSqlSupported (driver (queryRunner self)) ReturningInsert)
     then
       '(returningResult, issued1) ←
         insert_recover self sched insertionColumns entities h1 (issued w);
       let '(generatedMaps1, h2) :=
         insert_mergeBack self returningResult entities 0 generatedMaps h1 in
       Resolved (generatedMaps1, {| heap := h2; issued := issued1 |})
     else Resolved (generatedMaps, {| heap := h1; issued := issued w |}));
  Resolved
    (insert_pushResults md (heap w2) generatedMaps2 entities 0 insertResult1, w2).

(** ** Concrete collaborators

    A small entity type (the [Test] entity of the upsert regression test,
    with a few special columns added) and simple collaborators, used to run
    the definitions above on concrete inputs. *)

Module Fixture.

(** Modelled from the spec: [EntityManager.merge] is not part of the
    reviewed sources; it overlays the source's fields onto the destination,
    the source winning, and keeps every destination field the source does
    not address (section 6, Merge Utility). *)
Definition overlay (_ : EntityMetadata) (dest src : Obj) : Obj := src ∪ dest.

Definition column (name : string) : ColumnMetadata :=
  {| databaseName := name; propertyPath := name; asExpression := None;
     isUpdateDate := false; isVersion := false; isDeleteDate := false;
     isGenerated := false;
     getEntityValue := fun entity => default VUndefined (entity !! name) |}.

Definition idColumn : ColumnMetadata :=
  {| databaseName := "id"; propertyPath := "id"; asExpression := None;
     isUpdateDate := false; isVersion := false; isDeleteDate := false;
     isGenerated := true;
     getEntityValue := fun entity => default VUndefined (entity !! "id") |}.

Definition updatedAtColumn : ColumnMetadata :=
  {| databaseName := "updatedAt"; propertyPath := "updatedAt";
     asExpression := None;
     isUpdateDate := true; isVersion := false; isDeleteDate := false;
     isGenerated := false;
     getEntityValue := fun entity => default VUndefined (entity !! "updatedAt") |}.

Definition deletedAtColumn : ColumnMetadata :=
  {| databaseName := "deletedAt"; propertyPath := "deletedAt";
     asExpression := None;
     isUpdateDate := false; isVersion := false; isDeleteDate := true;
     isGenerated := false;
     getEntityValue := fun entity => default VUndefined (entity !! "deletedAt") |}.

(** The id map of an entity whose only primary column is [id]. *)
Definition idMap (entity : Obj) : option Obj :=
  match entity !! "id" with
  | Some v => if isUsable v then Some {[ "id" := v ]} else None
  | None => None
  end.

Definition testMetadata : EntityMetadata :=
  {| targetName := "Test";
     columns := [idColumn; column "key1"; column "key2"; column "value";
                 updatedAtColumn; deletedAtColumn];
     primaryColumns := [idColumn];
     getInsertionReturningColumns := [idColumn; updatedAtColumn];
     getEntityIdMap := idMap |}.

Definition expressions (extra : list ColumnMetadata)
    (target : option ConflictTarget) : QueryExpressionMap :=
  {| metadata := testMetadata;
     extraReturningColumns := extra;
     locallyGenerated := ∅;
     onUpdate := Some {| conflict := target |} |}.

(** A driver without RETURNING whose insert result carries no usable id. *)
Definition mysqlDriver : Driver :=
  {| driverType := "mysql";
     isReturningSqlSupported := fun _ => false;
     createGeneratedMap := fun _ _ _ _ => None |}.

(** A driver with RETURNING: the generated map is the returned row. *)
Definition postgresDriver : Driver :=
  {| driverType := "postgres";
     isReturningSqlSupported := fun _ => true;
     createGeneratedMap := fun _ result _ _ =>
       match result with
       | VObj fields => Some fields
       | _ => None
       end |}.

(** An entity manager over a fixed table: [getOne] answers with the first
    row agreeing with the filter on every filtered field, [getMany] with
    the rows it is given, in the order it is given them. *)
Definition valueEq (a b : Value) : bool :=
  match a, b with
  | VNum x, VNum y => bool_decide (x = y)
  | VStr x, VStr y => bool_decide (x = y)
  | VNull, VNull | VUndefined, VUndefined => true
  | VBool x, VBool y => bool_decide (x = y)
  | _, _ => false
  end.

Definition agrees (condition row : Obj) : bool :=
  forallb
    (fun kv => match row !! kv.1 with
               | Some v => valueEq v kv.2
               | None => false
               end)
    (map_to_list condition).

Definition tableManager (table batch : list Obj) : EntityManager :=
  {| merge := overlay;
     getOne := fun q =>
       match q_where q with
       | WhereObject condition => Resolved (List.find (agrees condition) table)
       | WhereIds _ => Resolved None
       end;
     getMany := fun _ => Resolved batch |}.

Definition updator (drv : Driver) (mgr : EntityManager)
    (em : QueryExpressionMap) : ReturningResultsEntityUpdator :=
  {| queryRunner := {| driver := drv; manager := mgr |};
     expressionMap := em |}.

(** *** Inputs of [update] *)

Definition freshUpdate (raw : Value) : UpdateResult.t :=
  {| UpdateResult.raw := raw; UpdateResult.generatedMaps := [] |}.

Definition row (id updatedAt : Z) : Obj :=
  {[ "id" := VNum id; "updatedAt" := VNum updatedAt ]}.

(** Two persisted entities, ids 1 and 2. *)
Definition twoKnown : World :=
  {| heap := {[ 0 := {[ "id" := VNum 1; "value" := VStr "a" ]};
                1 := {[ "id" := VNum 2; "value" := VStr "b" ]} ]};
     issued := [] |}.

(** One entity that carries no id. *)
Definition oneUnidentified : World :=
  {| heap := {[ 0 := {[ "key1" := VStr "conflict"; "key2" := VStr "test";
                        "value" := VStr "updated" ]} ]};
     issued := [] |}.

(** No RETURNING, [updatedAt] to be re-selected, and a table in which only
    the row of id 2 can be found. *)
Definition reselectingUpdator : ReturningResultsEntityUpdator :=
  updator mysqlDriver (tableManager [row 2 200] [])
    (expressions [updatedAtColumn] None).

(** RETURNING supported. *)
Definition returningUpdator : ReturningResultsEntityUpdator :=
  updator postgresDriver (tableManager [] []) (expressions [] None).

(** *** Inputs of [insert] *)

Definition freshInsert (raw : Value) : InsertResult.t :=
  {| InsertResult.raw := raw;
     InsertResult.identifiers := [];
     InsertResult.generatedMaps := [] |}.

(** The row already persisted under the unique key (key1, key2), as a
    read selecting the primary and the conflict columns returns it. *)
Definition persistedRow : Obj :=
  {[ "id" := VNum 7; "key1" := VStr "conflict"; "key2" := VStr "test" ]}.

(** The upsert of the regression test: no RETURNING, conflict target
    (key1, key2), the conflicting row already in the table. *)
Definition upsertingUpdator : ReturningResultsEntityUpdator :=
  updator mysqlDriver (tableManager [persistedRow] [])
    (expressions [] (Some (ConflictNames ["key1"; "key2"]))).

(** The same without a conflict target. *)
Definition unconfiguredUpdator : ReturningResultsEntityUpdator :=
  updator mysqlDriver (tableManager [persistedRow] []) (expressions [] None).

(** No RETURNING, [updatedAt] to be re-selected, and a batched read that
    answers with the row of id 2 before the row of id 1. *)
Definition reorderingUpdator : ReturningResultsEntityUpdator :=
  updator mysqlDriver (tableManager [] [row 2 200; row 1 100])
    (expressions [] None).

(** A conflict target naming a column that the metadata no longer has. *)
Definition staleTargetUpdator : ReturningResultsEntityUpdator :=
  updator mysqlDriver (tableManager [] [])
    (expressions [] (Some (ConflictNames ["key1"; "renamed"; "key2"]))).

(** Three entities that carry no id: the first has both conflict values,
    the second only [key1] (its [key2] is [null]), the third neither. *)
Definition threeUnidentified : World :=
  {| heap := {[ 0 := {[ "key1" := VStr "a"; "key2" := VStr "x";
                        "value" := VStr "first" ]};
                1 := {[ "key1" := VStr "b"; "key2" := VNull;
                        "value" := VStr "second" ]};
                2 := {[ "value" := VStr "third" ]} ]};
     issued := [] |}.

(** The rows already persisted.  The first agrees with the first entity on
    [key1] but not on [key2]. *)
Definition persistedRows : list Obj :=
  [ {[ "id" := VNum 9; "key1" := VStr "a"; "key2" := VStr "z" ]};
    {[ "id" := VNum 7; "key1" := VStr "a"; "key2" := VStr "x" ]};
    {[ "id" := VNum 8; "key1" := VStr "b"; "key2" := VStr "y" ]} ].

(** An upsert over these rows: no RETURNING, conflict target (key1, key2). *)
Definition recoveringUpdator : ReturningResultsEntityUpdator :=
  updator mysqlDriver (tableManager persistedRows [])
    (expressions [] (Some (ConflictNames ["key1"; "key2"]))).

(** A conflict target given as one column name. *)
Definition singleTargetUpdator : ReturningResultsEntityUpdator :=
  updator mysqlDriver (tableManager [] [])
    (expressions [] (Some (ConflictName "key2"))).

(** What a call ended with, or [fallback] if it was rejected. *)
Definition settled {A} (o : Outcome A) (fallback : A) : A :=
  match o with
  | Resolved a => a
  | Rejected _ => fallback
  end.

Definition upsertOutcome : InsertResult.t * World :=
  Eval vm_compute in
    settled (insert upsertingUpdator [] (freshInsert VNull) [0] oneUnidentified)
      (freshInsert VNull, oneUnidentified).

Definition recoveredOutcome : InsertResult.t * World :=
  Eval vm_compute in
    settled (insert recoveringUpdator [] (freshInsert VNull) [0; 1; 2]
               threeUnidentified)
      (freshInsert VNull, threeUnidentified).

Definition unconfiguredOutcome : InsertResult.t * World :=
  Eval vm_compute in
    settled (insert unconfiguredUpdator [] (freshInsert VNull) [0]
               oneUnidentified)
      (freshInsert VNull, oneUnidentified).

Definition reorderedOutcome : InsertResult.t * World :=
  Eval vm_compute in
    settled (insert reorderingUpdator [] (freshInsert VNull) [0; 1] twoKnown)
      (freshInsert VNull, twoKnown).

End Fixture.

(** ** The specification's wording of the operations *)

(** The resolver as the specification words it: the configured target is
    either a single column name or a list of column names; every name is
    resolved to a column by exact match on the database name; a name that
    resolves contributes its column, a name that does not is dropped;
    configuration order is kept. *)
Definition resolveName (md : EntityMetadata) (name : string)
    : option ColumnMetadata :=
  List.find (fun col => bool_decide (databaseName col = name)) (columns md).

Definition resolveConflictTarget (md : EntityMetadata) (target : ConflictTarget)
    : list ColumnMetadata :=
  match target with
  | ConflictName name =>
      match resolveName md name with
      | Some column => [column]
      | None => []
      end
  | ConflictNames names => omap (resolveName md) names
  end.

(** Whether some column of the metadata has [name] as its database name. *)
Definition namesColumn (md : EntityMetadata) (name : string) : bool :=
  existsb (fun col => bool_decide (databaseName col = name)) (columns md).


(** ** Auxiliary notions used in the statements *)

(** A read that has completed: the query, the continuation waiting on it
    and the row it resolved with. *)
Definition Completed (St : Type) : Type :=
  Query * (option Obj → St → St) * option Obj.

(** Running the continuations of completed reads, in completion order. *)
Definition resume {St : Type} (st : St) (cs : list (Completed St)) : St :=
  foldl (fun s c => c.1.2 c.2 s) st cs.

(** The row a single-row read resolves with, if it resolves with one. *)
Definition rowOf (mgr : EntityManager) (q : Query) : option Obj :=
  match getOne mgr q with
  | Resolved row => row
  | Rejected _ => None
  end.

(** What [createGeneratedMap(metadata, result)] returns for the entity at
    [entityIndex] once the raw result is [raw1]. *)
Definition update_returned (self : ReturningResultsEntityUpdator)
    (raw1 : Value) (entityIndex : nat) : option Obj :=
  createGeneratedMap (driver (queryRunner self))
    (metadata (expressionMap self)) (rawRow raw1 entityIndex) None None.

(** The row the supplemental read of [update] loads for an entity, when its
    id map exists in heap [h] and the read finds a row. *)
Definition update_loaded (self : ReturningResultsEntityUpdator) (h : Heap)
    (entity : loc) : option Obj :=
  entityId ← getEntityIdMap (metadata (expressionMap self)) (h !!! entity);
  rowOf (manager (queryRunner self)) (update_query self entityId).

(** What the callback of [update] leaves behind for an entity when RETURNING
    is unsupported and there are columns to load. *)
Definition update_task (self : ReturningResultsEntityUpdator) (h : Heap)
    (entity : loc) : Task UpdateState :=
  match getEntityIdMap (metadata (expressionMap self)) (h !!! entity) with
  | None => TaskThrow (TypeORMError missingIdMessage)
  | Some entityId =>
      TaskAwait (update_query self entityId) (update_record self entity)
  end.

Definition update_reads (self : ReturningResultsEntityUpdator) (h : Heap)
    (entities : list loc) : list Query :=
  omap
    (fun entity =>
       update_query self
         <$> getEntityIdMap (metadata (expressionMap self)) (h !!! entity))
    entities.

(** Merging, position by position, the source [sourceAt] gives for each
    entity; positions are numbered from [index]. *)
Definition mergeEach (self : ReturningResultsEntityUpdator)
    (sourceAt : nat → option Obj) (entities : list loc) (index : nat)
    (h : Heap) : Heap :=
  foldl (fun h' ei => mergeEntity self ei.1 (sourceAt ei.2) h') h
    (zip entities (seq index (length entities))).

(** Merging a list of sources into the entities they are paired with, in
    list order. *)
Definition mergeSources (self : ReturningResultsEntityUpdator)
    (pairs : list (loc * option Obj)) (h : Heap) : Heap :=
  foldl (fun h' p => mergeEntity self p.1 p.2 h') h pairs.

(** The raw result the [entities.map] callback of [insert] works on at
    position [entityIndex]: the normalisation runs once per callback. *)
Fixpoint insert_rawAt (self : ReturningResultsEntityUpdator) (raw : Value)
    (entityIndex : nat) : Outcome Value :=
  raw1 ← insert_normalizeRaw self raw;
  match entityIndex with
  | 0 => Resolved raw1
  | S i => insert_rawAt self raw1 i
  end.

(** The entities that have no id map in heap [h], each with its position;
    positions are numbered from [index]. *)
Fixpoint conflictBased (md : EntityMetadata) (h : Heap) (entities : list loc)
    (index : nat) : list (loc * nat) :=
  match entities with
  | [] => []
  | entity :: rest =>
      match getEntityIdMap md (h !!! entity) with
      | None => (entity, index) :: conflictBased md h rest (S index)
      | Some _ => conflictBased md h rest (S index)
      end
  end.

(** The id maps of the entities that have one, in entity order. *)
Definition knownIds (md : EntityMetadata) (h : Heap) (entities : list loc)
    : list Obj :=
  omap (fun entity => getEntityIdMap md (h !!! entity)) entities.

(** The read issued for a conflict-based entity, tagged with the position
    of the entity; none when no conflict column has a usable value. *)
Definition conflictRead (self : ReturningResultsEntityUpdator) (h : Heap)
    (insertionColumns conflictColumns : list ColumnMetadata)
    (item : loc * nat) : option (nat * Query) :=
  let whereCondition := insert_whereCondition conflictColumns (h !!! item.1) in
  if hasKeys whereCondition then
    Some (item.2,
          insert_query self insertionColumns (WhereObject whereCondition))
  else None.

Definition conflictReads (self : ReturningResultsEntityUpdator) (h : Heap)
    (insertionColumns conflictColumns : list ColumnMetadata)
    (items : list (loc * nat)) : list (nat * Query) :=
  omap (conflictRead self h insertionColumns conflictColumns) items.

(** Recording, slot by slot, the rows that tagged reads resolve with. *)
Definition recordRows (mgr : EntityManager) (returningResult : list (option Obj))
    (reads : list (nat * Query)) : list (option Obj) :=
  foldl
    (fun rr read =>
       match rowOf mgr read.2 with
       | Some row => <[read.1 := Some row]> rr
       | None => rr
       end)
    returningResult reads.

(** The reads [insert] issues without RETURNING: one per conflict-based
    entity with a usable conflict value, then the batched one if there is
    anything to load for entities with an id. *)
Definition insert_conflictQueries (self : ReturningResultsEntityUpdator)
    (h : Heap) (insertionColumns : list ColumnMetadata) (entities : list loc)
    : list Query :=
  (conflictReads self h insertionColumns (getConflictColumns self)
     (conflictBased (metadata (expressionMap self)) h entities 0)).*2.

Definition insert_batchQuery (self : ReturningResultsEntityUpdator)
    (h : Heap) (insertionColumns : list ColumnMetadata) (entities : list loc)
    : list Query :=
  let entityIds := knownIds (metadata (expressionMap self)) h entities in
  if bool_decide (0 < length insertionColumns)
     && bool_decide (0 < length entityIds)
  then [insert_query self insertionColumns (WhereIds entityIds)]
  else [].

(** Modelled from the spec: [EntityManager.merge] is not part of the
    reviewed sources; its contract (section 6, Merge Utility) is that it
    "must not remove fields already set on destination that no source
    addresses": a field the source does not address reads the same in the
    destination before and after the merge. *)
Definition mergePreservesUnaddressed (self : ReturningResultsEntityUpdator)
    : Prop :=
  ∀ (dest src : Obj) (field : string),
    src !! field = None →
    merge (manager (queryRunner self)) (metadata (expressionMap self)) dest src
      !! field
    = dest !! field.

(** The reads [update] issues without RETURNING, each tagged with the
    entity it was issued for. *)
Definition update_tagged (self : ReturningResultsEntityUpdator) (h : Heap)
    (entities : list loc) : list (loc * Query) :=
  omap
    (fun entity =>
       (fun entityId => (entity, update_query self entityId))
         <$> getEntityIdMap (metadata (expressionMap self)) (h !!! entity))
    entities.

(** ** Further auxiliary notions *)

(** The guard of the [forEach] that hands out the batched rows: the entity
    has an id map and none of its values is [undefined] or [null]. *)
Definition insert_receivesRow (md : EntityMetadata) (h : Heap) (entity : loc)
    : bool :=
  match getEntityIdMap md (h !!! entity) with
  | Some entityId => forallb isUsable (map_to_list entityId).*2
  | None => false
  end.

(** ** Further concrete runs *)

Module Runs.

(** An oracle driver: RETURNING supported, the generated map is the
    returned object. *)
Definition oracleDriver : Driver :=
  {| driverType := "oracle";
     isReturningSqlSupported := fun _ => true;
     createGeneratedMap := fun _ result _ _ =>
       match result with
       | VObj fields => Some fields
       | _ => None
       end |}.

Definition spannerDriver : Driver :=
  {| driverType := "spanner";
     isReturningSqlSupported := fun _ => true;
     createGeneratedMap := fun _ result _ _ =>
       match result with
       | VObj fields => Some fields
       | _ => None
       end |}.

(** Oracle, with [updatedAt] as the one extra returning column. *)
Definition oracleUpdator : ReturningResultsEntityUpdator :=
  Fixture.updator oracleDriver (Fixture.tableManager [] [])
    (Fixture.expressions [Fixture.updatedAtColumn] None).

Definition spannerUpdator : ReturningResultsEntityUpdator :=
  Fixture.updator spannerDriver (Fixture.tableManager [] [])
    (Fixture.expressions [Fixture.updatedAtColumn] None).

(** RETURNING supported, [updatedAt] returned. *)
Definition postgresUpdator : ReturningResultsEntityUpdator :=
  Fixture.updator Fixture.postgresDriver (Fixture.tableManager [] [])
    (Fixture.expressions [Fixture.updatedAtColumn] None).

(** No RETURNING, [updatedAt] to be re-selected, both rows in the table. *)
Definition bothRowsUpdator : ReturningResultsEntityUpdator :=
  Fixture.updator Fixture.mysqlDriver
    (Fixture.tableManager [Fixture.row 1 100; Fixture.row 2 200] [])
    (Fixture.expressions [Fixture.updatedAtColumn] None).

(** What the oracle driver returns for one extra returning column. *)
Definition oracleRaw : Value := VArr [VArr [VNum 100]].

(** What the spanner driver returns: the rows, wrapped in an outer array. *)
Definition spannerRows : list Value :=
  [VObj (Fixture.row 1 100); VObj (Fixture.row 2 200)].

Definition returnedRows : Value :=
  VArr [VObj (Fixture.row 1 100); VObj (Fixture.row 2 200)].

Definition returnedOutcome : InsertResult.t * World :=
  Eval vm_compute in
    Fixture.settled
      (insert postgresUpdator [] (Fixture.freshInsert returnedRows) [0; 1]
         Fixture.twoKnown)
      (Fixture.freshInsert VNull, Fixture.twoKnown).

Definition reselectedOutcome : UpdateResult.t * World :=
  Eval vm_compute in
    Fixture.settled
      (update bothRowsUpdator [] (Fixture.freshUpdate VNull) [0; 1]
         Fixture.twoKnown)
      (Fixture.freshUpdate VNull, Fixture.twoKnown).

End Runs.
(** * Properties *)

(** ** Returning-column selectors *)

Lemma softDeletion_split (column : ColumnMetadata) :
  (bool_decide (asExpression column ≠ None)
   || isUpdateDate column || isVersion column || isDeleteDate column)
  = isUpdationReturning column || isDeleteDate column.
Proof. reflexivity. Qed.

(** C8: the soft-deletion returning columns are the updation returning
    columns together with the columns flagged as delete date; every updation
    returning column is among them, and the updation returning columns are
    exactly the soft-deletion ones that satisfy the updation predicate, in
    the same order. *)
Theorem softDeletion_extends_updation (self : ReturningResultsEntityUpdator) :
  (∀ column,
      column ∈ getSoftDeletionReturningColumns self ↔
      column ∈ getUpdationReturningColumns self
      ∨ (column ∈ columns (metadata (expressionMap self))
         ∧ isDeleteDate column = true))
  ∧ getUpdationReturningColumns self ⊆ getSoftDeletionReturningColumns self
  ∧ getUpdationReturningColumns self
    = List.filter isUpdationReturning (getSoftDeletionReturningColumns self).
Proof.
  unfold getSoftDeletionReturningColumns, getUpdationReturningColumns.
  set (cols := columns (metadata (expressionMap self))).
  assert (Hiff : ∀ column,
    column ∈ List.filter
      (fun c => bool_decide (asExpression c ≠ None)
                || isUpdateDate c || isVersion c || isDeleteDate c) cols ↔
    column ∈ List.filter isUpdationReturning cols
    ∨ (column ∈ cols ∧ isDeleteDate column = true)).
  { intros column. rewrite !list_elem_of_In, !filter_In, softDeletion_split.
    rewrite orb_true_iff. tauto. }
  split; [exact Hiff|]. split.
  - intros column Hin. apply Hiff. by left.
  - induction cols as [|c cols IH]; [reflexivity|].
    simpl. rewrite softDeletion_split.
    destruct (isUpdationReturning c) eqn:Hc; simpl.
    + rewrite Hc. f_equal. apply IH.
      intros column. rewrite !list_elem_of_In, !filter_In, softDeletion_split.
      rewrite orb_true_iff. tauto.
    + destruct (isDeleteDate c); simpl; [rewrite Hc|]; apply IH;
        intros column; rewrite !list_elem_of_In, !filter_In, softDeletion_split,
          orb_true_iff; tauto.
Qed.

(** ** Conflict-column resolver *)

Lemma pushResolved_acc md conflicts acc :
  pushResolved md conflicts acc = acc ++ omap (findColumn md) conflicts.
Proof.
  revert acc. induction conflicts as [|name rest IH]; intros acc; simpl.
  - by rewrite app_nil_r.
  - destruct (findColumn md name) as [col|]; rewrite IH; [|done].
    by rewrite <- app_assoc.
Qed.

Lemma findColumn_Some md name col :
  findColumn md name = Some col → col ∈ columns md ∧ databaseName col = name.
Proof.
  unfold findColumn. intros H. apply find_some in H as [Hin Hname].
  split; [by apply list_elem_of_In|]. by apply bool_decide_eq_true in Hname.
Qed.

Lemma findColumn_None md name :
  findColumn md name = None → ∀ col, col ∈ columns md → databaseName col ≠ name.
Proof.
  unfold findColumn. intros H col Hin Heq.
  apply list_elem_of_In in Hin.
  pose proof (find_none _ _ H col Hin) as Hf. simpl in Hf.
  by apply bool_decide_eq_false in Hf.
Qed.

Lemma getConflictColumns_unconfigured self :
  truthyConflict (expressionMap self) = None → getConflictColumns self = [].
Proof. unfold getConflictColumns. by intros ->. Qed.

Lemma findColumn_namesColumn md name :
  namesColumn md name = bool_decide (is_Some (findColumn md name)).
Proof.
  unfold namesColumn. destruct (findColumn md name) as [col|] eqn:Hf.
  - rewrite bool_decide_eq_true_2 by done.
    apply findColumn_Some in Hf as [Hin Hname].
    apply existsb_exists. exists col. split; [by apply list_elem_of_In|].
    by apply bool_decide_eq_true.
  - rewrite bool_decide_eq_false_2 by (by intros [? ?]).
    apply not_true_is_false. intros Hex.
    apply existsb_exists in Hex as (col & Hin & Hname).
    apply list_elem_of_In in Hin. apply bool_decide_eq_true in Hname.
    by destruct (findColumn_None _ _ Hf col Hin).
Qed.

Lemma resolved_names md names :
  databaseName <$> omap (findColumn md) names
  = List.filter (namesColumn md) names.
Proof.
  induction names as [|name names IH]; [done|].
  cbn [omap list_omap List.filter]. fold (omap (findColumn md) names).
  rewrite findColumn_namesColumn.
  destruct (findColumn md name) as [col|] eqn:Hf.
  - rewrite bool_decide_eq_true_2 by done. rewrite fmap_cons, IH.
    by apply findColumn_Some in Hf as [_ ->].
  - by rewrite bool_decide_eq_false_2 by (by intros [? ?]).
Qed.

(** C7: a conflict target is configured either as one column name, which
    then stands for the one-element list of that name, or as a list of
    column names.  The resolver returns what the specification's resolver
    returns: the column of every configured name that is the database name
    of a column of the metadata, and nothing for a name that is not; the
    database names of the columns returned are exactly the configured names
    that match, in configuration order.  It is a total function, so a stale
    name raises nothing.  Column database names are taken to be non-empty,
    as they are in any metadata. *)
Theorem getConflictColumns_resolves (self : ReturningResultsEntityUpdator)
    (ou : OnUpdate) (target : ConflictTarget) :
  let md := metadata (expressionMap self) in
  let configured :=
    match target with
    | ConflictName name => [name]
    | ConflictNames names => names
    end in
  (∀ col, col ∈ columns md → databaseName col ≠ "") →
  onUpdate (expressionMap self) = Some ou →
  conflict ou = Some target →
  getConflictColumns self = resolveConflictTarget md target
  ∧ databaseName <$> getConflictColumns self
    = List.filter (namesColumn md) configured
  ∧ (∀ col, col ∈ getConflictColumns self →
       col ∈ columns md ∧ databaseName col ∈ configured)
  ∧ (∀ name col, name ∈ configured → col ∈ columns md →
       databaseName col = name →
       ∃ col', col' ∈ getConflictColumns self ∧ databaseName col' = name)
  ∧ (∀ name, name ∈ configured →
       (∀ col, col ∈ columns md → databaseName col ≠ name) →
       ∀ col', col' ∈ getConflictColumns self → databaseName col' ≠ name).
Proof.
  intros md configured Hne Hou Hc.
  assert (Hcode : getConflictColumns self = omap (findColumn md) configured).
  { unfold getConflictColumns, truthyConflict. rewrite Hou, Hc. fold md.
    destruct target as [name|names].
    - destruct name as [|a name]; [|by rewrite pushResolved_acc].
      subst configured. cbn [omap list_omap]. fold (findColumn md "").
      destruct (findColumn md "") as [col|] eqn:Hf; [|done].
      apply findColumn_Some in Hf as [Hin Hname]. by destruct (Hne col Hin).
    - by rewrite pushResolved_acc. }
  split.
  { rewrite Hcode. unfold resolveConflictTarget. subst configured.
    change (resolveName md) with (findColumn md).
    destruct target as [name|names]; [|done].
    cbn [omap list_omap]. by destruct (findColumn md name). }
  split; [by rewrite Hcode, resolved_names|].
  rewrite Hcode. repeat split.
  - apply list_elem_of_omap in H as (name & Hname & Hf).
    by apply findColumn_Some in Hf as [? _].
  - apply list_elem_of_omap in H as (name & Hname & Hf).
    apply findColumn_Some in Hf as [_ ->]. done.
  - intros name col Hname Hin Hdb.
    destruct (findColumn md name) as [col'|] eqn:Hf.
    + exists col'. split; [|by apply findColumn_Some in Hf as [_ ?]].
      apply list_elem_of_omap. eauto.
    + by destruct (findColumn_None _ _ Hf col Hin).
  - intros name Hname Hnone col' Hin' Hdb.
    apply list_elem_of_omap in Hin' as (name' & _ & Hf).
    apply findColumn_Some in Hf as [Hin _]. by apply (Hnone col').
Qed.

(** ** [Promise.all] *)

Section PromiseAllFacts.
Context {St : Type}.
Implicit Types pending : list (Query * (option Obj → St → St)).

Lemma pick_nil {X} choice (l : list X) : pick choice l = None → l = [].
Proof.
  unfold pick. destruct l as [|x l]; [done|].
  destruct ((x :: l) !! (choice `mod` length (x :: l))) eqn:Hl; [done|].
  apply lookup_ge_None in Hl.
  pose proof (Nat.mod_upper_bound choice (length (x :: l))) as Hb.
  simpl in *. lia.
Qed.

Lemma pick_Permutation {X} choice (l : list X) x rest :
  pick choice l = Some (x, rest) → l ≡ₚ x :: rest.
Proof.
  unfold pick. destruct (l !! _) eqn:Hl; [|done].
  intros [= <- <-]. by apply delete_Permutation.
Qed.

Lemma pick_first {X} (x : X) (l : list X) : pick 0 (x :: l) = Some (x, l).
Proof. unfold pick. by rewrite Nat.Div0.mod_0_l. Qed.

Lemma settle_Resolved getOne n sched pending (st st' : St) :
  length pending ≤ n →
  settle getOne n sched pending st = Resolved st' →
  ∃ cs : list (Completed St),
    cs.*1 ≡ₚ pending
    ∧ Forall (fun c => getOne c.1.1 = Resolved c.2) cs
    ∧ st' = resume st cs.
Proof.
  revert sched pending st.
  induction n as [|n IH]; intros sched pending st Hlen Hrun; simpl in Hrun.
  - destruct pending; [|simpl in Hlen; lia].
    exists []. by injection Hrun as <-.
  - destruct (pick (hd 0 sched) pending) as [[[q k] rest]|] eqn:Hpick.
    + destruct (getOne q) as [row|e] eqn:Hq; [|done].
      pose proof (pick_Permutation _ _ _ _ Hpick) as Hperm.
      apply IH in Hrun as (cs & Hdone & Hall & ->).
      * exists ((q, k, row) :: cs). split; [|split].
        -- simpl. by rewrite Hperm, Hdone.
        -- by constructor.
        -- done.
      * apply Permutation_length in Hperm. simpl in Hperm. lia.
    + apply pick_nil in Hpick as ->.
      exists []. by injection Hrun as <-.
Qed.

Lemma settle_Rejected getOne n sched pending (st : St) e :
  settle getOne n sched pending st = Rejected e →
  ∃ qk, qk ∈ pending ∧ getOne qk.1 = Rejected e.
Proof.
  revert sched pending st.
  induction n as [|n IH]; intros sched pending st Hrun; simpl in Hrun; [done|].
  destruct (pick (hd 0 sched) pending) as [[[q k] rest]|] eqn:Hpick; [|done].
  pose proof (pick_Permutation _ _ _ _ Hpick) as Hperm.
  destruct (getOne q) as [row|e'] eqn:Hq.
  - apply IH in Hrun as (qk & Hin & Hrej). exists qk. split; [|done].
    rewrite Hperm. by right.
  - injection Hrun as ->. exists (q, k). split; [|done].
    rewrite Hperm. by left.
Qed.

Lemma settle_total getOne n sched pending (st : St) :
  Forall (fun qk => ∃ row, getOne qk.1 = Resolved row) pending →
  ∃ st', settle getOne n sched pending st = Resolved st'.
Proof.
  revert sched pending st.
  induction n as [|n IH]; intros sched pending st Hall; simpl; [by eexists|].
  destruct (pick (hd 0 sched) pending) as [[[q k] rest]|] eqn:Hpick;
    [|by eexists].
  pose proof (pick_Permutation _ _ _ _ Hpick) as Hperm.
  rewrite Hperm in Hall. apply Forall_cons in Hall as [[row Hq] Hrest].
  simpl in Hq. rewrite Hq. by apply IH.
Qed.

(** Reads that complete in the order in which they were issued. *)
Lemma settle_in_order getOne pending (st st' : St) :
  settle getOne (length pending) [] pending st = Resolved st' →
  ∃ cs : list (Completed St),
    cs.*1 = pending
    ∧ Forall (fun c => getOne c.1.1 = Resolved c.2) cs
    ∧ st' = resume st cs.
Proof.
  revert st. induction pending as [|[q k] rest IH]; intros st Hrun; simpl in Hrun.
  - exists []. by injection Hrun as <-.
  - rewrite pick_first in Hrun.
    destruct (getOne q) as [row|e] eqn:Hq; [|done].
    apply IH in Hrun as (cs & Hdone & Hall & ->).
    exists ((q, k, row) :: cs). split; [|split].
    + simpl. by f_equal.
    + by constructor.
    + done.
Qed.

Lemma promiseAll_Resolved {A} getOne sched
    (callback : A → nat → St → St * Task St) items (st st' : St) :
  promiseAll getOne sched callback items st = Resolved st' →
  ∃ st1 tasks,
    launch callback items 0 st = (st1, tasks)
    ∧ firstThrown tasks = None
    ∧ settle getOne (length (pendingOf tasks)) sched (pendingOf tasks) st1
      = Resolved st'.
Proof.
  unfold promiseAll. destruct (launch callback items 0 st) as [st1 tasks].
  destruct (firstThrown tasks) eqn:Hthrown; [done|].
  intros Hrun. by exists st1, tasks.
Qed.
End PromiseAllFacts.

(** ** [update] *)

Section UpdateFacts.
Context (self : ReturningResultsEntityUpdator).
Local Abbreviation drv := (driver (queryRunner self)).
Local Abbreviation mgr := (manager (queryRunner self)).
Local Abbreviation em := (expressionMap self).
Local Abbreviation md := (metadata (expressionMap self)).

Lemma update_normalizeRaw_stable raw raw1 :
  update_normalizeRaw self raw = Resolved raw1 →
  update_normalizeRaw self raw1 = Resolved raw1.
Proof.
  unfold update_normalizeRaw. cbv zeta.
  destruct raw as [| | | | |items|]; try by intros [= <-].
  destruct (_ && _) eqn:Hc.
  - destruct (reduceOracleRaw _ items 0 ∅); [|done]. by intros [= <-].
  - by intros [= <-].
Qed.

Lemma update_callback_inline e index raw raw1 gms h qs :
  isReturningSqlSupported drv ReturningUpdate = true →
  update_normalizeRaw self raw = Resolved raw1 →
  update_callback self e index
    ({| UpdateResult.raw := raw; UpdateResult.generatedMaps := gms |},
     {| heap := h; issued := qs |})
  = (({| UpdateResult.raw := raw1;
         UpdateResult.generatedMaps :=
           gms ++ option_list (update_returned self raw1 index) |},
      {| heap := mergeEntity self e (update_returned self raw1 index) h;
         issued := qs |}),
     TaskDone).
Proof.
  intros Hsup Hn. unfold update_callback.  rewrite Hsup. simpl.
  rewrite Hn.
  change (createGeneratedMap drv (metadata (expressionMap self))
            (rawRow raw1 index) None None)
    with (update_returned self raw1 index).
  destruct (update_returned self raw1 index) as [m|]; simpl; [done|].
  by rewrite app_nil_r.
Qed.

Lemma update_callback_inline_throws e index st err :
  isReturningSqlSupported drv ReturningUpdate = true →
  update_normalizeRaw self (UpdateResult.raw st.1) = Rejected err →
  update_callback self e index st = (st, TaskThrow err).
Proof.
  intros Hsup Hn. unfold update_callback.  by rewrite Hsup, Hn.
Qed.

Lemma omap_seq_cons {B} (f : nat → option B) index n :
  omap f (seq index (S n)) = option_list (f index) ++ omap f (seq (S index) n).
Proof. simpl. by destruct (f index). Qed.

(** With RETURNING, the callbacks run to completion one after the other. *)
Lemma launch_update_inline entities index raw1 gms h qs :
  isReturningSqlSupported drv ReturningUpdate = true →
  update_normalizeRaw self raw1 = Resolved raw1 →
  launch (update_callback self) entities index
    ({| UpdateResult.raw := raw1; UpdateResult.generatedMaps := gms |},
     {| heap := h; issued := qs |})
  = (({| UpdateResult.raw := raw1;
         UpdateResult.generatedMaps :=
           gms ++ omap (update_returned self raw1)
                    (seq index (length entities)) |},
      {| heap := mergeEach self (update_returned self raw1) entities index h;
         issued := qs |}),
     replicate (length entities) TaskDone).
Proof.
  intros Hsup Hstable. revert index gms h.
  induction entities as [|e rest IH]; intros index gms h.
  - simpl. by rewrite app_nil_r.
  - cbn [launch length]. rewrite (update_callback_inline _ _ _ raw1) by done.
    rewrite IH, omap_seq_cons, <- app_assoc. done.
Qed.

Lemma firstThrown_replicate_done {St} n :
  firstThrown (replicate n (@TaskDone St)) = None.
Proof. induction n; simpl; auto. Qed.

Lemma pendingOf_replicate_done {St} n :
  pendingOf (replicate n (@TaskDone St)) = [].
Proof. induction n; simpl; auto. Qed.

Lemma update_inline sched r entities w st' :
  isReturningSqlSupported drv ReturningUpdate = true →
  update self sched r entities w = Resolved st' →
  let raw1 := UpdateResult.raw st'.1 in
  (entities = [] ∧ raw1 = UpdateResult.raw r
   ∨ update_normalizeRaw self (UpdateResult.raw r) = Resolved raw1)
  ∧ UpdateResult.generatedMaps st'.1
    = UpdateResult.generatedMaps r
        ++ omap (update_returned self raw1) (seq 0 (length entities))
  ∧ heap st'.2 = mergeEach self (update_returned self raw1) entities 0 (heap w)
  ∧ issued st'.2 = issued w.
Proof.
  intros Hsup. destruct r as [raw gms], w as [h qs].
  unfold update, promiseAll.
  destruct entities as [|e rest].
  - simpl. intros [= <-]. simpl. rewrite app_nil_r. auto.
  - cbn [launch].
    destruct (update_normalizeRaw self raw) as [raw1|err] eqn:Hn.
    + pose proof (update_normalizeRaw_stable _ _ Hn) as Hstable.
      rewrite (update_callback_inline _ _ _ raw1) by done.
      rewrite launch_update_inline by done.
      cbn [firstThrown pendingOf].
      rewrite firstThrown_replicate_done, pendingOf_replicate_done.
      cbv zeta. cbn [length settle]. intros [= <-].
      cbn [fst snd UpdateResult.raw UpdateResult.generatedMaps heap issued].
      rewrite omap_seq_cons, <- app_assoc. auto.
    + rewrite (update_callback_inline_throws _ _ _ err) by done.
      destruct (launch _ rest 1 _) as [st2 ts]. by simpl.
Qed.

Lemma update_callback_reselect e index r h qs :
  isReturningSqlSupported drv ReturningUpdate = false →
  extraReturningColumns em ≠ [] →
  update_callback self e index (r, {| heap := h; issued := qs |})
  = ((r, {| heap := h;
            issued := qs ++ option_list
                              (update_query self <$> getEntityIdMap md (h !!! e)) |}),
     update_task self h e).
Proof.
  intros Hsup Hcols. unfold update_callback, update_task. 
  rewrite Hsup.
  rewrite bool_decide_eq_true_2
    by (destruct (extraReturningColumns em); [done|simpl; lia]).
  simpl. destruct (getEntityIdMap md (h !!! e)) as [entityId|]; simpl; [done|].
  by rewrite app_nil_r.
Qed.

(** Without RETURNING, every callback either throws for want of an id or
    issues its read and waits; nothing is merged before a read completes. *)
Lemma launch_update_reselect entities index r h qs :
  isReturningSqlSupported drv ReturningUpdate = false →
  extraReturningColumns em ≠ [] →
  launch (update_callback self) entities index (r, {| heap := h; issued := qs |})
  = ((r, {| heap := h; issued := qs ++ update_reads self h entities |}),
     update_task self h <$> entities).
Proof.
  intros Hsup Hcols. revert index qs.
  induction entities as [|e rest IH]; intros index qs.
  - simpl. by rewrite app_nil_r.
  - cbn [launch]. rewrite update_callback_reselect by done.
    rewrite IH. unfold update_reads.  rewrite <- app_assoc.
    cbn [omap list_omap fmap list_fmap].
    by destruct (getEntityIdMap md (h !!! e)).
Qed.

Lemma launch_update_nothing entities index st :
  isReturningSqlSupported drv ReturningUpdate = false →
  extraReturningColumns em = [] →
  launch (update_callback self) entities index st
  = (st, replicate (length entities) TaskDone).
Proof.
  intros Hsup Hcols. revert index.
  induction entities as [|e rest IH]; intros index; simpl; [done|].
  unfold update_callback at 1.  rewrite Hsup, Hcols. simpl.
  by rewrite IH.
Qed.

Lemma firstThrown_update_task h entities :
  firstThrown (update_task self h <$> entities) = None →
  Forall (fun e => is_Some (getEntityIdMap md (h !!! e))) entities.
Proof.
  induction entities as [|e rest IH]; simpl; [constructor|].
  unfold update_task at 1. 
  destruct (getEntityIdMap md (h !!! e)) eqn:He; [|done].
  intros H. constructor; [by eexists|auto].
Qed.

Lemma firstThrown_update_task_missing h entities i e :
  entities !! i = Some e →
  getEntityIdMap md (h !!! e) = None →
  firstThrown (update_task self h <$> entities)
  = Some (TypeORMError missingIdMessage).
Proof.
  revert i. induction entities as [|e' rest IH]; intros i Hi He; [done|].
  simpl. unfold update_task at 1. 
  destruct (getEntityIdMap md (h !!! e')) eqn:He'; [|done].
  destruct i as [|i]; simpl in Hi.
  - injection Hi as ->. congruence.
  - by apply (IH i).
Qed.
End UpdateFacts.

Section UpdateLedger.
Context (self : ReturningResultsEntityUpdator).
Local Abbreviation drv := (driver (queryRunner self)).
Local Abbreviation mgr := (manager (queryRunner self)).
Local Abbreviation em := (expressionMap self).
Local Abbreviation md := (metadata (expressionMap self)).

Lemma length_omap_le {A B} (f : A → option B) (l : list A) :
  length (omap f l) ≤ length l.
Proof.
  induction l as [|x l IH]; [done|].
  change (omap f (x :: l))
    with (match f x with Some y => y :: omap f l | None => omap f l end).
  destruct (f x); simpl; lia.
Qed.

Lemma pendingOf_update_task h entities :
  Forall (fun qk => ∃ e, qk.2 = update_record self e)
    (pendingOf (update_task self h <$> entities)).
Proof.
  induction entities as [|e rest IH]; simpl; [constructor|].
  unfold update_task at 1. destruct (getEntityIdMap md (h !!! e)); [|done].
  constructor; [by exists e|done].
Qed.

Lemma pendingOf_update_loaded h entities :
  omap (fun qk => rowOf mgr qk.1) (pendingOf (update_task self h <$> entities))
  = omap (update_loaded self h) entities.
Proof.
  induction entities as [|e rest IH]; [done|].
  rewrite fmap_cons. cbn [pendingOf omap list_omap].
  unfold update_task at 1, update_loaded at 1.
  destruct (getEntityIdMap md (h !!! e)) as [entityId|]; cbn;
    by rewrite IH.
Qed.

(** Resuming the callbacks of [update] appends the rows found, in
    completion order, and touches neither the raw result nor the reads. *)
Lemma resume_update_record (st : UpdateState) (cs : list (Completed UpdateState)) :
  Forall (fun c => ∃ e, c.1.2 = update_record self e) cs →
  UpdateResult.generatedMaps (resume st cs).1
  = UpdateResult.generatedMaps st.1 ++ omap (fun c => c.2) cs
  ∧ UpdateResult.raw (resume st cs).1 = UpdateResult.raw st.1
  ∧ issued (resume st cs).2 = issued st.2.
Proof.
  intros Hall. revert st.
  induction Hall as [|[[q k] row] cs [e Hk] _ IH]; intros st.
  - simpl. by rewrite app_nil_r.
  - simpl in Hk. subst k. unfold resume. cbn [foldl fst snd].
    fold (resume (update_record self e row st) cs).
    destruct (IH (update_record self e row st)) as (Hg & Hr & Hi).
    rewrite Hg, Hr, Hi. destruct row as [m|]; cbn; [|done].
    by rewrite <- app_assoc.
Qed.

Lemma completed_rows (cs : list (Completed UpdateState)) :
  Forall (fun c => getOne mgr c.1.1 = Resolved c.2) cs →
  omap (fun c => c.2) cs = omap (fun qk => rowOf mgr qk.1) cs.*1.
Proof.
  induction 1 as [|[[q k] row] cs Hq _ IH]; [done|].
  rewrite fmap_cons. cbn. cbn in Hq. unfold rowOf at 1. rewrite Hq, IH. done.
Qed.

Lemma update_reselect sched r entities w st' :
  isReturningSqlSupported drv ReturningUpdate = false →
  extraReturningColumns em ≠ [] →
  update self sched r entities w = Resolved st' →
  ∃ added,
    UpdateResult.generatedMaps st'.1 = UpdateResult.generatedMaps r ++ added
    ∧ added ≡ₚ omap (update_loaded self (heap w)) entities
    ∧ (sched = [] → added = omap (update_loaded self (heap w)) entities)
    ∧ UpdateResult.raw st'.1 = UpdateResult.raw r
    ∧ issued st'.2 = issued w ++ update_reads self (heap w) entities.
Proof.
  intros Hsup Hcols Hrun. destruct w as [h qs].
  unfold update in Hrun.
  apply promiseAll_Resolved in Hrun as (st1 & tasks & Hlaunch & Hthrown & Hrun).
  rewrite launch_update_reselect in Hlaunch by done.
  injection Hlaunch as <- <-.
  assert (Hin_order : sched = [] →
    ∃ cs : list (Completed UpdateState),
      cs.*1 = pendingOf (update_task self h <$> entities)
      ∧ Forall (fun c => getOne mgr c.1.1 = Resolved c.2) cs
      ∧ st' = resume (r, {| heap := h;
                             issued := qs ++ update_reads self h entities |}) cs).
  { intros ->. by apply settle_in_order. }
  apply settle_Resolved in Hrun as (cs & Hperm & Hq & ->); [|done].
  assert (Hk : Forall (fun c => ∃ e, c.1.2 = update_record self e) cs).
  { apply Forall_fmap with (f := fst) (P := fun qk => ∃ e, qk.2 = update_record self e).
    rewrite Hperm. apply pendingOf_update_task. }
  destruct (resume_update_record (r, {| heap := h; issued := qs ++ update_reads self h entities |}) cs Hk)
    as (Hg & Hr & Hi).
  exists (omap (fun c => c.2) cs). split; [exact Hg|]. split; [|split].
  - rewrite completed_rows by done. rewrite Hperm.
    by rewrite pendingOf_update_loaded.
  - intros Hs. destruct (Hin_order Hs) as (cs' & Hd' & Hq' & Heq).
    assert (Hk' : Forall (fun c => ∃ e, c.1.2 = update_record self e) cs').
    { apply Forall_fmap with (f := fst)
        (P := fun qk => ∃ e, qk.2 = update_record self e).
      rewrite Hd'. apply pendingOf_update_task. }
    destruct (resume_update_record (r, {| heap := h; issued := qs ++ update_reads self h entities |}) cs' Hk')
      as (Hg' & _ & _).
    rewrite <- Heq, Hg in Hg'. apply app_inv_head in Hg'. rewrite Hg'.
    rewrite completed_rows by done. rewrite Hd'.
    by rewrite pendingOf_update_loaded.
  - simpl in *. auto.
Qed.

Lemma update_nothing_to_load sched r entities w :
  isReturningSqlSupported drv ReturningUpdate = false →
  extraReturningColumns em = [] →
  update self sched r entities w = Resolved (r, w).
Proof.
  intros Hsup Hcols. unfold update, promiseAll.
  rewrite launch_update_nothing by done.
  by rewrite firstThrown_replicate_done, pendingOf_replicate_done.
Qed.
End UpdateLedger.

(** C5: without RETURNING and with at least one column to load, an entity
    whose id map cannot be computed makes the whole call fail with the
    [TypeORMError] "Cannot update entity because entity id is not set in the
    entity." (the specification's IdentifierMissingError), whatever the
    other entities and the completion order of their reads; the callback of
    that entity throws before building any read, so none is issued for it. *)
Theorem update_rejects_without_id (self : ReturningResultsEntityUpdator)
    (sched : list nat) (r : UpdateResult.t) (entities : list loc) (w : World)
    (i : nat) (e : loc) :
  isReturningSqlSupported (driver (queryRunner self)) ReturningUpdate = false →
  extraReturningColumns (expressionMap self) ≠ [] →
  entities !! i = Some e →
  getEntityIdMap (metadata (expressionMap self)) (heap w !!! e) = None →
  update self sched r entities w = Rejected (TypeORMError missingIdMessage)
  ∧ ∀ entityIndex r0 qs,
      update_callback self e entityIndex
        (r0, {| heap := heap w; issued := qs |})
      = ((r0, {| heap := heap w; issued := qs |}),
         TaskThrow (TypeORMError missingIdMessage)).
Proof.
  intros Hsup Hcols Hi He. split.
  - destruct w as [h qs]. unfold update, promiseAll.
    rewrite launch_update_reselect by done.
    simpl in He. by rewrite (firstThrown_update_task_missing self h entities i e).
  - intros entityIndex r0 qs. rewrite update_callback_reselect by done.
    unfold update_task. rewrite He. simpl. by rewrite app_nil_r.
Qed.

Lemma update_rejects_without_id_witness :
  update Fixture.reselectingUpdator [] (Fixture.freshUpdate VNull) [0]
    Fixture.oneUnidentified
  = Rejected (TypeORMError missingIdMessage).
Proof.
  refine (proj1 (update_rejects_without_id Fixture.reselectingUpdator []
                   (Fixture.freshUpdate VNull) [0] Fixture.oneUnidentified 0 0
                   _ _ _ _)).
  - reflexivity.
  - discriminate.
  - reflexivity.
  - vm_compute. reflexivity.
Defined.

(** C4 as stated fails: two entities, one ledger entry, and the entry at
    position 0 is the row loaded for the second entity (no row is found
    for the first). *)
Lemma update_ledger_shorter_than_entities :
  (fun st : UpdateState => UpdateResult.generatedMaps st.1)
    <$> update Fixture.reselectingUpdator [] (Fixture.freshUpdate VNull) [0; 1]
          Fixture.twoKnown
  = Resolved [Fixture.row 2 200].
Proof. vm_compute. reflexivity. Qed.

(** C4, amended: [update] appends to the ledger one entry for each entity
    for which a generated map was produced (with RETURNING) or for which the
    supplemental read found a row (without), so at most one per entity.
    With RETURNING the entries follow the order of the entities; without,
    they follow the order in which the reads complete, which is the order of
    the entities when the reads complete in the order they were issued. *)
Theorem update_ledger_entries (self : ReturningResultsEntityUpdator)
    (sched : list nat) (r : UpdateResult.t) (entities : list loc) (w : World)
    (r' : UpdateResult.t) (w' : World) :
  let supported :=
    isReturningSqlSupported (driver (queryRunner self)) ReturningUpdate in
  update self sched r entities w = Resolved (r', w') →
  ∃ added,
    UpdateResult.generatedMaps r' = UpdateResult.generatedMaps r ++ added
    ∧ length added ≤ length entities
    ∧ (supported = true →
       added = omap (update_returned self (UpdateResult.raw r'))
                 (seq 0 (length entities)))
    ∧ (supported = false → extraReturningColumns (expressionMap self) = [] →
       added = [])
    ∧ (supported = false → extraReturningColumns (expressionMap self) ≠ [] →
       added ≡ₚ omap (update_loaded self (heap w)) entities
       ∧ (sched = [] → added = omap (update_loaded self (heap w)) entities)).
Proof.
  intros supported Hrun. subst supported.
  destruct (isReturningSqlSupported _ ReturningUpdate) eqn:Hsup.
  - apply update_inline in Hrun as (_ & Hg & _ & _); [|done]. simpl in Hg.
    eexists. split; [exact Hg|]. split; [|by repeat split].
    etrans; [apply length_omap_le|]. by rewrite length_seq.
  - destruct (decide (extraReturningColumns (expressionMap self) = []))
      as [Hnil|Hcols].
    + rewrite update_nothing_to_load in Hrun by done. injection Hrun as <- <-.
      exists []. rewrite app_nil_r. repeat split; try done. simpl; lia.
    + apply update_reselect in Hrun as (added & Hg & Hperm & Hord & _ & _);
        [|done..].
      exists added. split; [exact Hg|]. split; [|by repeat split].
      rewrite Hperm. apply length_omap_le.
Qed.

Lemma update_ledger_entries_witness :
  ∃ added,
    [Fixture.row 2 200] = [] ++ added ∧ length added ≤ 2.
Proof.
  destruct (update_ledger_entries Fixture.reselectingUpdator []
              (Fixture.freshUpdate VNull) [0; 1] Fixture.twoKnown
              {| UpdateResult.raw := VNull;
                 UpdateResult.generatedMaps := [Fixture.row 2 200] |}
              {| heap := <[1 := Fixture.overlay Fixture.testMetadata
                                  (heap Fixture.twoKnown !!! 1)
                                  (Fixture.row 2 200)]>
                           (heap Fixture.twoKnown);
                 issued := update_reads Fixture.reselectingUpdator
                             (heap Fixture.twoKnown) [0; 1] |})
    as (added & Hg & Hlen & _).
  - vm_compute. reflexivity.
  - exists added. split; [exact Hg | exact Hlen].
Defined.

(** C6 as stated fails: the extraction produces an empty map for the row
    [{}], and that empty map is appended to the ledger. *)
Lemma update_appends_empty_map :
  createGeneratedMap Fixture.postgresDriver Fixture.testMetadata
    (rawRow (VArr [VObj ∅]) 0) None None = Some ∅
  ∧ (fun st : UpdateState => UpdateResult.generatedMaps st.1)
      <$> update Fixture.returningUpdator [] (Fixture.freshUpdate (VArr [VObj ∅]))
            [0] Fixture.twoKnown
    = Resolved [∅].
Proof. split; vm_compute; reflexivity. Qed.

(** C6, amended: with RETURNING, the map extracted for an entity is merged
    into the entity and appended to the ledger if and only if the extraction
    produced a map, empty or not; nothing is merged or appended for an
    entity whose extraction produced none, and no read is issued. *)
Theorem update_inline_merges_produced (self : ReturningResultsEntityUpdator)
    (sched : list nat) (r : UpdateResult.t) (entities : list loc) (w : World)
    (r' : UpdateResult.t) (w' : World) :
  isReturningSqlSupported (driver (queryRunner self)) ReturningUpdate = true →
  update self sched r entities w = Resolved (r', w') →
  let produced := update_returned self (UpdateResult.raw r') in
  UpdateResult.generatedMaps r'
  = UpdateResult.generatedMaps r ++ omap produced (seq 0 (length entities))
  ∧ heap w' = mergeEach self produced entities 0 (heap w)
  ∧ issued w' = issued w
  ∧ (∀ m, m ∈ omap produced (seq 0 (length entities)) ↔
          ∃ i, i < length entities ∧ produced i = Some m)
  ∧ (∀ e h, mergeEntity self e None h = h).
Proof.
  intros Hsup Hrun produced.
  apply update_inline in Hrun as (_ & Hg & Hh & Hi); [|done].
  simpl in Hg, Hh, Hi. repeat split; try done.
  - intros Hin. apply list_elem_of_omap in Hin as (i & Hi' & Hp).
    apply elem_of_seq in Hi'. exists i. split; [lia|done].
  - intros (i & Hlt & Hp). apply list_elem_of_omap. exists i.
    split; [|done]. apply elem_of_seq. lia.
Qed.

Lemma update_inline_merges_produced_witness :
  [(∅ : Obj)] = [] ++ omap (update_returned Fixture.returningUpdator (VArr [VObj ∅]))
                       (seq 0 1).
Proof.
  refine (proj1 (update_inline_merges_produced Fixture.returningUpdator []
            (Fixture.freshUpdate (VArr [VObj ∅])) [0] Fixture.twoKnown
            {| UpdateResult.raw := VArr [VObj ∅];
               UpdateResult.generatedMaps := [∅] |}
            {| heap := <[0 := Fixture.overlay Fixture.testMetadata
                                (heap Fixture.twoKnown !!! 0) ∅]>
                         (heap Fixture.twoKnown);
               issued := [] |} _ _)).
  - reflexivity.
  - vm_compute. reflexivity.
Defined.

(** ** [insert]: the synchronous loops *)

Section InsertLoops.
Context (self : ReturningResultsEntityUpdator).
Local Abbreviation drv := (driver (queryRunner self)).
Local Abbreviation mgr := (manager (queryRunner self)).
Local Abbreviation em := (expressionMap self).
Local Abbreviation md := (metadata (expressionMap self)).

Lemma insert_generatedMaps_spec total entities index raw h raw' h' gms :
  insert_generatedMaps self total entities index raw h
  = Resolved (raw', h', gms) →
  length gms = length entities
  ∧ (∀ j, j < length entities →
       ∃ raw_j, insert_rawAt self raw j = Resolved raw_j
                ∧ gms !! j
                  = Some (insert_generatedMap self total (index + j) raw_j))
  ∧ h' = mergeSources self (zip entities (Some <$> gms)) h.
Proof.
  revert index raw h raw' h' gms.
  induction entities as [|e rest IH]; intros index raw h raw' h' gms Hrun.
  - simpl in Hrun. injection Hrun as <- <- <-. split; [done|].
    split; [|done]. intros j Hj. simpl in Hj. lia.
  - cbn [insert_generatedMaps] in Hrun.
    destruct (insert_normalizeRaw self raw) as [raw1|err] eqn:Hn; [|done].
    cbn in Hrun.
    destruct (insert_generatedMaps self total rest (S index) raw1 _)
      as [[[raw2 h2] gms2]|err] eqn:Hrest; [|done].
    cbn in Hrun. injection Hrun as <- <- <-.
    apply IH in Hrest as (Hlen & Hat & Hheap).
    split; [simpl; by rewrite Hlen|]. split.
    + intros [|j] Hj.
      * exists raw1. cbn. rewrite Hn. cbn. by rewrite Nat.add_0_r.
      * destruct (Hat j) as (raw_j & Hraw & Hgm); [simpl in Hj; lia|].
        exists raw_j. cbn. rewrite Hn. cbn. split; [done|].
        etrans; [exact Hgm|]. do 2 f_equal. lia.
    + by rewrite Hheap.
Qed.

Lemma insert_mergeBack_spec rr entities index gms h gms' h' :
  insert_mergeBack self rr entities index gms h = (gms', h') →
  length gms' = length gms
  ∧ (∀ k, gms' !! k
          = if decide (index ≤ k < index + length entities)
            then (fun gm => mergeInto self gm (mjoin (rr !! k))) <$> gms !! k
            else gms !! k)
  ∧ h' = mergeSources self
           (zip entities ((fun k => mjoin (rr !! k))
                            <$> seq index (length entities))) h.
Proof.
  revert index gms h.
  induction entities as [|e rest IH]; intros index gms h Hrun.
  - simpl in Hrun. injection Hrun as <- <-. split; [done|]. split; [|done].
    intros k. case_decide; [simpl in *; lia|done].
  - cbn [insert_mergeBack] in Hrun.
    apply IH in Hrun as (Hlen & Hat & Hheap).
    rewrite length_alter in Hlen. split; [done|]. split; [|done].
    intros k. rewrite Hat. cbn [length].
    destruct (decide (k = index)) as [->|Hne].
    + rewrite list_lookup_alter_eq.
      rewrite decide_False by lia. rewrite decide_True by lia. done.
    + rewrite list_lookup_alter_ne by done.
      repeat case_decide; try done; lia.
Qed.

Lemma omap_lookup_seq {B} (l : list B) index n :
  index + n ≤ length l →
  omap (fun k => l !! k) (seq index n) = take n (drop index l).
Proof.
  revert index. induction n as [|n IH]; intros index Hle; [done|].
  cbn [seq]. destruct (lookup_lt_is_Some_2 l index) as [x Hx]; [lia|].
  change (omap (fun k => l !! k) (index :: seq (S index) n))
    with (match l !! index with
          | Some y => y :: omap (fun k => l !! k) (seq (S index) n)
          | None => omap (fun k => l !! k) (seq (S index) n)
          end).
  rewrite Hx, IH by lia.
  rewrite (drop_S l x index Hx). done.
Qed.

Lemma insert_pushResults_spec h gms entities index r :
  let r' := insert_pushResults md h gms entities index r in
  InsertResult.raw r' = InsertResult.raw r
  ∧ InsertResult.identifiers r'
    = InsertResult.identifiers r
        ++ ((fun e => getEntityIdMap md (h !!! e)) <$> entities)
  ∧ InsertResult.generatedMaps r'
    = InsertResult.generatedMaps r
        ++ omap (fun k => gms !! k) (seq index (length entities)).
Proof.
  revert index r. induction entities as [|e rest IH]; intros index r.
  - simpl. by rewrite !app_nil_r.
  - cbn [insert_pushResults]. cbv zeta.
    destruct (IH (S index)
      {| InsertResult.raw := InsertResult.raw r;
         InsertResult.identifiers :=
           InsertResult.identifiers r ++ [getEntityIdMap md (h !!! e)];
         InsertResult.generatedMaps :=
           InsertResult.generatedMaps r ++ option_list (gms !! index) |})
      as (Hraw & Hids & Hgms).
    cbn [InsertResult.raw InsertResult.identifiers InsertResult.generatedMaps]
      in Hraw, Hids, Hgms.
    rewrite Hraw, Hids, Hgms. split; [done|]. split.
    + rewrite <- app_assoc. done.
    + rewrite <- app_assoc. cbn [length]. by rewrite omap_seq_cons.
Qed.
End InsertLoops.

(** ** [insert]: the re-selection phase *)

Section InsertRecover.
Context (self : ReturningResultsEntityUpdator).
Local Abbreviation drv := (driver (queryRunner self)).
Local Abbreviation mgr := (manager (queryRunner self)).
Local Abbreviation em := (expressionMap self).
Local Abbreviation md := (metadata (expressionMap self)).

Lemma insert_partition_spec h entities index entityIds conflictBasedEntities :
  insert_partition md h entities index entityIds conflictBasedEntities
  = (entityIds ++ knownIds md h entities,
     conflictBasedEntities ++ conflictBased md h entities index).
Proof.
  revert index entityIds conflictBasedEntities.
  induction entities as [|e rest IH]; intros index ids cbs.
  - simpl. by rewrite !app_nil_r.
  - cbn [insert_partition conflictBased]. unfold knownIds.
    cbn [omap list_omap].
    destruct (getEntityIdMap md (h !!! e)) as [entityId|];
      rewrite IH, <- app_assoc; done.
Qed.

Lemma elem_of_conflictBased h entities index e i :
  (e, i) ∈ conflictBased md h entities index ↔
  index ≤ i ∧ entities !! (i - index) = Some e
  ∧ getEntityIdMap md (h !!! e) = None.
Proof.
  revert index. induction entities as [|e' rest IH]; intros index.
  - simpl. split; [by intros ?%elem_of_nil|]. by intros (_ & ? & _).
  - cbn [conflictBased].
    assert (Hrest : (e, i) ∈ conflictBased md h rest (S index) ↔
              S index ≤ i ∧ (e' :: rest) !! (i - index) = Some e
              ∧ getEntityIdMap md (h !!! e) = None).
    { rewrite IH. split.
      - intros (Hle & Hl & Hid). split; [done|]. split; [|done].
        replace (i - index) with (S (i - S index)) by lia. done.
      - intros (Hle & Hl & Hid). split; [done|]. split; [|done].
        replace (i - index) with (S (i - S index)) in Hl by lia. done. }
    destruct (getEntityIdMap md (h !!! e')) as [entityId|] eqn:He'.
    + rewrite Hrest. split; [intros (? & ? & ?); split; [lia|done]|].
      intros (Hle & Hl & Hid). split; [|done].
      destruct (decide (i = index)) as [->|]; [|lia].
      rewrite Nat.sub_diag in Hl. simpl in Hl. injection Hl as ->. congruence.
    + rewrite elem_of_cons, Hrest. split.
      * intros [[= -> ->]|(? & ? & ?)].
        -- rewrite Nat.sub_diag. done.
        -- split; [lia|done].
      * intros (Hle & Hl & Hid).
        destruct (decide (i = index)) as [->|]; [|right; split; [lia|done]].
        rewrite Nat.sub_diag in Hl. simpl in Hl. injection Hl as ->. by left.
Qed.

Lemma NoDup_conflictBased h entities index :
  NoDup (conflictBased md h entities index).*2.
Proof.
  revert index. induction entities as [|e rest IH]; intros index.
  - constructor.
  - cbn [conflictBased]. destruct (getEntityIdMap md (h !!! e)); [apply IH|].
    rewrite fmap_cons. constructor; [|apply IH].
    intros Hin. apply list_elem_of_fmap in Hin as ([e' i] & Heq & Hin).
    simpl in Heq. subst i. apply elem_of_conflictBased in Hin. lia.
Qed.

Lemma elem_of_conflictReads h ic cc items i q :
  (i, q) ∈ conflictReads self h ic cc items ↔
  ∃ e, (e, i) ∈ items
       ∧ hasKeys (insert_whereCondition cc (h !!! e)) = true
       ∧ q = insert_query self ic
               (WhereObject (insert_whereCondition cc (h !!! e))).
Proof.
  unfold conflictReads. rewrite list_elem_of_omap. split.
  - intros ([e i'] & Hin & Hr). unfold conflictRead in Hr. simpl in Hr.
    destruct (hasKeys _) eqn:Hk; [|done]. injection Hr as -> <-.
    by exists e.
  - intros (e & Hin & Hk & ->). exists (e, i). split; [done|].
    unfold conflictRead. simpl. by rewrite Hk.
Qed.

Lemma conflictReads_positions h ic cc items :
  (conflictReads self h ic cc items).*1 `sublist_of` items.*2.
Proof.
  induction items as [|[e i] rest IH]; [done|].
  unfold conflictReads. cbn [omap list_omap]. unfold conflictRead at 1.
  cbn [fst snd]. rewrite fmap_cons. cbn [snd].
  destruct (hasKeys _).
  - rewrite fmap_cons. by apply sublist_skip.
  - by apply sublist_cons.
Qed.

Lemma NoDup_conflictReads h ic cc entities index :
  NoDup (conflictReads self h ic cc (conflictBased md h entities index)).*1.
Proof.
  eapply sublist_NoDup; [apply NoDup_conflictBased|].
  apply conflictReads_positions.
Qed.

(** The callbacks of the conflict-based entities never throw; each either
    has nothing to ask or issues one read and waits for it. *)
Lemma launch_conflictCallback h ic cc items index rr qs :
  ∃ tasks,
    launch (insert_conflictCallback self h ic cc) items index (rr, qs)
    = ((rr, qs ++ (conflictReads self h ic cc items).*2), tasks)
    ∧ firstThrown tasks = None
    ∧ pendingOf tasks
      = (fun read => (read.2, insert_recordConflict read.1))
          <$> conflictReads self h ic cc items.
Proof.
  revert index qs. induction items as [|[e i] rest IH]; intros index qs.
  - exists []. simpl. by rewrite app_nil_r.
  - cbn [launch]. unfold insert_conflictCallback at 1.
    pose proof (eq_refl (conflictRead self h ic cc (e, i))) as Hcr.
    unfold conflictRead at 2 in Hcr. cbn [fst snd] in Hcr.
    unfold conflictReads. cbn [omap list_omap]. rewrite Hcr.
    fold (conflictReads self h ic cc rest).
    destruct (hasKeys (insert_whereCondition cc (h !!! e))) eqn:Hk.
    + destruct (IH (S index)
        (qs ++ [insert_query self ic
                  (WhereObject (insert_whereCondition cc (h !!! e)))]))
        as (tasks & Hl & Ht & Hp).
      exists (TaskAwait
                (insert_query self ic
                   (WhereObject (insert_whereCondition cc (h !!! e))))
                (insert_recordConflict i) :: tasks).
      cbn [fst snd]. rewrite Hl. split; [|split].
      * rewrite fmap_cons, <- app_assoc. reflexivity.
      * exact Ht.
      * cbn [pendingOf]. rewrite Hp. reflexivity.
    + destruct (IH (S index) qs) as (tasks & Hl & Ht & Hp).
      exists (TaskDone :: tasks). rewrite Hl. split; [done|].
      split; [exact Ht|]. cbn [pendingOf]. exact Hp.
Qed.
End InsertRecover.

Section InsertRecorded.
Context (self : ReturningResultsEntityUpdator).
Local Abbreviation drv := (driver (queryRunner self)).
Local Abbreviation mgr := (manager (queryRunner self)).
Local Abbreviation em := (expressionMap self).
Local Abbreviation md := (metadata (expressionMap self)).

Lemma Permutation_fmap_inv {A B} (f : A → B) (l1 : list B) (l2 : list A) :
  l1 ≡ₚ f <$> l2 → ∃ l3, l1 = f <$> l3 ∧ l2 ≡ₚ l3.
Proof.
  intros Hperm. change (l1 ≡ₚ map f l2) in Hperm.
  apply Permutation_map_inv in Hperm as (l3 & -> & Hperm).
  by exists l3.
Qed.

Lemma recordRows_length rr reads :
  length (recordRows mgr rr reads) = length rr.
Proof.
  revert rr. induction reads as [|[i q] reads IH]; intros rr; [done|].
  unfold recordRows. cbn [foldl fst snd].
  fold (recordRows mgr
          (match rowOf mgr q with
           | Some row => <[i:=Some row]> rr
           | None => rr
           end) reads).
  rewrite IH. destruct (rowOf mgr q); [apply length_insert|done].
Qed.

Lemma recordRows_cons rr i q reads :
  recordRows mgr rr ((i, q) :: reads)
  = recordRows mgr
      (match rowOf mgr q with
       | Some row => <[i:=Some row]> rr
       | None => rr
       end) reads.
Proof. reflexivity. Qed.

Lemma recordRows_lookup_other rr reads k :
  k ∉ reads.*1 → recordRows mgr rr reads !! k = rr !! k.
Proof.
  revert rr. induction reads as [|[i q] reads IH]; intros rr Hk; [done|].
  rewrite fmap_cons in Hk. apply not_elem_of_cons in Hk as [Hne Hk].
  rewrite recordRows_cons, IH by done. simpl in Hne.
  destruct (rowOf mgr q); [|done]. by rewrite list_lookup_insert_ne.
Qed.

Lemma recordRows_lookup rr reads i q :
  NoDup reads.*1 → (i, q) ∈ reads → i < length rr →
  recordRows mgr rr reads !! i
  = match rowOf mgr q with
    | Some row => Some (Some row)
    | None => rr !! i
    end.
Proof.
  revert rr. induction reads as [|[i' q'] reads IH]; intros rr Hnd Hin Hlt.
  - by apply elem_of_nil in Hin.
  - rewrite fmap_cons in Hnd. apply NoDup_cons in Hnd as [Hnotin Hnd].
    rewrite recordRows_cons. apply elem_of_cons in Hin as [[= <- <-]|Hin].
    + rewrite recordRows_lookup_other by done.
      destruct (rowOf mgr q); [|done]. by rewrite list_lookup_insert_eq.
    + assert (i ≠ i') as Hne.
      { intros ->. apply Hnotin. apply list_elem_of_fmap. by exists (i', q). }
      rewrite IH; [|done|done|].
      * destruct (rowOf mgr q); [done|].
        destruct (rowOf mgr q'); [|done]. by rewrite list_lookup_insert_ne.
      * destruct (rowOf mgr q'); [by rewrite length_insert|done].
Qed.

Lemma recordRows_provenance rr reads k row :
  recordRows mgr rr reads !! k = Some (Some row) →
  rr !! k = Some (Some row)
  ∨ ∃ q, q ∈ reads.*2 ∧ rowOf mgr q = Some row.
Proof.
  revert rr. induction reads as [|[i q] reads IH]; intros rr Hk; [by left|].
  rewrite recordRows_cons in Hk. apply IH in Hk as [Hk|(q' & Hin & Hq')].
  - destruct (rowOf mgr q) as [row'|] eqn:Hq; [|by left].
    destruct (decide (k = i)) as [->|Hne].
    + apply list_lookup_insert_Some in Hk as [(_ & Heq & _)|(? & _)]; [|done].
      injection Heq as ->. right. exists q. split; [|done].
      rewrite fmap_cons. by left.
    + rewrite list_lookup_insert_ne in Hk by done. by left.
  - right. exists q'. split; [|done]. rewrite fmap_cons. by right.
Qed.

Lemma resume_recordConflict (cs : list (Completed RecoverState)) reads rr qs :
  cs.*1 = (fun read => (read.2, insert_recordConflict read.1)) <$> reads →
  Forall (fun c => getOne mgr c.1.1 = Resolved c.2) cs →
  resume (rr, qs) cs = (recordRows mgr rr reads, qs).
Proof.
  revert reads rr.
  induction cs as [|[[q k] row] cs IH]; intros reads rr Hcs Hall.
  - destruct reads; [done|]. by rewrite fmap_cons in Hcs.
  - destruct reads as [|[i q'] reads]; [done|].
    rewrite !fmap_cons in Hcs. cbn [fst snd] in Hcs.
    injection Hcs as -> -> Hcs.
    apply Forall_cons in Hall as [Hq Hall]. cbn [fst snd] in Hq.
    rewrite recordRows_cons. unfold rowOf at 1. rewrite Hq.
    unfold resume. cbn [foldl fst snd].
    fold (resume (insert_recordConflict i row (rr, qs)) cs).
    destruct row as [row|]; cbn [insert_recordConflict fst snd];
      by apply IH.
Qed.

(** Whatever the order in which the reads of the conflict-based entities
    complete, every one of them lands in the slot of its own entity. *)
Lemma conflicts_settled sched reads rr qs (st' : RecoverState) :
  NoDup reads.*1 →
  settle (getOne mgr)
    (length ((fun read : nat * Query =>
                (read.2, insert_recordConflict read.1)) <$> reads))
    sched
    ((fun read => (read.2, insert_recordConflict read.1)) <$> reads)
    (rr, qs)
  = Resolved st' →
  st'.2 = qs
  ∧ length st'.1 = length rr
  ∧ (∀ i q, (i, q) ∈ reads → i < length rr →
       ∃ row, getOne mgr q = Resolved row
              ∧ st'.1 !! i = match row with
                             | Some _ => Some row
                             | None => rr !! i
                             end)
  ∧ (∀ k, k ∉ reads.*1 → st'.1 !! k = rr !! k)
  ∧ (∀ k row, st'.1 !! k = Some (Some row) →
       rr !! k = Some (Some row)
       ∨ ∃ q, q ∈ reads.*2 ∧ getOne mgr q = Resolved (Some row)).
Proof.
  intros Hnd Hrun.
  apply settle_Resolved in Hrun as (cs & Hperm & Hall & ->); [|done].
  apply Permutation_fmap_inv in Hperm as (reads' & Hcs & Hperm).
  assert (Hresolved : ∀ q, q ∈ reads'.*2 →
            getOne mgr q = Resolved (rowOf mgr q)).
  { intros q Hq. apply list_elem_of_fmap in Hq as ([i q'] & -> & Hin).
    assert (Hc : (q', insert_recordConflict i) ∈ cs.*1).
    { rewrite Hcs. apply list_elem_of_fmap. by exists (i, q'). }
    apply list_elem_of_fmap in Hc as ([[q1 k1] row1] & Heq & Hc).
    cbn in Heq. injection Heq as -> _.
    rewrite Forall_forall in Hall. specialize (Hall _ Hc). cbn in Hall.
    cbn. unfold rowOf. by rewrite Hall. }
  rewrite (resume_recordConflict cs reads') by done. cbn [fst snd].
  assert (Hnd' : NoDup reads'.*1) by by rewrite <- Hperm.
  split; [done|]. split; [apply recordRows_length|]. split; [|split].
  - intros i q Hin Hlt. rewrite Hperm in Hin.
    exists (rowOf mgr q). split.
    + apply Hresolved. apply list_elem_of_fmap. by exists (i, q).
    + rewrite (recordRows_lookup _ _ i q) by done. by destruct (rowOf mgr q).
  - intros k Hk. apply recordRows_lookup_other. by rewrite <- Hperm.
  - intros k row Hk. apply recordRows_provenance in Hk as [Hk|(q & Hq & Hrow)].
    + by left.
    + right. exists q. split; [by rewrite Hperm|].
      rewrite (Hresolved q Hq). by rewrite Hrow.
Qed.
End InsertRecorded.

Section InsertBatch.
Context (self : ReturningResultsEntityUpdator).
Local Abbreviation drv := (driver (queryRunner self)).
Local Abbreviation mgr := (manager (queryRunner self)).
Local Abbreviation em := (expressionMap self).
Local Abbreviation md := (metadata (expressionMap self)).

Lemma insert_mapBack_length h rows entities index resultIndex rr :
  length (insert_mapBack md h rows entities index resultIndex rr) = length rr.
Proof.
  revert index resultIndex rr.
  induction entities as [|e rest IH]; intros index resultIndex rr; [done|].
  cbn [insert_mapBack]. destruct (getEntityIdMap md (h !!! e)); [|apply IH].
  destruct (forallb _ _); rewrite IH; [apply length_insert|done].
Qed.

Lemma insert_mapBack_before h rows entities index resultIndex rr k :
  k < index →
  insert_mapBack md h rows entities index resultIndex rr !! k = rr !! k.
Proof.
  revert index resultIndex rr.
  induction entities as [|e rest IH]; intros index resultIndex rr Hk; [done|].
  cbn [insert_mapBack].
  destruct (getEntityIdMap md (h !!! e)); [|apply IH; lia].
  destruct (forallb _ _); rewrite IH by lia; [|done].
  apply list_lookup_insert_ne. lia.
Qed.

(** The slot of an entity without an id map is never written by the
    mapping of the batched rows. *)
Lemma insert_mapBack_unidentified h rows entities index resultIndex rr j e :
  entities !! j = Some e →
  getEntityIdMap md (h !!! e) = None →
  insert_mapBack md h rows entities index resultIndex rr !! (index + j)
  = rr !! (index + j).
Proof.
  revert index resultIndex rr j.
  induction entities as [|e' rest IH]; intros index resultIndex rr j Hj He;
    [done|].
  cbn [insert_mapBack]. destruct j as [|j]; simpl in Hj.
  - injection Hj as ->. rewrite He, Nat.add_0_r.
    apply insert_mapBack_before. lia.
  - replace (index + S j) with (S index + j) by lia.
    destruct (getEntityIdMap md (h !!! e')); [|by apply IH].
    destruct (forallb _ _); rewrite IH by done; [|done].
    apply list_lookup_insert_ne. lia.
Qed.

Lemma insert_mapBack_provenance h rows entities index resultIndex rr k row :
  insert_mapBack md h rows entities index resultIndex rr !! k
  = Some (Some row) →
  rr !! k = Some (Some row) ∨ row ∈ rows.
Proof.
  revert index resultIndex rr.
  induction entities as [|e rest IH]; intros index resultIndex rr Hk;
    [by left|].
  cbn [insert_mapBack] in Hk.
  destruct (getEntityIdMap md (h !!! e)); [|by apply IH in Hk].
  destruct (forallb _ _); [|by apply IH in Hk].
  apply IH in Hk as [Hk|Hk]; [|by right].
  destruct (decide (k = index)) as [->|Hne].
  - apply list_lookup_insert_Some in Hk as [(_ & Heq & _)|(? & _)]; [|done].
    right. by apply list_elem_of_lookup_2 with resultIndex.
  - rewrite list_lookup_insert_ne in Hk by done. by left.
Qed.

Lemma insert_whereCondition_nil entity :
  insert_whereCondition [] entity = ∅.
Proof. reflexivity. Qed.

Lemma hasKeys_empty : hasKeys ∅ = false.
Proof. unfold hasKeys. by apply bool_decide_eq_false_2; intros []. Qed.

Lemma conflictReads_no_columns h ic items :
  conflictReads self h ic [] items = [].
Proof.
  induction items as [|item rest IH]; [done|].
  unfold conflictReads. cbn [omap list_omap]. unfold conflictRead at 1.
  rewrite insert_whereCondition_nil, hasKeys_empty. exact IH.
Qed.

Lemma positive_length_nonempty {A} (l : list A) :
  bool_decide (0 < length l) = false ↔ l = [].
Proof.
  rewrite bool_decide_eq_false. destruct l; simpl; split; try done; try lia.
Qed.

(** The state the conflict part of the re-selection leaves behind. *)
Lemma insert_recover_conflicts sched ic entities h qs (st1 : RecoverState) :
  (if bool_decide (0 < length (conflictBased md h entities 0)) then
     if bool_decide (0 < length (getConflictColumns self)) then
       promiseAll (getOne mgr) sched
         (insert_conflictCallback self h ic (getConflictColumns self))
         (conflictBased md h entities 0)
         (replicate (length entities) None, qs)
     else Resolved (replicate (length entities) None, qs)
   else Resolved (replicate (length entities) None, qs))
  = Resolved st1 →
  st1.2 = qs ++ insert_conflictQueries self h ic entities
  ∧ length st1.1 = length entities
  ∧ (∀ i e, entities !! i = Some e → getEntityIdMap md (h !!! e) = None →
       let whereCondition :=
         insert_whereCondition (getConflictColumns self) (h !!! e) in
       if hasKeys whereCondition then
         ∃ row, getOne mgr (insert_query self ic (WhereObject whereCondition))
                = Resolved row
                ∧ st1.1 !! i = Some row
       else st1.1 !! i = Some None)
  ∧ (∀ k row, st1.1 !! k = Some (Some row) →
       ∃ q, q ∈ insert_conflictQueries self h ic entities
            ∧ getOne mgr q = Resolved (Some row)).
Proof.
  unfold insert_conflictQueries.
  set (cc := getConflictColumns self).
  set (items := conflictBased md h entities 0).
  set (rr0 := replicate (length entities) (None : option Obj)).
  assert (Hrr0 : ∀ i, i < length entities → rr0 !! i = Some None).
  { intros i Hi. by apply lookup_replicate_2. }
  assert (Hnone : ∀ k row, rr0 !! k ≠ Some (Some row)).
  { intros k row Hk. apply lookup_replicate in Hk as [? _]. done. }
  assert (Hidle : conflictReads self h ic cc items = [] →
    Resolved (rr0, qs) = Resolved st1 →
    st1.2 = qs ++ (conflictReads self h ic cc items).*2
    ∧ length st1.1 = length entities
    ∧ (∀ i e, entities !! i = Some e → getEntityIdMap md (h !!! e) = None →
         if hasKeys (insert_whereCondition cc (h !!! e)) then
           ∃ row, getOne mgr
                    (insert_query self ic
                       (WhereObject (insert_whereCondition cc (h !!! e))))
                  = Resolved row
                  ∧ st1.1 !! i = Some row
         else st1.1 !! i = Some None)
    ∧ (∀ k row, st1.1 !! k = Some (Some row) →
         ∃ q, q ∈ (conflictReads self h ic cc items).*2
              ∧ getOne mgr q = Resolved (Some row))).
  { intros Hnil [= <-]. rewrite Hnil. cbn [fst snd fmap list_fmap].
    rewrite app_nil_r. split; [done|].
    split; [unfold rr0; by rewrite length_replicate|]. split.
    - intros i e Hi He.
      destruct (hasKeys (insert_whereCondition cc (h !!! e))) eqn:Hk.
      + exfalso. eapply elem_of_nil. rewrite <- Hnil.
        apply (elem_of_conflictReads self h ic cc items i). exists e.
        split; [|by split]. apply elem_of_conflictBased.
        rewrite Nat.sub_0_r. split; [lia|done].
      + apply Hrr0. by apply lookup_lt_Some in Hi.
    - intros k row Hk. by destruct (Hnone k row). }
  destruct (bool_decide (0 < length items)) eqn:Hitems.
  - destruct (bool_decide (0 < length cc)) eqn:Hcc.
    + intros Hrun.
      apply promiseAll_Resolved in Hrun as (st & tasks & Hl & _ & Hrun).
      destruct (launch_conflictCallback self h ic cc items 0 rr0 qs)
        as (tasks' & Hl' & _ & Hp).
      rewrite Hl' in Hl. injection Hl as <- <-. rewrite Hp in Hrun.
      apply conflicts_settled in Hrun as (Hqs & Hlen & Hat & Hother & Hprov);
        [|apply NoDup_conflictReads].
      split; [done|].
      split; [unfold rr0 in Hlen; by rewrite Hlen, length_replicate|]. split.
      * intros i e Hi He.
        assert (Hitem : (e, i) ∈ items).
        { apply elem_of_conflictBased. rewrite Nat.sub_0_r.
          split; [lia|done]. }
        destruct (hasKeys (insert_whereCondition cc (h !!! e))) eqn:Hk.
        -- destruct (Hat i (insert_query self ic
                       (WhereObject (insert_whereCondition cc (h !!! e)))))
             as (row & Hq & Hrow).
           ++ apply elem_of_conflictReads. exists e. by split.
           ++ unfold rr0. rewrite length_replicate.
              by apply lookup_lt_Some in Hi.
           ++ exists row. split; [done|]. rewrite Hrow.
              destruct row; [done|]. apply Hrr0. by apply lookup_lt_Some in Hi.
        -- rewrite Hother; [apply Hrr0; by apply lookup_lt_Some in Hi|].
           intros Hin. apply list_elem_of_fmap in Hin as ([i' q] & Heq & Hin).
           cbn in Heq. subst i'.
           apply elem_of_conflictReads in Hin as (e' & Hin & Hk' & _).
           apply elem_of_conflictBased in Hin as (_ & Hi' & _).
           rewrite Nat.sub_0_r, Hi in Hi'. injection Hi' as <-. congruence.
      * intros k row Hk. apply Hprov in Hk as [Hk|Hk]; [|done].
        by destruct (Hnone k row).
    + apply Hidle. apply positive_length_nonempty in Hcc. rewrite Hcc.
      apply conflictReads_no_columns.
  - apply Hidle. apply positive_length_nonempty in Hitems. by rewrite Hitems.
Qed.

Lemma insert_recover_spec sched ic entities h qs rr qs' :
  insert_recover self sched ic entities h qs = Resolved (rr, qs') →
  qs' = qs ++ insert_conflictQueries self h ic entities
           ++ insert_batchQuery self h ic entities
  ∧ length rr = length entities
  ∧ (∀ i e, entities !! i = Some e → getEntityIdMap md (h !!! e) = None →
       let whereCondition :=
         insert_whereCondition (getConflictColumns self) (h !!! e) in
       if hasKeys whereCondition then
         ∃ row, getOne mgr (insert_query self ic (WhereObject whereCondition))
                = Resolved row
                ∧ rr !! i = Some row
       else rr !! i = Some None)
  ∧ (∀ k row, rr !! k = Some (Some row) →
       (∃ q, q ∈ insert_conflictQueries self h ic entities
             ∧ getOne mgr q = Resolved (Some row))
       ∨ (∃ q rows, insert_batchQuery self h ic entities = [q]
                    ∧ getMany mgr q = Resolved rows ∧ row ∈ rows)).
Proof.
  unfold insert_recover, insert_batchQuery. cbv zeta.
  rewrite insert_partition_spec. cbn [app].
  match goal with
  | |- context [mbind _ ?m] => destruct m as [st1|err] eqn:Hconflicts
  end; [|done].
  apply insert_recover_conflicts in Hconflicts as (Hqs & Hlen & Hat & Hprov).
  cbn [mbind Outcome_bind].
  destruct (bool_decide (0 < length ic)
            && bool_decide (0 < length (knownIds md h entities))) eqn:Hbatch.
  - destruct (getMany mgr _) as [rows|err] eqn:Hmany; [|done].
    cbn [mbind Outcome_bind]. intros [= <- <-].
    rewrite Hqs, <- app_assoc. split; [done|].
    split; [by rewrite insert_mapBack_length|]. split.
    + intros i e Hi He.
      pose proof (insert_mapBack_unidentified h rows entities 0 0 st1.1 i e
                    Hi He) as Hsame.
      rewrite Nat.add_0_l in Hsame. cbv zeta. rewrite Hsame.
      apply (Hat i e Hi He).
    + intros k row Hk. apply insert_mapBack_provenance in Hk as [Hk|Hk].
      * left. by apply (Hprov k).
      * right. eauto.
  - intros [= ->]. cbn [fst snd] in *. rewrite Hqs, app_nil_r.
    split; [done|]. split; [done|]. split; [exact Hat|].
    intros k row Hk. left. by apply (Hprov k).
Qed.

(** The re-selection raises nothing of its own: it fails only with the
    rejection of one of the reads it issued. *)
Lemma insert_recover_Rejected sched ic entities h qs err :
  insert_recover self sched ic entities h qs = Rejected err →
  (∃ q, q ∈ insert_conflictQueries self h ic entities
        ∧ getOne mgr q = Rejected err)
  ∨ (∃ q, insert_batchQuery self h ic entities = [q]
          ∧ getMany mgr q = Rejected err).
Proof.
  unfold insert_recover, insert_batchQuery, insert_conflictQueries. cbv zeta.
  rewrite insert_partition_spec. cbn [app].
  match goal with
  | |- context [mbind _ ?m] => destruct m as [st1|err'] eqn:Hconflicts
  end.
  - cbn [mbind Outcome_bind].
    destruct (_ && _); [|done].
    destruct (getMany mgr _) as [rows|err'] eqn:Hmany; [done|].
    cbn [mbind Outcome_bind]. intros [= ->]. right. eauto.
  - cbn [mbind Outcome_bind]. intros [= ->]. left.
    destruct (bool_decide (0 < length _)); [|done].
    destruct (bool_decide (0 < length _)); [|done].
    unfold promiseAll in Hconflicts.
    destruct (launch_conflictCallback self h ic (getConflictColumns self)
                (conflictBased md h entities 0) 0
                (replicate (length entities) None) qs)
      as (tasks & Hl & Ht & Hp).
    rewrite Hl, Ht, Hp in Hconflicts.
    apply settle_Rejected in Hconflicts as ([q k] & Hin & Hrej).
    apply list_elem_of_fmap in Hin as ([i q'] & [= -> ->] & Hin).
    exists q'. split; [|done]. apply list_elem_of_fmap. by exists (i, q').
Qed.
End InsertBatch.

(** ** Merging into the entity heap *)

Section MergeFacts.
Context (self : ReturningResultsEntityUpdator).
Local Abbreviation mgr := (manager (queryRunner self)).
Local Abbreviation md := (metadata (expressionMap self)).

Lemma mergeSources_cons p pairs h :
  mergeSources self (p :: pairs) h
  = mergeSources self pairs (mergeEntity self p.1 p.2 h).
Proof. reflexivity. Qed.

Lemma mergeEach_mergeSources sourceAt entities index h :
  mergeEach self sourceAt entities index h
  = mergeSources self
      (zip entities (sourceAt <$> seq index (length entities))) h.
Proof.
  unfold mergeEach, mergeSources. revert index h.
  induction entities as [|e rest IH]; intros index h; [done|].
  cbn [length seq zip zip_with foldl fmap list_fmap fst snd]. apply IH.
Qed.

Lemma elem_of_zip_lookup {A B} (l : list A) (k : list B) x y :
  (x, y) ∈ zip l k → ∃ j, l !! j = Some x ∧ k !! j = Some y.
Proof.
  intros Hin. apply list_elem_of_lookup in Hin as [j Hj].
  exists j. apply lookup_zip_with_Some in Hj as (x' & y' & [= <- <-] & ? & ?).
  done.
Qed.

(** An entity that receives no source keeps its object. *)
Lemma mergeSources_unsourced pairs h l :
  (∀ p, p ∈ pairs → p.1 = l → p.2 = None) →
  mergeSources self pairs h !! l = h !! l.
Proof.
  revert h. induction pairs as [|[e src] pairs IH]; intros h Hp; [done|].
  rewrite mergeSources_cons, IH.
  - cbn [fst snd]. destruct src as [src|]; [|done]. cbn [mergeEntity].
    apply lookup_insert_ne. intros ->.
    by specialize (Hp (l, Some src) ltac:(by left) eq_refl).
  - intros p Hin. apply Hp. by right.
Qed.

(** Objects are never removed from the heap. *)
Lemma mergeSources_persist pairs h l :
  is_Some (h !! l) → is_Some (mergeSources self pairs h !! l).
Proof.
  revert h. induction pairs as [|[e src] pairs IH]; intros h Hl; [done|].
  rewrite mergeSources_cons. apply IH. cbn [fst snd].
  destruct src as [src|]; [|done]. cbn [mergeEntity].
  destruct (decide (e = l)) as [->|Hne].
  - rewrite lookup_insert_eq. by eexists.
  - by rewrite lookup_insert_ne.
Qed.

(** A field that no source merged into an entity addresses is kept. *)
Lemma mergeSources_frame pairs h l field :
  mergePreservesUnaddressed self →
  (∀ p src, p ∈ pairs → p.1 = l → p.2 = Some src → src !! field = None) →
  (mergeSources self pairs h !!! l) !! field = (h !!! l) !! field.
Proof.
  intros Hmerge. revert h.
  induction pairs as [|[e src] pairs IH]; intros h Hp; [done|].
  rewrite mergeSources_cons, IH.
  - cbn [fst snd]. destruct src as [src|]; [|done]. cbn [mergeEntity mergeInto].
    destruct (decide (e = l)) as [->|Hne].
    + rewrite lookup_total_insert_eq. apply Hmerge.
      by apply (Hp (l, Some src)); [left| |].
    + by rewrite lookup_total_insert_ne.
  - intros p src' Hin. apply Hp. by right.
Qed.
End MergeFacts.

(** ** [insert] as a whole *)

Section InsertFacts.
Context (self : ReturningResultsEntityUpdator).
Local Abbreviation drv := (driver (queryRunner self)).
Local Abbreviation mgr := (manager (queryRunner self)).
Local Abbreviation em := (expressionMap self).
Local Abbreviation md := (metadata (expressionMap self)).

Lemma insert_Resolved sched r entities w r' w' :
  insert self sched r entities w = Resolved (r', w') →
  ∃ raw1 h1 gms gms2,
    insert_generatedMaps self (length entities) entities 0
      (InsertResult.raw r) (heap w)
    = Resolved (raw1, h1, gms)
    ∧ (if isReturningSqlSupported drv ReturningInsert
       then gms2 = gms ∧ heap w' = h1 ∧ issued w' = issued w
       else ∃ rr,
           insert_recover self sched (insert_insertionColumns self)
             entities h1 (issued w)
           = Resolved (rr, issued w')
           ∧ insert_mergeBack self rr entities 0 gms h1 = (gms2, heap w'))
    ∧ r' = insert_pushResults md (heap w') gms2 entities 0
             {| InsertResult.raw := raw1;
                InsertResult.identifiers := InsertResult.identifiers r;
                InsertResult.generatedMaps := InsertResult.generatedMaps r |}.
Proof.
  unfold insert. cbv zeta.
  destruct (insert_generatedMaps self (length entities) entities 0
              (InsertResult.raw r) (heap w))
    as [[[raw1 h1] gms]|err] eqn:Hmaps; [|done].
  cbn [mbind Outcome_bind].
  destruct (isReturningSqlSupported drv ReturningInsert) eqn:Hsup;
    cbn [negb].
  - cbn [mbind Outcome_bind heap issued]. intros [= <- <-].
    exists raw1, h1, gms, gms. by repeat split.
  - destruct (insert_recover self sched (insert_insertionColumns self)
                entities h1 (issued w))
      as [[rr issued1]|err] eqn:Hrecover; [|done].
    cbn [mbind Outcome_bind].
    destruct (insert_mergeBack self rr entities 0 gms h1)
      as [gms1 h2] eqn:Hback.
    cbn [mbind Outcome_bind heap issued]. intros [= <- <-].
    exists raw1, h1, gms, gms1. split; [done|]. split; [|done].
    exists rr. by split.
Qed.
End InsertFacts.

Section InsertLedger.
Context (self : ReturningResultsEntityUpdator).
Local Abbreviation drv := (driver (queryRunner self)).
Local Abbreviation mgr := (manager (queryRunner self)).
Local Abbreviation em := (expressionMap self).
Local Abbreviation md := (metadata (expressionMap self)).

(** What [insert] leaves in the result: the identifiers of the entities as
    they are at the end, and the generated maps of the local array. *)
Lemma insert_pushed sched r entities w r' w' :
  insert self sched r entities w = Resolved (r', w') →
  ∃ raw1 h1 gms gms2,
    insert_generatedMaps self (length entities) entities 0
      (InsertResult.raw r) (heap w)
    = Resolved (raw1, h1, gms)
    ∧ length gms = length entities
    ∧ length gms2 = length entities
    ∧ (if isReturningSqlSupported drv ReturningInsert
       then gms2 = gms ∧ heap w' = h1 ∧ issued w' = issued w
       else ∃ rr,
           insert_recover self sched (insert_insertionColumns self)
             entities h1 (issued w)
           = Resolved (rr, issued w')
           ∧ insert_mergeBack self rr entities 0 gms h1 = (gms2, heap w'))
    ∧ InsertResult.raw r' = raw1
    ∧ InsertResult.identifiers r'
      = InsertResult.identifiers r
          ++ ((fun e => getEntityIdMap md (heap w' !!! e)) <$> entities)
    ∧ InsertResult.generatedMaps r' = InsertResult.generatedMaps r ++ gms2.
Proof.
  intros Hrun.
  apply insert_Resolved in Hrun as (raw1 & h1 & gms & gms2 & Hmaps & Hmode & ->).
  pose proof (insert_generatedMaps_spec self _ _ _ _ _ _ _ _ Hmaps)
    as (Hlen & _ & _).
  assert (Hlen2 : length gms2 = length entities).
  { destruct (isReturningSqlSupported drv ReturningInsert).
    - destruct Hmode as (-> & _ & _). done.
    - destruct Hmode as (rr & _ & Hback).
      apply insert_mergeBack_spec in Hback as (Hl & _ & _). congruence. }
  exists raw1, h1, gms, gms2.
  destruct (insert_pushResults_spec self (heap w') gms2 entities 0
    {| InsertResult.raw := raw1;
       InsertResult.identifiers := InsertResult.identifiers r;
       InsertResult.generatedMaps := InsertResult.generatedMaps r |})
    as (Hraw & Hids & Hgms).
  cbn [InsertResult.raw InsertResult.identifiers InsertResult.generatedMaps]
    in Hraw, Hids, Hgms.
  repeat (split; [done|]).
  rewrite Hgms, omap_lookup_seq by lia. rewrite drop_0, <- Hlen2.
  by rewrite take_ge.
Qed.
End InsertLedger.

(** X20: when [insert] completes, it has appended exactly one identifier
    and one generated map per entity, in entity order.  The identifier
    appended for position [i] is the id map of the entity object at position
    [i] as it is at the end of the call.  The generated map appended for
    position [i] is the map extracted for position [i] (with its locally
    generated values), with the row in slot [i] of the re-selection, if
    any, merged on top; with RETURNING every slot is empty.  On a fresh
    insert result, whose two ledgers start empty, both therefore have
    exactly as many entries as there are entities.  Which row the
    re-selection puts in slot [i] is a separate matter. *)
Theorem insert_appends_entry_per_entity (self : ReturningResultsEntityUpdator)
    (sched : list nat) (r : InsertResult.t) (entities : list loc) (w : World)
    (r' : InsertResult.t) (w' : World) :
  let md := metadata (expressionMap self) in
  let N := length entities in
  insert self sched r entities w = Resolved (r', w') →
  length (InsertResult.identifiers r')
  = length (InsertResult.identifiers r) + N
  ∧ length (InsertResult.generatedMaps r')
    = length (InsertResult.generatedMaps r) + N
  ∧ (∃ raw1 h1 gms slots,
       insert_generatedMaps self N entities 0 (InsertResult.raw r) (heap w)
       = Resolved (raw1, h1, gms)
       ∧ length slots = N
       ∧ (if isReturningSqlSupported (driver (queryRunner self)) ReturningInsert
          then slots = replicate N None
          else insert_recover self sched (insert_insertionColumns self)
                 entities h1 (issued w)
               = Resolved (slots, issued w'))
       ∧ ∀ i e, entities !! i = Some e →
           InsertResult.identifiers r'
             !! (length (InsertResult.identifiers r) + i)
           = Some (getEntityIdMap md (heap w' !!! e))
           ∧ ∃ raw_i,
               insert_rawAt self (InsertResult.raw r) i = Resolved raw_i
               ∧ InsertResult.generatedMaps r'
                   !! (length (InsertResult.generatedMaps r) + i)
                 = Some (mergeInto self (insert_generatedMap self N i raw_i)
                           (mjoin (slots !! i))))
  ∧ (InsertResult.identifiers r = [] → InsertResult.generatedMaps r = [] →
     length (InsertResult.identifiers r') = N
     ∧ length (InsertResult.generatedMaps r') = N
     ∧ ∀ i e, entities !! i = Some e →
         InsertResult.identifiers r' !! i
         = Some (getEntityIdMap md (heap w' !!! e))
         ∧ is_Some (InsertResult.generatedMaps r' !! i)).
Proof.
  intros md N Hrun.
  apply insert_pushed in Hrun
    as (raw1 & h1 & gms & gms2 & Hmaps & Hlen & Hlen2 & Hmode & _ & Hids & Hgms).
  pose proof (insert_generatedMaps_spec self _ _ _ _ _ _ _ _ Hmaps)
    as (_ & Hat & _).
  assert (Hid : ∀ i e, entities !! i = Some e →
            InsertResult.identifiers r' !! (length (InsertResult.identifiers r) + i)
            = Some (getEntityIdMap md (heap w' !!! e))).
  { intros i e Hi. rewrite Hids, lookup_app_r by lia.
    replace (length (InsertResult.identifiers r) + i
             - length (InsertResult.identifiers r)) with i by lia.
    by rewrite list_lookup_fmap, Hi. }
  assert (Hslots : ∃ slots,
            length slots = N
            ∧ (if isReturningSqlSupported (driver (queryRunner self))
                    ReturningInsert
               then slots = replicate N None
               else insert_recover self sched (insert_insertionColumns self)
                      entities h1 (issued w)
                    = Resolved (slots, issued w'))
            ∧ ∀ i, i < N →
                gms2 !! i
                = (fun gm => mergeInto self gm (mjoin (slots !! i)))
                    <$> gms !! i).
  { destruct (isReturningSqlSupported (driver (queryRunner self))
                ReturningInsert).
    - destruct Hmode as (-> & _ & _). exists (replicate N None).
      split; [by rewrite length_replicate|]. split; [done|].
      intros i Hi. rewrite lookup_replicate_2 by done. cbn [mjoin option_join].
      by destruct (gms !! i).
    - destruct Hmode as (rr & Hrecover & Hback). exists rr.
      pose proof (insert_recover_spec self _ _ _ _ _ _ _ Hrecover)
        as (_ & Hrr & _).
      split; [done|]. split; [done|].
      apply insert_mergeBack_spec in Hback as (_ & Hk & _).
      intros i Hi. rewrite Hk, decide_True by (fold N; lia). done. }
  destruct Hslots as (slots & Hslen & Hhow & Hslot).
  assert (Hgm : ∀ i e, entities !! i = Some e →
            ∃ raw_i,
              insert_rawAt self (InsertResult.raw r) i = Resolved raw_i
              ∧ InsertResult.generatedMaps r'
                  !! (length (InsertResult.generatedMaps r) + i)
                = Some (mergeInto self (insert_generatedMap self N i raw_i)
                          (mjoin (slots !! i)))).
  { intros i e Hi. apply lookup_lt_Some in Hi as Hlt.
    destruct (Hat i Hlt) as (raw_i & Hraw & Hgm). rewrite Nat.add_0_l in Hgm.
    rewrite Hgms, lookup_app_r by lia.
    replace (length (InsertResult.generatedMaps r) + i
             - length (InsertResult.generatedMaps r)) with i by lia.
    exists raw_i. split; [done|].
    rewrite (Hslot i Hlt), Hgm. done. }
  split; [by rewrite Hids, length_app, length_fmap|].
  split; [rewrite Hgms, length_app; fold N; lia|].
  split.
  { exists raw1, h1, gms, slots. split; [done|]. split; [done|].
    split; [done|].
    intros i e Hi; split; [by apply Hid|by apply (Hgm i e)]. }
  intros Hnil1 Hnil2.
  split; [by rewrite Hids, Hnil1, app_nil_l, length_fmap|].
  split; [rewrite Hgms, Hnil2; simpl; fold N; lia|].
  intros i e Hi. split.
  - specialize (Hid i e Hi). by rewrite Hnil1 in Hid.
  - destruct (Hgm i e Hi) as (raw_i & _ & Hl).
    rewrite Hnil2 in Hl. by eexists.
Qed.

(** ** The equality filter of a conflict-based entity *)

Section WhereCondition.
Context (entity : Obj).

Local Abbreviation step :=
  (fun (whereCondition : Obj) (column : ColumnMetadata) =>
     let value := getEntityValue column entity in
     if isUsable value then <[propertyPath column := value]> whereCondition
     else whereCondition).

Lemma whereCondition_fold_sound cc (acc : Obj) path v :
  fold_left step cc acc !! path = Some v →
  acc !! path = Some v
  ∨ (isUsable v = true
     ∧ ∃ c, c ∈ cc ∧ propertyPath c = path ∧ getEntityValue c entity = v).
Proof.
  revert acc. induction cc as [|c cc IH]; intros acc Hl; [by left|].
  cbn [fold_left] in Hl. apply IH in Hl as [Hl|(Hu & c' & Hin & Hp & Hv)].
  - cbv zeta in Hl.
    destruct (isUsable (getEntityValue c entity)) eqn:Hu; [|by left].
    destruct (decide (propertyPath c = path)) as [Heq|Hne].
    + rewrite Heq, lookup_insert_eq in Hl. injection Hl as <-.
      right. split; [done|]. exists c. split; [by left|done].
    + rewrite lookup_insert_ne in Hl by done. by left.
  - right. split; [done|]. exists c'. split; [by right|done].
Qed.

Lemma whereCondition_fold_keeps cc (acc : Obj) path :
  is_Some (acc !! path) → is_Some (fold_left step cc acc !! path).
Proof.
  revert acc. induction cc as [|c cc IH]; intros acc Hl; [done|].
  cbn [fold_left]. apply IH. cbv zeta.
  destruct (isUsable (getEntityValue c entity)); [|done].
  destruct (decide (propertyPath c = path)) as [<-|Hne].
  - rewrite lookup_insert_eq. by eexists.
  - by rewrite lookup_insert_ne.
Qed.

Lemma whereCondition_fold_complete cc (acc : Obj) c :
  c ∈ cc → isUsable (getEntityValue c entity) = true →
  is_Some (fold_left step cc acc !! propertyPath c).
Proof.
  revert acc. induction cc as [|c' cc IH]; intros acc Hin Hu.
  - by apply elem_of_nil in Hin.
  - cbn [fold_left]. apply elem_of_cons in Hin as [<-|Hin]; [|by apply IH].
    apply whereCondition_fold_keeps. cbv zeta. rewrite Hu.
    rewrite lookup_insert_eq. by eexists.
Qed.

Lemma insert_whereCondition_sound cc path v :
  insert_whereCondition cc entity !! path = Some v →
  isUsable v = true
  ∧ ∃ c, c ∈ cc ∧ propertyPath c = path ∧ getEntityValue c entity = v.
Proof.
  intros Hl. apply whereCondition_fold_sound in Hl as [Hl|Hl]; [|done].
  by rewrite lookup_empty in Hl.
Qed.

Lemma insert_whereCondition_complete cc c :
  c ∈ cc → isUsable (getEntityValue c entity) = true →
  ∃ v, insert_whereCondition cc entity !! propertyPath c = Some v
       ∧ isUsable v = true.
Proof.
  intros Hin Hu.
  destruct (whereCondition_fold_complete cc ∅ c Hin Hu) as [v Hv].
  exists v. split; [done|].
  by apply insert_whereCondition_sound in Hv as [? _].
Qed.

(** The filter has a key exactly when some conflict column has a value
    that is neither [undefined] nor [null]. *)
Lemma hasKeys_whereCondition cc :
  hasKeys (insert_whereCondition cc entity) = true ↔
  ∃ c, c ∈ cc ∧ isUsable (getEntityValue c entity) = true.
Proof.
  unfold hasKeys. rewrite bool_decide_eq_true. split.
  - intros Hne. apply map_choose in Hne as (path & v & Hl).
    apply insert_whereCondition_sound in Hl as (Hu & c & Hin & _ & <-).
    by exists c.
  - intros (c & Hin & Hu) Hempty.
    destruct (insert_whereCondition_complete cc c Hin Hu) as (v & Hv & _).
    by rewrite Hempty, lookup_empty in Hv.
Qed.
End WhereCondition.

Lemma whereCondition_fold_untouched (entity : Obj) cc (acc : Obj) path :
  (∀ c, c ∈ cc → propertyPath c ≠ path) →
  fold_left
    (fun whereCondition column =>
       let value := getEntityValue column entity in
       if isUsable value then <[propertyPath column := value]> whereCondition
       else whereCondition)
    cc acc !! path
  = acc !! path.
Proof.
  revert acc. induction cc as [|c cc IH]; intros acc Hcc; [done|].
  cbn [fold_left]. rewrite IH by (intros c' Hin; apply Hcc; by right).
  cbv zeta. destruct (isUsable (getEntityValue c entity)); [|done].
  apply lookup_insert_ne. apply Hcc. by left.
Qed.

Lemma whereCondition_fold_exact (entity : Obj) cc (acc : Obj) c :
  (∀ c', c' ∈ cc → acc !! propertyPath c' = None) →
  NoDup (propertyPath <$> cc) →
  c ∈ cc →
  fold_left
    (fun whereCondition column =>
       let value := getEntityValue column entity in
       if isUsable value then <[propertyPath column := value]> whereCondition
       else whereCondition)
    cc acc !! propertyPath c
  = if isUsable (getEntityValue c entity)
    then Some (getEntityValue c entity)
    else None.
Proof.
  revert acc. induction cc as [|c0 cc IH]; intros acc Hacc Hnd Hin;
    [by apply elem_of_nil in Hin|].
  rewrite fmap_cons in Hnd. apply NoDup_cons in Hnd as [Hfresh Hnd].
  assert (Hother : ∀ c', c' ∈ cc → propertyPath c' ≠ propertyPath c0).
  { intros c' Hc' Heq. apply Hfresh. rewrite <- Heq.
    apply list_elem_of_fmap. by exists c'. }
  cbn [fold_left]. apply elem_of_cons in Hin as [->|Hin].
  - rewrite whereCondition_fold_untouched by done.
    cbv zeta. destruct (isUsable (getEntityValue c0 entity)).
    + by rewrite lookup_insert_eq.
    + apply Hacc. by left.
  - apply IH; [|done|done].
    intros c' Hc'. cbv zeta.
    destruct (isUsable (getEntityValue c0 entity)).
    + rewrite lookup_insert_ne by (apply not_eq_sym; by apply Hother).
      apply Hacc. by right.
    + apply Hacc. by right.
Qed.

Lemma insert_whereCondition_keys cc (entity : Obj) path :
  is_Some (insert_whereCondition cc entity !! path) ↔
  ∃ c, c ∈ cc ∧ propertyPath c = path
       ∧ isUsable (getEntityValue c entity) = true.
Proof.
  split.
  - intros [v Hv].
    apply insert_whereCondition_sound in Hv as (Hu & c & Hin & Hp & Hval).
    exists c. by rewrite Hval.
  - intros (c & Hin & <- & Hu).
    destruct (insert_whereCondition_complete entity cc c Hin Hu) as (v & Hv & _).
    by exists v.
Qed.

(** ** Failures of [insert] *)

Section InsertFailures.
Context (self : ReturningResultsEntityUpdator).
Local Abbreviation drv := (driver (queryRunner self)).
Local Abbreviation mgr := (manager (queryRunner self)).
Local Abbreviation em := (expressionMap self).
Local Abbreviation md := (metadata (expressionMap self)).

Lemma index0_Rejected v err : index0 v = Rejected err → err = TypeError.
Proof.
  destruct v; simpl; congruence.
Qed.

Lemma reduceOracleRaw_Rejected cols items index newRaw err :
  reduceOracleRaw cols items index newRaw = Rejected err → err = TypeError.
Proof.
  revert index newRaw.
  induction items as [|item items IH]; intros index newRaw; [done|].
  cbn [reduceOracleRaw]. destruct (cols !! index); [|congruence].
  destruct (index0 item) as [v|err'] eqn:Hv.
  - cbn [mbind Outcome_bind]. apply IH.
  - cbn [mbind Outcome_bind]. intros [= <-]. by apply index0_Rejected in Hv.
Qed.

Lemma insert_normalizeRaw_Rejected raw err :
  insert_normalizeRaw self raw = Rejected err → err = TypeError.
Proof.
  unfold insert_normalizeRaw. cbv zeta.
  destruct raw as [| | | | |items|]; try done.
  destruct (bool_decide (0 < _)); [|done].
  destruct (bool_decide (_ = "oracle")).
  - destruct (reduceOracleRaw _ items 0 ∅) eqn:Hr; [done|].
    cbn. intros [= <-]. by apply reduceOracleRaw_Rejected in Hr.
  - by destruct (bool_decide (_ = "spanner")).
Qed.

Lemma insert_generatedMaps_Rejected total entities index raw h err :
  insert_generatedMaps self total entities index raw h = Rejected err →
  err = TypeError.
Proof.
  revert index raw h.
  induction entities as [|e rest IH]; intros index raw h; [done|].
  cbn [insert_generatedMaps].
  destruct (insert_normalizeRaw self raw) as [raw1|err'] eqn:Hn.
  - cbn [mbind Outcome_bind].
    destruct (insert_generatedMaps self total rest (S index) raw1 _)
      as [[[raw2 h2] gms]|err'] eqn:Hrest; [done|].
    cbn [mbind Outcome_bind]. intros [= <-]. by apply IH in Hrest.
  - cbn [mbind Outcome_bind]. intros [= <-].
    by apply insert_normalizeRaw_Rejected in Hn.
Qed.

(** [insert] throws nothing of its own beyond what the raw result
    normalisation throws: any other failure is a rejected read. *)
Lemma insert_Rejected sched r entities w err :
  insert self sched r entities w = Rejected err →
  insert_generatedMaps self (length entities) entities 0
    (InsertResult.raw r) (heap w)
  = Rejected err
  ∨ ∃ raw1 h1 gms,
      insert_generatedMaps self (length entities) entities 0
        (InsertResult.raw r) (heap w)
      = Resolved (raw1, h1, gms)
      ∧ isReturningSqlSupported drv ReturningInsert = false
      ∧ insert_recover self sched (insert_insertionColumns self) entities h1
          (issued w)
        = Rejected err.
Proof.
  unfold insert. cbv zeta.
  destruct (insert_generatedMaps self (length entities) entities 0
              (InsertResult.raw r) (heap w))
    as [[[raw1 h1] gms]|err'] eqn:Hmaps.
  - cbn [mbind Outcome_bind].
    destruct (isReturningSqlSupported drv ReturningInsert) eqn:Hsup;
      cbn [negb]; [done|].
    destruct (insert_recover self sched (insert_insertionColumns self)
                entities h1 (issued w))
      as [[rr issued1]|err'] eqn:Hrecover.
    + cbn [mbind Outcome_bind].
      by destruct (insert_mergeBack self rr entities 0 gms h1).
    + cbn [mbind Outcome_bind]. intros [= <-]. right.
      by exists raw1, h1, gms.
  - cbn [mbind Outcome_bind]. intros [= <-]. by left.
Qed.
End InsertFailures.

(** ** Entities without an id map *)

Section InsertConflictBased.
Context (self : ReturningResultsEntityUpdator).
Local Abbreviation drv := (driver (queryRunner self)).
Local Abbreviation mgr := (manager (queryRunner self)).
Local Abbreviation em := (expressionMap self).
Local Abbreviation md := (metadata (expressionMap self)).
Local Abbreviation ic := (insert_insertionColumns self).
Local Abbreviation cc := (getConflictColumns self).

Lemma conflictRead_of_position h entities i e q' :
  entities !! i = Some e →
  (i, q') ∈ conflictReads self h ic cc (conflictBased md h entities 0) ↔
  getEntityIdMap md (h !!! e) = None
  ∧ hasKeys (insert_whereCondition cc (h !!! e)) = true
  ∧ q' = insert_query self ic
           (WhereObject (insert_whereCondition cc (h !!! e))).
Proof.
  intros Hi. rewrite elem_of_conflictReads. split.
  - intros (e' & Hin & Hk & ->).
    apply elem_of_conflictBased in Hin as (_ & Hi' & Hid).
    rewrite Nat.sub_0_r, Hi in Hi'. injection Hi' as <-. done.
  - intros (Hid & Hk & ->). exists e. split; [|done].
    apply elem_of_conflictBased. rewrite Nat.sub_0_r. split; [lia|done].
Qed.

Lemma insert_conflictBased_slot sched r entities w r' w' raw1 h1 gms i e :
  isReturningSqlSupported drv ReturningInsert = false →
  insert self sched r entities w = Resolved (r', w') →
  insert_generatedMaps self (length entities) entities 0
    (InsertResult.raw r) (heap w)
  = Resolved (raw1, h1, gms) →
  entities !! i = Some e →
  getEntityIdMap md (h1 !!! e) = None →
  let whereCondition := insert_whereCondition cc (h1 !!! e) in
  issued w' = issued w ++ insert_conflictQueries self h1 ic entities
                ++ insert_batchQuery self h1 ic entities
  ∧ ∃ gm, gms !! i = Some gm
      ∧ if hasKeys whereCondition then
          ∃ row, getOne mgr (insert_query self ic (WhereObject whereCondition))
                 = Resolved row
                 ∧ InsertResult.generatedMaps r'
                     !! (length (InsertResult.generatedMaps r) + i)
                   = Some (mergeInto self gm row)
        else
          InsertResult.generatedMaps r'
            !! (length (InsertResult.generatedMaps r) + i) = Some gm
          ∧ heap w' !! e = h1 !! e
          ∧ InsertResult.identifiers r'
              !! (length (InsertResult.identifiers r) + i) = Some None.
Proof.
  intros Hsup Hrun Hmaps Hi Hid whereCondition.
  apply insert_pushed in Hrun
    as (raw1' & h1' & gms' & gms2 & Hmaps' & Hlen & Hlen2 & Hmode & _
        & Hids & Hgms).
  rewrite Hmaps in Hmaps'. injection Hmaps' as <- <- <-.
  rewrite Hsup in Hmode. destruct Hmode as (rr & Hrecover & Hback).
  apply insert_recover_spec in Hrecover as (Hqs & Hrr & Hat & _).
  apply insert_mergeBack_spec in Hback as (_ & Hk & Hheap).
  split; [exact Hqs|].
  apply lookup_lt_Some in Hi as Hlt.
  destruct (lookup_lt_is_Some_2 gms i) as [gm Hgm]; [lia|].
  exists gm. split; [done|].
  assert (Hentry : InsertResult.generatedMaps r'
                     !! (length (InsertResult.generatedMaps r) + i)
                   = Some (mergeInto self gm (mjoin (rr !! i)))).
  { rewrite Hgms, lookup_app_r by lia.
    replace (length (InsertResult.generatedMaps r) + i
             - length (InsertResult.generatedMaps r)) with i by lia.
    rewrite Hk, decide_True by lia. by rewrite Hgm. }
  pose proof (Hat i e Hi Hid) as Hslot. cbv zeta in Hslot.
  fold whereCondition in Hslot.
  destruct (hasKeys whereCondition) eqn:Hkeys.
  - destruct Hslot as (row & Hq & Hrow). exists row. split; [done|].
    by rewrite Hentry, Hrow.
  - rewrite Hentry, Hslot. split; [done|].
    assert (Hkept : heap w' !! e = h1 !! e).
    { rewrite Hheap. apply mergeSources_unsourced.
      intros [e' src] Hin Heq. cbn [fst snd] in *. subst e'.
      apply elem_of_zip_lookup in Hin as (j & Hj & Hsrc).
      rewrite list_lookup_fmap in Hsrc.
      destruct (seq 0 (length entities) !! j) as [k|] eqn:Hseq; [|done].
      apply lookup_seq in Hseq as [-> _]. cbn in Hsrc.
      injection Hsrc as <-.
      pose proof (Hat j e Hj Hid) as Hslot'. cbv zeta in Hslot'.
      fold whereCondition in Hslot'. rewrite Hkeys in Hslot'.
      by rewrite Hslot'. }
    split; [done|].
    rewrite Hids, lookup_app_r by lia.
    replace (length (InsertResult.identifiers r) + i
             - length (InsertResult.identifiers r)) with i by lia.
    rewrite list_lookup_fmap, Hi. cbn. f_equal.
    rewrite !lookup_total_alt, Hkept, <- lookup_total_alt. done.
Qed.
End InsertConflictBased.

(** C3: without RETURNING, for an entity whose id map cannot be computed
    once the generated values are merged, the equality filter built from
    the conflict columns holds exactly the conflict values that are neither
    [undefined] nor [null]: its keys are the property paths of the conflict
    columns that have such a value, each of its values is such a value, and
    when the property paths are distinct the entry of every conflict column
    is its value, or is missing when the value is [undefined] or [null].  If
    one value remains, exactly one read is issued for the entity: it selects
    the primary columns and the insertion columns from the target, is
    filtered by that condition, fetches plain objects and leaves soft-deleted
    rows out; what it resolves with is recorded in the slot of the entity's
    own position (the generated map of that position receives it), in
    whatever order the reads complete.  If none remains, no read is issued
    for the entity, its slot stays empty, the entity object is left as it
    was and its identifier entry is absent; this raises nothing: the call
    can only fail with a [TypeError] of the raw result normalisation or the
    rejection of a read. *)
Theorem insert_conflict_recovery (self : ReturningResultsEntityUpdator)
    (sched : list nat) (r : InsertResult.t) (entities : list loc) (w : World)
    (raw1 : Value) (h1 : Heap) (gms : list Obj) (i : nat) (e : loc) :
  let md := metadata (expressionMap self) in
  let mgr := manager (queryRunner self) in
  let ic := insert_insertionColumns self in
  let cc := getConflictColumns self in
  let whereCondition := insert_whereCondition cc (h1 !!! e) in
  let q := insert_query self ic (WhereObject whereCondition) in
  let reads := conflictReads self h1 ic cc (conflictBased md h1 entities 0) in
  let path := fun c => targetName md +:+ "." +:+ propertyPath c in
  isReturningSqlSupported (driver (queryRunner self)) ReturningInsert = false →
  cc ≠ [] →
  insert_generatedMaps self (length entities) entities 0
    (InsertResult.raw r) (heap w)
  = Resolved (raw1, h1, gms) →
  entities !! i = Some e →
  getEntityIdMap md (h1 !!! e) = None →
  (∀ path v, whereCondition !! path = Some v →
     isUsable v = true
     ∧ ∃ c, c ∈ cc ∧ propertyPath c = path ∧ getEntityValue c (h1 !!! e) = v)
  ∧ (∀ path, is_Some (whereCondition !! path) ↔
       ∃ c, c ∈ cc ∧ propertyPath c = path
            ∧ isUsable (getEntityValue c (h1 !!! e)) = true)
  ∧ (NoDup (propertyPath <$> cc) →
     ∀ c, c ∈ cc →
       whereCondition !! propertyPath c
       = if isUsable (getEntityValue c (h1 !!! e))
         then Some (getEntityValue c (h1 !!! e))
         else None)
  ∧ (hasKeys whereCondition = true ↔
     ∃ c, c ∈ cc ∧ isUsable (getEntityValue c (h1 !!! e)) = true)
  ∧ (q_select q = path <$> primaryColumns md
     ∧ q_addSelect q = path <$> ic
     ∧ q_from q = targetName md
     ∧ q_where q = WhereObject whereCondition
     ∧ q_withDeleted q = false
     ∧ q_options q = ["create-pojo"])
  ∧ NoDup reads.*1
  ∧ (∀ q', (i, q') ∈ reads ↔ hasKeys whereCondition = true ∧ q' = q)
  ∧ (∀ rr qs,
       insert_recover self sched ic entities h1 (issued w) = Resolved (rr, qs) →
       if hasKeys whereCondition
       then ∃ row, getOne mgr q = Resolved row ∧ rr !! i = Some row
       else rr !! i = Some None)
  ∧ (∀ r' w', insert self sched r entities w = Resolved (r', w') →
       issued w' = issued w ++ reads.*2 ++ insert_batchQuery self h1 ic entities
       ∧ ∃ gm, gms !! i = Some gm
           ∧ if hasKeys whereCondition then
               ∃ row, getOne mgr q = Resolved row
                      ∧ InsertResult.generatedMaps r'
                          !! (length (InsertResult.generatedMaps r) + i)
                        = Some (mergeInto self gm row)
             else
               InsertResult.generatedMaps r'
                 !! (length (InsertResult.generatedMaps r) + i) = Some gm
               ∧ heap w' !! e = h1 !! e
               ∧ InsertResult.identifiers r'
                   !! (length (InsertResult.identifiers r) + i) = Some None)
  ∧ (∀ err, insert self sched r entities w = Rejected err →
       (∃ q', q' ∈ reads.*2 ∧ getOne mgr q' = Rejected err)
       ∨ (∃ q', insert_batchQuery self h1 ic entities = [q']
                ∧ getMany mgr q' = Rejected err)).
Proof.
  intros md mgr ic cc whereCondition q reads path Hsup _ Hmaps Hi Hid.
  split; [intros p v; apply insert_whereCondition_sound|].
  split; [intros p; apply insert_whereCondition_keys|].
  split.
  { intros Hnd c Hin. unfold whereCondition, insert_whereCondition.
    apply whereCondition_fold_exact; [|done|done].
    intros c' _. apply lookup_empty. }
  split; [apply hasKeys_whereCondition|].
  split; [by repeat split|].
  split; [apply NoDup_conflictReads|].
  split.
  { intros q'. unfold reads, q, whereCondition, ic, cc, md.
    rewrite (conflictRead_of_position self h1 entities i e q' Hi). tauto. }
  split.
  { intros rr qs Hrecover.
    apply insert_recover_spec in Hrecover as (_ & _ & Hat & _).
    exact (Hat i e Hi Hid). }
  split.
  - intros r' w' Hrun.
    apply (insert_conflictBased_slot self sched r entities w r' w' raw1 h1 gms i e);
      done.
  - intros err Hrun. apply insert_Rejected in Hrun as [Hrun|Hrun].
    + by rewrite Hmaps in Hrun.
    + destruct Hrun as (raw1' & h1' & gms' & Hmaps' & _ & Hrecover).
      rewrite Hmaps in Hmaps'. injection Hmaps' as <- <- <-.
      by apply insert_recover_Rejected in Hrecover.
Qed.

(** C10: without RETURNING and with no conflict target on the expression
    map, the conflict-column resolver returns no column, so the only read
    [insert] can issue is the batched one over the entities that have an id
    map: an entity without one is asked about in no read.  The call still
    completes (it can only fail with what the raw result normalisation
    throws or with the rejection of the batched read), such an entity is
    left as it was, and the identifier pushed for it is the absent id map
    ([getEntityIdMap] gave nothing), not a partial mapping. *)
Theorem insert_no_conflict_target (self : ReturningResultsEntityUpdator)
    (sched : list nat) (r : InsertResult.t) (entities : list loc) (w : World) :
  let md := metadata (expressionMap self) in
  let ic := insert_insertionColumns self in
  isReturningSqlSupported (driver (queryRunner self)) ReturningInsert = false →
  onUpdate (expressionMap self) ≫= conflict = None →
  getConflictColumns self = []
  ∧ (∀ r' w' raw1 h1 gms,
       insert self sched r entities w = Resolved (r', w') →
       insert_generatedMaps self (length entities) entities 0
         (InsertResult.raw r) (heap w)
       = Resolved (raw1, h1, gms) →
       issued w' = issued w ++ insert_batchQuery self h1 ic entities
       ∧ ∀ i e, entities !! i = Some e → getEntityIdMap md (h1 !!! e) = None →
           heap w' !! e = h1 !! e
           ∧ InsertResult.identifiers r'
               !! (length (InsertResult.identifiers r) + i) = Some None)
  ∧ (∀ err, insert self sched r entities w = Rejected err →
       insert_generatedMaps self (length entities) entities 0
         (InsertResult.raw r) (heap w)
       = Rejected err
       ∨ ∃ q, getMany (manager (queryRunner self)) q = Rejected err).
Proof.
  intros md ic Hsup Hnone.
  assert (Hcc : getConflictColumns self = []).
  { apply getConflictColumns_unconfigured. unfold truthyConflict.
    destruct (onUpdate (expressionMap self)) as [ou|]; [|done].
    cbn in Hnone. by rewrite Hnone. }
  assert (Hqueries : ∀ h, insert_conflictQueries self h ic entities = []).
  { intros h. unfold insert_conflictQueries.
    by rewrite Hcc, conflictReads_no_columns. }
  split; [exact Hcc|]. split.
  - intros r' w' raw1 h1 gms Hrun Hmaps. split.
    + apply insert_pushed in Hrun
        as (raw1' & h1' & gms' & gms2 & Hmaps' & _ & _ & Hmode & _).
      rewrite Hmaps in Hmaps'. injection Hmaps' as <- <- <-.
      rewrite Hsup in Hmode. destruct Hmode as (rr & Hrecover & _).
      apply insert_recover_spec in Hrecover as (Hqs & _).
      by rewrite Hqs, Hqueries.
    + intros i e Hi Hid.
      destruct (insert_conflictBased_slot self sched r entities w r' w'
                  raw1 h1 gms i e Hsup Hrun Hmaps Hi Hid)
        as (_ & gm & _ & Hslot).
      rewrite Hcc, insert_whereCondition_nil, hasKeys_empty in Hslot.
      by destruct Hslot as (_ & ? & ?).
  - intros err Hrun. apply insert_Rejected in Hrun as [Hrun|Hrun]; [by left|].
    destruct Hrun as (raw1 & h1 & gms & _ & _ & Hrecover). right.
    apply insert_recover_Rejected in Hrecover as [(q & Hq & _)|(q & _ & Hq)].
    + fold ic in Hq. rewrite Hqueries in Hq. by apply elem_of_nil in Hq.
    + by exists q.
Qed.

(** ** What the reconcilers leave untouched *)

Section Frame.
Context (self : ReturningResultsEntityUpdator).
Local Abbreviation drv := (driver (queryRunner self)).
Local Abbreviation mgr := (manager (queryRunner self)).
Local Abbreviation em := (expressionMap self).
Local Abbreviation md := (metadata (expressionMap self)).

Lemma pendingOf_update_tagged h entities :
  pendingOf (update_task self h <$> entities)
  = (fun t => (t.2, update_record self t.1)) <$> update_tagged self h entities.
Proof.
  induction entities as [|e rest IH]; [done|].
  rewrite fmap_cons. unfold update_tagged. cbn [omap list_omap].
  fold (update_tagged self h rest). unfold update_task at 1.
  destruct (getEntityIdMap md (h !!! e)) as [entityId|]; cbn; by rewrite IH.
Qed.

Lemma elem_of_update_tagged h entities e q :
  (e, q) ∈ update_tagged self h entities →
  e ∈ entities
  ∧ ∃ entityId, getEntityIdMap md (h !!! e) = Some entityId
                ∧ q = update_query self entityId.
Proof.
  unfold update_tagged. rewrite list_elem_of_omap.
  intros (e' & Hin & Ht).
  destruct (getEntityIdMap md (h !!! e')) as [entityId|] eqn:Hid; [|done].
  cbn in Ht. injection Ht as -> <-. split; [done|]. by exists entityId.
Qed.

Lemma resume_update_heap (cs : list (Completed UpdateState)) tagged st :
  cs.*1 = (fun t => (t.2, update_record self t.1)) <$> tagged →
  Forall (fun c => getOne mgr c.1.1 = Resolved c.2) cs →
  heap (resume st cs).2
  = mergeSources self ((fun t => (t.1, rowOf mgr t.2)) <$> tagged) (heap st.2).
Proof.
  revert tagged st.
  induction cs as [|[[q k] row] cs IH]; intros tagged st Hcs Hall.
  - destruct tagged; [done|]. by rewrite fmap_cons in Hcs.
  - destruct tagged as [|[e q'] tagged]; [done|].
    rewrite !fmap_cons in Hcs. cbn [fst snd] in Hcs.
    injection Hcs as -> -> Hcs.
    apply Forall_cons in Hall as [Hq Hall]. cbn [fst snd] in Hq.
    unfold resume. cbn [foldl fst snd].
    fold (resume (update_record self e row st) cs).
    rewrite (IH tagged) by done.
    rewrite fmap_cons, mergeSources_cons. cbn [fst snd].
    assert (Hrow : rowOf mgr q' = row) by (unfold rowOf; by rewrite Hq).
    rewrite Hrow. by destruct row.
Qed.

(** The heap [update] ends with: the sources it merged, entity by entity. *)
Lemma update_heap sched r entities w r' w' :
  update self sched r entities w = Resolved (r', w') →
  ∃ pairs,
    heap w' = mergeSources self pairs (heap w)
    ∧ ∀ e src, (e, Some src) ∈ pairs →
        e ∈ entities
        ∧ ((isReturningSqlSupported drv ReturningUpdate = true
            ∧ ∃ j, entities !! j = Some e
                   ∧ update_returned self (UpdateResult.raw r') j = Some src)
           ∨ (isReturningSqlSupported drv ReturningUpdate = false
              ∧ ∃ entityId,
                  getEntityIdMap md (heap w !!! e) = Some entityId
                  ∧ getOne mgr (update_query self entityId)
                    = Resolved (Some src))).
Proof.
  intros Hrun.
  destruct (isReturningSqlSupported drv ReturningUpdate) eqn:Hsup.
  - apply update_inline in Hrun as (_ & _ & Hheap & _); [|done].
    cbn [fst snd] in Hheap. rewrite mergeEach_mergeSources in Hheap.
    eexists. split; [exact Hheap|].
    intros e src Hin. apply elem_of_zip_lookup in Hin as (j & Hj & Hsrc).
    split; [by apply list_elem_of_lookup_2 with j|]. left. split; [done|].
    exists j. split; [done|].
    rewrite list_lookup_fmap in Hsrc.
    destruct (seq 0 (length entities) !! j) as [k|] eqn:Hseq; [|done].
    apply lookup_seq in Hseq as [-> _]. cbn in Hsrc. by injection Hsrc.
  - destruct (decide (extraReturningColumns em = [])) as [Hnil|Hcols].
    + rewrite update_nothing_to_load in Hrun by done.
      injection Hrun as <- <-. exists []. split; [done|].
      intros e src Hin. by apply elem_of_nil in Hin.
    + destruct w as [h qs]. unfold update in Hrun.
      apply promiseAll_Resolved in Hrun
        as (st1 & tasks & Hlaunch & _ & Hrun).
      rewrite launch_update_reselect in Hlaunch by done.
      injection Hlaunch as <- <-.
      apply settle_Resolved in Hrun as (cs & Hperm & Hall & Hst); [|done].
      rewrite pendingOf_update_tagged in Hperm.
      apply Permutation_fmap_inv in Hperm as (tagged & Hcs & Hperm).
      pose proof (resume_update_heap cs tagged
                    (r, {| heap := h;
                           issued := qs ++ update_reads self h entities |})
                    Hcs Hall) as Hheap.
      rewrite <- Hst in Hheap. cbn [fst snd heap] in Hheap.
      eexists. split; [exact Hheap|].
      intros e src Hin.
      apply list_elem_of_fmap in Hin as ([e' q] & [= -> Hrow] & Hin).
      rewrite <- Hperm in Hin.
      apply elem_of_update_tagged in Hin as (He & entityId & Hid & ->).
      split; [done|]. right. split; [done|]. exists entityId.
      split; [done|]. unfold rowOf in Hrow.
      destruct (getOne mgr (update_query self entityId)) as [row|];
        [|done]. by rewrite Hrow.
Qed.

Lemma insert_generatedMap_unaddressed total j raw_j field :
  mergePreservesUnaddressed self →
  default ∅ (createGeneratedMap drv md (rawRow raw_j j) (Some j) (Some total))
    !! field = None →
  (∀ local, locallyGenerated em !! j = Some local → local !! field = None) →
  insert_generatedMap self total j raw_j !! field = None.
Proof.
  intros Hmerge Hgm Hlocal. unfold insert_generatedMap. cbv zeta.
  destruct (locallyGenerated em !! j) as [local|]; [|done].
  rewrite Hmerge; [done|]. by apply Hlocal.
Qed.

(** The heap [insert] ends with: the sources it merged, entity by entity. *)
Lemma insert_heap sched r entities w r' w' :
  insert self sched r entities w = Resolved (r', w') →
  ∃ pairs,
    heap w' = mergeSources self pairs (heap w)
    ∧ ∀ e src, (e, Some src) ∈ pairs →
        e ∈ entities
        ∧ ((∃ j raw_j,
              entities !! j = Some e
              ∧ insert_rawAt self (InsertResult.raw r) j = Resolved raw_j
              ∧ src = insert_generatedMap self (length entities) j raw_j)
           ∨ (∃ q, q ∈ drop (length (issued w)) (issued w')
                   ∧ (getOne mgr q = Resolved (Some src)
                      ∨ ∃ rows, getMany mgr q = Resolved rows ∧ src ∈ rows))).
Proof.
  intros Hrun.
  apply insert_pushed in Hrun
    as (raw1 & h1 & gms & gms2 & Hmaps & Hlen & _ & Hmode & _).
  apply insert_generatedMaps_spec in Hmaps as (_ & Hat & Hh1).
  assert (Hfirst : ∀ e src, (e, Some src) ∈ zip entities (Some <$> gms) →
            e ∈ entities
            ∧ ∃ j raw_j,
                entities !! j = Some e
                ∧ insert_rawAt self (InsertResult.raw r) j = Resolved raw_j
                ∧ src = insert_generatedMap self (length entities) j raw_j).
  { intros e src Hin. apply elem_of_zip_lookup in Hin as (j & Hj & Hsrc).
    split; [by apply list_elem_of_lookup_2 with j|].
    rewrite list_lookup_fmap in Hsrc.
    destruct (Hat j) as (raw_j & Hraw & Hgm); [by apply lookup_lt_Some in Hj|].
    rewrite Hgm in Hsrc. cbn in Hsrc. injection Hsrc as <-.
    by exists j, raw_j. }
  destruct (isReturningSqlSupported drv ReturningInsert).
  - destruct Hmode as (_ & -> & _). eexists. split; [exact Hh1|].
    intros e src Hin. apply Hfirst in Hin as [He Hsrc]. split; [done|].
    by left.
  - destruct Hmode as (rr & Hrecover & Hback).
    apply insert_recover_spec in Hrecover as (Hqs & _ & _ & Hprov).
    apply insert_mergeBack_spec in Hback as (_ & _ & Hh2).
    exists (zip entities (Some <$> gms)
            ++ zip entities ((fun k => mjoin (rr !! k))
                               <$> seq 0 (length entities))).
    split.
    { rewrite Hh2, Hh1. unfold mergeSources. by rewrite foldl_app. }
    intros e src Hin. apply elem_of_app in Hin as [Hin|Hin].
    + apply Hfirst in Hin as [He Hsrc]. split; [done|]. by left.
    + apply elem_of_zip_lookup in Hin as (j & Hj & Hsrc).
      split; [by apply list_elem_of_lookup_2 with j|]. right.
      rewrite list_lookup_fmap in Hsrc.
      destruct (seq 0 (length entities) !! j) as [k|] eqn:Hseq; [|done].
      apply lookup_seq in Hseq as [-> _]. cbn in Hsrc.
      injection Hsrc as Hsrc.
      destruct (rr !! j) as [[row|]|] eqn:Hrow; try done.
      cbn in Hsrc. injection Hsrc as ->.
      rewrite Hqs, drop_app_length.
      apply Hprov in Hrow as [(q & Hq & Hone)|(q & rows & Hq & Hmany & Hin)].
      * exists q. split; [apply elem_of_app; by left|by left].
      * exists q. split; [|right; by exists rows].
        apply elem_of_app. right. rewrite Hq. by left.
Qed.
End Frame.

(** C9: as long as merging keeps the fields its source does not address
    (the contract of the merge utility), a field of an entity that is
    addressed by none of the sources merged into that entity reads the same
    after reconciliation as before.  For [insert] the sources are the
    generated map extracted for each position the entity occupies, the
    locally generated values of that position and the rows the supplemental
    reads of the call returned; for [update] they are the map extracted for
    the entity (with RETURNING) or the row loaded for it (without).  The
    entities are updated in place: every object of the heap is still there,
    under the same reference, and the objects that are not among the
    entities are untouched. *)
Theorem reconcilers_keep_unaddressed_fields
    (self : ReturningResultsEntityUpdator) :
  let drv := driver (queryRunner self) in
  let mgr := manager (queryRunner self) in
  let em := expressionMap self in
  let md := metadata (expressionMap self) in
  mergePreservesUnaddressed self →
  (∀ sched r entities w r' w' l field,
     insert self sched r entities w = Resolved (r', w') →
     (∀ j raw_j, entities !! j = Some l →
        insert_rawAt self (InsertResult.raw r) j = Resolved raw_j →
        default ∅ (createGeneratedMap drv md (rawRow raw_j j) (Some j)
                     (Some (length entities))) !! field = None
        ∧ ∀ local, locallyGenerated em !! j = Some local →
            local !! field = None) →
     (∀ q row, q ∈ drop (length (issued w)) (issued w') →
        (getOne mgr q = Resolved (Some row) → row !! field = None)
        ∧ ∀ rows, getMany mgr q = Resolved rows → row ∈ rows →
            row !! field = None) →
     (heap w' !!! l) !! field = (heap w !!! l) !! field)
  ∧ (∀ sched r entities w r' w' l field,
       update self sched r entities w = Resolved (r', w') →
       (isReturningSqlSupported drv ReturningUpdate = true →
        ∀ j m, entities !! j = Some l →
          update_returned self (UpdateResult.raw r') j = Some m →
          m !! field = None) →
       (isReturningSqlSupported drv ReturningUpdate = false →
        ∀ entityId row, getEntityIdMap md (heap w !!! l) = Some entityId →
          getOne mgr (update_query self entityId) = Resolved (Some row) →
          row !! field = None) →
       (heap w' !!! l) !! field = (heap w !!! l) !! field)
  ∧ (∀ sched r entities w r' w' l,
       insert self sched r entities w = Resolved (r', w') →
       (is_Some (heap w !! l) → is_Some (heap w' !! l))
       ∧ (l ∉ entities → heap w' !! l = heap w !! l))
  ∧ (∀ sched r entities w r' w' l,
       update self sched r entities w = Resolved (r', w') →
       (is_Some (heap w !! l) → is_Some (heap w' !! l))
       ∧ (l ∉ entities → heap w' !! l = heap w !! l)).
Proof.
  intros drv mgr em md Hmerge. split; [|split; [|split]].
  - intros sched r entities w r' w' l field Hrun Hmaps Hrows.
    apply insert_heap in Hrun as (pairs & -> & Hpairs).
    apply mergeSources_frame; [done|].
    intros [e src'] src Hin Hl Hsrc. cbn [fst snd] in Hl, Hsrc. subst e src'.
    apply Hpairs in Hin as [_ [(j & raw_j & Hj & Hraw & ->)|(q & Hq & Hrow)]].
    + destruct (Hmaps j raw_j Hj Hraw) as [Hgm Hlocal].
      by apply insert_generatedMap_unaddressed.
    + destruct (Hrows q src Hq) as [Hone Hmany].
      destruct Hrow as [Hrow|(rows & Hrow & Hin)]; [by apply Hone|].
      by apply (Hmany rows).
  - intros sched r entities w r' w' l field Hrun Hmaps Hrows.
    apply update_heap in Hrun as (pairs & -> & Hpairs).
    apply mergeSources_frame; [done|].
    intros [e src'] src Hin Hl Hsrc. cbn [fst snd] in Hl, Hsrc. subst e src'.
    apply Hpairs in Hin
      as [_ [(Hsup & j & Hj & Hm)|(Hsup & entityId & Hid & Hq)]].
    + by apply (Hmaps Hsup j).
    + by apply (Hrows Hsup entityId).
  - intros sched r entities w r' w' l Hrun.
    apply insert_heap in Hrun as (pairs & -> & Hpairs). split.
    + apply mergeSources_persist.
    + intros Hl. apply mergeSources_unsourced.
      intros [e [src|]] Hin He; [|done]. cbn [fst] in He. subst e.
      apply Hpairs in Hin as [Hin _]. done.
  - intros sched r entities w r' w' l Hrun.
    apply update_heap in Hrun as (pairs & -> & Hpairs). split.
    + apply mergeSources_persist.
    + intros Hl. apply mergeSources_unsourced.
      intros [e [src|]] Hin He; [|done]. cbn [fst] in He. subst e.
      apply Hpairs in Hin as [Hin _]. done.
Qed.

(** ** The properties on concrete runs *)

Lemma getConflictColumns_resolves_witness :
  getConflictColumns Fixture.singleTargetUpdator = [Fixture.column "key2"]
  ∧ getConflictColumns Fixture.staleTargetUpdator
    = [Fixture.column "key1"; Fixture.column "key2"].
Proof.
  assert (Hnamed : ∀ col, col ∈ columns Fixture.testMetadata →
                     databaseName col ≠ "").
  { intros col Hin. cbn in Hin.
    repeat (apply elem_of_cons in Hin as [->|Hin]; [discriminate|]).
    by apply elem_of_nil in Hin. }
  split.
  - etrans;
      [refine (proj1 (getConflictColumns_resolves Fixture.singleTargetUpdator
                        {| conflict := Some (ConflictName "key2") |}
                        (ConflictName "key2") _ _ _))|].
    + exact Hnamed.
    + reflexivity.
    + reflexivity.
    + reflexivity.
  - etrans;
      [refine (proj1 (getConflictColumns_resolves Fixture.staleTargetUpdator
                        {| conflict :=
                             Some (ConflictNames ["key1"; "renamed"; "key2"]) |}
                        (ConflictNames ["key1"; "renamed"; "key2"]) _ _ _))|].
    + exact Hnamed.
    + reflexivity.
    + reflexivity.
    + reflexivity.
Defined.

Lemma insert_appends_entry_per_entity_witness :
  length (InsertResult.identifiers Fixture.reorderedOutcome.1) = 0 + 2
  ∧ length (InsertResult.generatedMaps Fixture.reorderedOutcome.1) = 0 + 2.
Proof.
  pose proof (insert_appends_entry_per_entity Fixture.reorderingUpdator []
                (Fixture.freshInsert VNull) [0; 1] Fixture.twoKnown
                Fixture.reorderedOutcome.1 Fixture.reorderedOutcome.2)
    as Hentries.
  cbv zeta in Hentries.
  destruct Hentries as (Hids & Hgms & _).
  - vm_compute. reflexivity.
  - split; [exact Hids|exact Hgms].
Defined.

Lemma insert_conflict_recovery_witness :
  (∃ gm row,
     [(∅ : Obj); ∅; ∅] !! 0 = Some gm
     ∧ getOne (manager (queryRunner Fixture.recoveringUpdator))
         (insert_query Fixture.recoveringUpdator
            (insert_insertionColumns Fixture.recoveringUpdator)
            (WhereObject {[ "key1" := VStr "a"; "key2" := VStr "x" ]}))
       = Resolved row
     ∧ InsertResult.generatedMaps Fixture.recoveredOutcome.1 !! (0 + 0)
       = Some (mergeInto Fixture.recoveringUpdator gm row))
  ∧ InsertResult.identifiers Fixture.recoveredOutcome.1 !! (0 + 2) = Some None.
Proof.
  split.
  - pose proof (insert_conflict_recovery Fixture.recoveringUpdator []
                  (Fixture.freshInsert VNull) [0; 1; 2]
                  Fixture.threeUnidentified
                  VNull (heap Fixture.threeUnidentified) [∅; ∅; ∅] 0 0)
      as Hrecovery.
    cbv zeta in Hrecovery.
    destruct Hrecovery as (_ & _ & _ & _ & _ & _ & _ & _ & Hrun & _).
    + reflexivity.
    + vm_compute. discriminate.
    + vm_compute. reflexivity.
    + reflexivity.
    + vm_compute. reflexivity.
    + destruct (Hrun Fixture.recoveredOutcome.1 Fixture.recoveredOutcome.2)
        as (_ & gm & Hgm & Hslot).
      * vm_compute. reflexivity.
      * assert (Hfilter : insert_whereCondition
                  (getConflictColumns Fixture.recoveringUpdator)
                  (heap Fixture.threeUnidentified !!! 0)
                = {[ "key1" := VStr "a"; "key2" := VStr "x" ]})
          by (vm_compute; reflexivity).
        rewrite Hfilter in Hslot.
        assert (Hkeys : hasKeys
                  ({[ "key1" := VStr "a"; "key2" := VStr "x" ]} : Obj) = true)
          by (vm_compute; reflexivity).
        rewrite Hkeys in Hslot. destruct Hslot as (row & Hq & Hentry).
        exists gm, row. split; [exact Hgm|]. split; [exact Hq|exact Hentry].
  - pose proof (insert_conflict_recovery Fixture.recoveringUpdator []
                  (Fixture.freshInsert VNull) [0; 1; 2]
                  Fixture.threeUnidentified
                  VNull (heap Fixture.threeUnidentified) [∅; ∅; ∅] 2 2)
      as Hrecovery.
    cbv zeta in Hrecovery.
    destruct Hrecovery as (_ & _ & _ & _ & _ & _ & _ & _ & Hrun & _).
    + reflexivity.
    + vm_compute. discriminate.
    + vm_compute. reflexivity.
    + reflexivity.
    + vm_compute. reflexivity.
    + destruct (Hrun Fixture.recoveredOutcome.1 Fixture.recoveredOutcome.2)
        as (_ & gm & Hgm & Hslot).
      * vm_compute. reflexivity.
      * assert (Hkeys : hasKeys
                  (insert_whereCondition
                     (getConflictColumns Fixture.recoveringUpdator)
                     (heap Fixture.threeUnidentified !!! 2)) = false)
          by (vm_compute; reflexivity).
        rewrite Hkeys in Hslot. destruct Hslot as (_ & _ & Hid).
        exact Hid.
Defined.

Lemma overlay_preserves_unaddressed drv table batch em :
  mergePreservesUnaddressed
    (Fixture.updator drv (Fixture.tableManager table batch) em).
Proof.
  intros dest src field Hsrc. cbn. unfold Fixture.overlay.
  by rewrite lookup_union_r.
Qed.

Lemma reconcilers_keep_unaddressed_fields_witness :
  (heap Fixture.upsertOutcome.2 !!! 0) !! "value"
  = (heap Fixture.oneUnidentified !!! 0) !! "value".
Proof.
  pose proof (reconcilers_keep_unaddressed_fields Fixture.upsertingUpdator)
    as Hframe.
  cbv zeta in Hframe.
  destruct Hframe as (Hinsert & _).
  - apply overlay_preserves_unaddressed.
  - apply (Hinsert [] (Fixture.freshInsert VNull) [0] Fixture.oneUnidentified
             Fixture.upsertOutcome.1 Fixture.upsertOutcome.2 0 "value").
    + vm_compute. reflexivity.
    + intros j raw_j _ _. split; [reflexivity|].
      intros local Hlocal. cbn in Hlocal. by rewrite lookup_empty in Hlocal.
    + intros q row Hq. vm_compute in Hq.
      apply list_elem_of_singleton in Hq. subst q. split.
      * intros Hone. vm_compute in Hone. injection Hone as <-.
        vm_compute. reflexivity.
      * intros rows Hmany. vm_compute in Hmany. injection Hmany as <-.
        intros Hin. by apply elem_of_nil in Hin.
Defined.

Lemma insert_no_conflict_target_witness :
  getConflictColumns Fixture.unconfiguredUpdator = []
  ∧ InsertResult.identifiers Fixture.unconfiguredOutcome.1 !! (0 + 0)
    = Some None.
Proof.
  pose proof (insert_no_conflict_target Fixture.unconfiguredUpdator []
                (Fixture.freshInsert VNull) [0] Fixture.oneUnidentified)
    as Hnone.
  cbv zeta in Hnone.
  destruct Hnone as (Hcc & Hrun & _).
  - reflexivity.
  - reflexivity.
  - split; [exact Hcc|].
    destruct (Hrun Fixture.unconfiguredOutcome.1 Fixture.unconfiguredOutcome.2
                VNull (heap Fixture.oneUnidentified) [∅])
      as (_ & Hat).
    + vm_compute. reflexivity.
    + vm_compute. reflexivity.
    + destruct (Hat 0 0) as (_ & Hid).
      * reflexivity.
      * vm_compute. reflexivity.
      * exact Hid.
Defined.

(** C1 on the run where the batched read answers in another order than the
    entities were given.  The entities carry ids 1 and 2, in that order, and
    the read answers with the rows of ids 2 and 1.  Both ledgers end with two
    entries, but the entries do not belong to the entities of their
    positions: the identifier at position 0 is [{id: 2}] and the generated
    map at position 0 is the row of id 2, for the entity that came in with
    id 1, and likewise, the other way round, at position 1. *)
Theorem insert_entries_follow_result_order :
  let ids := fun (h : Heap) =>
    (fun e => getEntityIdMap Fixture.testMetadata (h !!! e)) <$> [0; 1] in
  insert Fixture.reorderingUpdator [] (Fixture.freshInsert VNull) [0; 1]
    Fixture.twoKnown
  = Resolved Fixture.reorderedOutcome
  ∧ ids (heap Fixture.twoKnown)
    = [Some {[ "id" := VNum 1 ]}; Some {[ "id" := VNum 2 ]}]
  ∧ length (InsertResult.identifiers Fixture.reorderedOutcome.1) = 2
  ∧ length (InsertResult.generatedMaps Fixture.reorderedOutcome.1) = 2
  ∧ InsertResult.identifiers Fixture.reorderedOutcome.1
    = [Some {[ "id" := VNum 2 ]}; Some {[ "id" := VNum 1 ]}]
  ∧ InsertResult.generatedMaps Fixture.reorderedOutcome.1
    = [{[ "id" := VNum 2; "updatedAt" := VNum 200 ]};
       {[ "id" := VNum 1; "updatedAt" := VNum 100 ]}]
  ∧ InsertResult.identifiers Fixture.reorderedOutcome.1
    ≠ ids (heap Fixture.twoKnown).
Proof.
  cbv zeta. repeat split; try (vm_compute; reflexivity).
  vm_compute. discriminate.
Qed.

(** C2 on a run where the batched read answers in another order than the
    entities were given: for the entities of ids 1 and 2 and the rows
    [{id: 2, updatedAt: 200}; {id: 1, updatedAt: 100}], exactly one read is
    issued, filtered by both ids, and its rows are handed out in the order
    in which they came back: the entity that had id 1 ends with
    [updatedAt = 200] and [id = 2], the values of the other entity's row. *)
Theorem insert_batched_rows_follow_result_order :
  insert Fixture.reorderingUpdator [] (Fixture.freshInsert VNull) [0; 1]
    Fixture.twoKnown
  = Resolved Fixture.reorderedOutcome
  ∧ issued Fixture.reorderedOutcome.2
    = [insert_query Fixture.reorderingUpdator [Fixture.updatedAtColumn]
         (WhereIds [{[ "id" := VNum 1 ]}; {[ "id" := VNum 2 ]}])]
  ∧ getMany (manager (queryRunner Fixture.reorderingUpdator))
      (insert_query Fixture.reorderingUpdator [Fixture.updatedAtColumn]
         (WhereIds [{[ "id" := VNum 1 ]}; {[ "id" := VNum 2 ]}]))
    = Resolved [Fixture.row 2 200; Fixture.row 1 100]
  ∧ (heap Fixture.twoKnown !!! 0) !! "id" = Some (VNum 1)
  ∧ (heap Fixture.reorderedOutcome.2 !!! 0) !! "updatedAt" = Some (VNum 200)
  ∧ (heap Fixture.reorderedOutcome.2 !!! 0) !! "id" = Some (VNum 2)
  ∧ InsertResult.generatedMaps Fixture.reorderedOutcome.1
    = [Fixture.row 2 200; Fixture.row 1 100].
Proof. repeat split; vm_compute; reflexivity. Qed.

(** ** Every completion order is a schedule *)

Section Schedules.
Context {St : Type}.

Lemma pick_index {X} (l : list X) i x :
  l !! i = Some x → pick i l = Some (x, delete i l).
Proof.
  intros Hi. unfold pick.
  rewrite Nat.mod_small by by apply lookup_lt_Some in Hi.
  by rewrite Hi.
Qed.

(** Whatever order the pending reads complete in, some [sched] makes
    [settle] resume them in exactly that order. *)
Lemma settle_any_order getOne (cs : list (Completed St))
    (pending : list (Query * (option Obj → St → St))) (st : St) :
  cs.*1 ≡ₚ pending →
  Forall (fun c => getOne c.1.1 = Resolved c.2) cs →
  ∃ sched,
    settle getOne (length pending) sched pending st = Resolved (resume st cs).
Proof.
  revert pending st.
  induction cs as [|[[q k] row] cs IH]; intros pending st Hperm Hall.
  - apply Permutation_nil_l in Hperm as <-. by exists [].
  - apply Forall_cons in Hall as [Hq Hall]. cbn [fst snd] in Hq.
    rewrite fmap_cons in Hperm. cbn [fst] in Hperm.
    assert (Hin : (q, k) ∈ pending) by (rewrite <- Hperm; by left).
    apply list_elem_of_lookup in Hin as [i Hi].
    pose proof (delete_Permutation pending i (q, k) Hi) as Hdel.
    assert (Hrest : cs.*1 ≡ₚ delete i pending).
    { apply (Permutation_cons_inv (a := (q, k))). by etrans. }
    destruct (IH (delete i pending) (k row st) Hrest Hall) as [sched Hrun].
    exists (i :: sched).
    assert (Hlen : length pending = S (length (delete i pending))).
    { apply Permutation_length in Hdel. by rewrite Hdel. }
    rewrite Hlen. cbn [settle hd tl]. rewrite (pick_index pending i (q, k) Hi).
    rewrite Hq. exact Hrun.
Qed.
End Schedules.

(** ** How the batched rows are handed out *)

(** When every entity has an id map with usable values, the mapping of the
    batched rows gives the row at result position [j] to the entity at
    position [j], whatever identifier that row carries. *)
Lemma insert_mapBack_by_result_order (self : ReturningResultsEntityUpdator)
    (h : Heap) (rows : list Obj) (entities : list loc)
    (index resultIndex : nat) (rr : list (option Obj)) (j : nat) :
  let md := metadata (expressionMap self) in
  Forall
    (fun e => ∃ entityId,
       getEntityIdMap md (h !!! e) = Some entityId
       ∧ forallb isUsable (map_to_list entityId).*2 = true)
    entities →
  index + length entities ≤ length rr →
  j < length entities →
  insert_mapBack md h rows entities index resultIndex rr !! (index + j)
  = Some (rows !! (resultIndex + j)).
Proof.
  intros md Hall. subst md. revert index resultIndex rr j.
  induction Hall as [|e rest (entityId & Hid & Husable) _ IH];
    intros index resultIndex rr j Hlen Hj; [simpl in Hj; lia|].
  cbn [insert_mapBack]. rewrite Hid, Husable. cbn [length] in Hlen, Hj.
  destruct j as [|j].
  - rewrite !Nat.add_0_r, (insert_mapBack_before self) by lia.
    apply list_lookup_insert_eq. lia.
  - replace (index + S j) with (S index + j) by lia.
    replace (resultIndex + S j) with (S resultIndex + j) by lia.
    apply IH; [rewrite length_insert|]; lia.
Qed.

(** * Further properties of the updator *)

(** ** The oracle flattening of the raw result *)

Lemma index0_usable (v : Value) :
  isUsable v = true → ∃ x, index0 v = Resolved x.
Proof. destruct v; simpl; try done; by eexists. Qed.

Lemma index0_unusable (v : Value) :
  isUsable v = false → index0 v = Rejected TypeError.
Proof. by destruct v. Qed.

Lemma reduceOracleRaw_resolves cols items index (acc : Obj) :
  index + length items ≤ length cols →
  Forall (fun v => isUsable v = true) items →
  ∃ newRaw,
    reduceOracleRaw cols items index acc = Resolved newRaw
    ∧ (∀ name, is_Some (acc !! name) → is_Some (newRaw !! name))
    ∧ (∀ j col, j < length items → cols !! (index + j) = Some col →
         is_Some (newRaw !! databaseName col))
    ∧ (∀ name v, newRaw !! name = Some v →
         acc !! name = Some v
         ∨ ∃ j col item,
             cols !! (index + j) = Some col ∧ items !! j = Some item
             ∧ databaseName col = name ∧ index0 item = Resolved v).
Proof.
  intros Hlen Hall. revert index acc Hlen.
  induction Hall as [|item items Hitem _ IH]; intros index acc Hlen.
  - exists acc. split; [done|]. split; [done|]. split; [|by left].
    intros j col Hj. simpl in Hj. lia.
  - cbn [length] in Hlen. cbn [reduceOracleRaw].
    destruct (lookup_lt_is_Some_2 cols index) as [col Hcol]; [lia|].
    rewrite Hcol. destruct (index0_usable item Hitem) as [x Hx].
    rewrite Hx. cbn [mbind Outcome_bind].
    destruct (IH (S index) (<[databaseName col := x]> acc))
      as (newRaw & Hrun & Hkeep & Hcols & Hfrom); [lia|].
    exists newRaw. split; [done|]. split; [|split].
    + intros name Hname. apply Hkeep.
      destruct (decide (databaseName col = name)) as [<-|Hne].
      * rewrite lookup_insert_eq. by eexists.
      * by rewrite lookup_insert_ne.
    + intros [|j] col' Hj Hcol'.
      * rewrite Nat.add_0_r, Hcol in Hcol'. injection Hcol' as <-.
        apply Hkeep. rewrite lookup_insert_eq. by eexists.
      * apply (Hcols j); [cbn [length] in Hj; lia|].
        by replace (S index + j) with (index + S j) by lia.
    + intros name v Hv. apply Hfrom in Hv as [Hv|(j & col' & item' & ? & ? & ? & ?)].
      * destruct (decide (databaseName col = name)) as [Heq|Hne].
        -- rewrite Heq, lookup_insert_eq in Hv. injection Hv as <-.
           right. exists 0, col, item. by rewrite Nat.add_0_r.
        -- rewrite lookup_insert_ne in Hv by done. by left.
      * right. exists (S j), col', item'.
        by replace (index + S j) with (S index + j) by lia.
Qed.

Lemma reduceOracleRaw_rejects cols items index (acc : Obj) :
  ¬ (index + length items ≤ length cols
     ∧ Forall (fun v => isUsable v = true) items) →
  index ≤ length cols →
  reduceOracleRaw cols items index acc = Rejected TypeError.
Proof.
  revert index acc.
  induction items as [|item items IH]; intros index acc Hnot Hindex.
  - destruct Hnot. cbn [length]. split; [lia|constructor].
  - cbn [reduceOracleRaw]. destruct (cols !! index) as [col|] eqn:Hcol; [|done].
    destruct (isUsable item) eqn:Hitem.
    + destruct (index0_usable item Hitem) as [x ->]. cbn [mbind Outcome_bind].
      apply IH.
      * intros [Hlen Hall]. apply Hnot. cbn [length].
        split; [lia|by constructor].
      * apply lookup_lt_Some in Hcol. lia.
    + by rewrite index0_unusable.
Qed.

(** X1: the flattening [raw.reduce(...)] of an oracle result succeeds
    exactly when there are no more raw items than extra returning columns
    and no item is [undefined] or [null]; otherwise it throws a [TypeError].
    When it succeeds, the object it builds has a property for the database
    name of each column that has a raw item, and every property it has is
    the first slot of the raw item of a column of that name. *)
Theorem reduceOracleRaw_outcome (cols : list ColumnMetadata)
    (items : list Value) :
  let fits :=
    length items ≤ length cols ∧ Forall (fun v => isUsable v = true) items in
  (fits →
   ∃ newRaw,
     reduceOracleRaw cols items 0 ∅ = Resolved newRaw
     ∧ (∀ j col, j < length items → cols !! j = Some col →
          is_Some (newRaw !! databaseName col))
     ∧ (∀ name v, newRaw !! name = Some v →
          ∃ j col item,
            cols !! j = Some col ∧ items !! j = Some item
            ∧ databaseName col = name ∧ index0 item = Resolved v))
  ∧ (¬ fits → reduceOracleRaw cols items 0 ∅ = Rejected TypeError).
Proof.
  intros fits. split.
  - intros [Hlen Hall].
    destruct (reduceOracleRaw_resolves cols items 0 ∅)
      as (newRaw & Hrun & _ & Hcols & Hfrom); [by rewrite Nat.add_0_l|done|].
    exists newRaw. split; [done|]. split; [exact Hcols|].
    intros name v Hv. apply Hfrom in Hv as [Hv|Hv]; [|exact Hv].
    by rewrite lookup_empty in Hv.
  - intros Hnot. apply reduceOracleRaw_rejects; [|lia].
    by rewrite Nat.add_0_l.
Qed.

(** ** Running [update] with RETURNING *)

Lemma update_inline_run (self : ReturningResultsEntityUpdator) sched r
    entities w raw1 :
  isReturningSqlSupported (driver (queryRunner self)) ReturningUpdate = true →
  update_normalizeRaw self (UpdateResult.raw r) = Resolved raw1 →
  entities ≠ [] →
  update self sched r entities w
  = Resolved
      ({| UpdateResult.raw := raw1;
          UpdateResult.generatedMaps :=
            UpdateResult.generatedMaps r
              ++ omap (update_returned self raw1) (seq 0 (length entities)) |},
       {| heap := mergeEach self (update_returned self raw1) entities 0 (heap w);
          issued := issued w |}).
Proof.
  intros Hsup Hn Hne. destruct r as [raw gms], w as [h qs].
  destruct entities as [|e rest]; [done|].
  unfold update, promiseAll. cbn [launch].
  cbn [UpdateResult.raw] in Hn.
  pose proof (update_normalizeRaw_stable self _ _ Hn) as Hstable.
  rewrite (update_callback_inline self _ _ _ raw1) by done.
  rewrite launch_update_inline by done.
  cbn [firstThrown pendingOf].
  rewrite firstThrown_replicate_done, pendingOf_replicate_done.
  cbv zeta. cbn [length settle UpdateResult.raw UpdateResult.generatedMaps
                   heap issued].
  rewrite omap_seq_cons, <- app_assoc. reflexivity.
Qed.

Lemma update_normalizeRaw_oracle (self : ReturningResultsEntityUpdator) items :
  driverType (driver (queryRunner self)) = "oracle" →
  extraReturningColumns (expressionMap self) ≠ [] →
  update_normalizeRaw self (VArr items)
  = VObj <$> reduceOracleRaw (extraReturningColumns (expressionMap self))
               items 0 ∅.
Proof.
  intros Htype Hcols. unfold update_normalizeRaw. cbv zeta.
  rewrite Htype, bool_decide_eq_true_2 by done.
  rewrite bool_decide_eq_true_2; [done|].
  destruct (extraReturningColumns (expressionMap self)); [done|simpl; lia].
Qed.

Lemma insert_normalizeRaw_oracle (self : ReturningResultsEntityUpdator) items :
  driverType (driver (queryRunner self)) = "oracle" →
  extraReturningColumns (expressionMap self) ≠ [] →
  insert_normalizeRaw self (VArr items)
  = VObj <$> reduceOracleRaw (extraReturningColumns (expressionMap self))
               items 0 ∅.
Proof.
  intros Htype Hcols. unfold insert_normalizeRaw. cbv zeta.
  rewrite Htype.
  rewrite bool_decide_eq_true_2
    by (destruct (extraReturningColumns (expressionMap self)); [done|simpl; lia]).
  by rewrite bool_decide_eq_true_2.
Qed.

Lemma omap_const {A B} (y : option B) (l : list A) :
  omap (fun _ => y) l = match y with
                        | Some b => replicate (length l) b
                        | None => []
                        end.
Proof.
  induction l as [|x l IH]; [by destruct y|].
  change (omap (fun _ : A => y) (x :: l))
    with (match y with
          | Some b => b :: omap (fun _ : A => y) l
          | None => omap (fun _ : A => y) l
          end).
  rewrite IH. by destruct y.
Qed.

(** X2: on an oracle driver with extra returning columns, a raw array that
    does not flatten (more items than columns, or an item that is
    [undefined] or [null]) makes both reconcilers fail with a [TypeError] as
    soon as there is one entity: [insert] always, [update] when RETURNING
    is supported (without it [update] never looks at the raw result). *)
Theorem oracle_unfit_raw_rejected (self : ReturningResultsEntityUpdator)
    (sched : list nat) (items : list Value) (entities : list loc) (w : World) :
  let cols := extraReturningColumns (expressionMap self) in
  driverType (driver (queryRunner self)) = "oracle" →
  cols ≠ [] →
  ¬ (length items ≤ length cols ∧ Forall (fun v => isUsable v = true) items) →
  entities ≠ [] →
  (∀ ids gms,
     insert self sched
       {| InsertResult.raw := VArr items; InsertResult.identifiers := ids;
          InsertResult.generatedMaps := gms |} entities w
     = Rejected TypeError)
  ∧ (isReturningSqlSupported (driver (queryRunner self)) ReturningUpdate = true →
     ∀ gms,
       update self sched
         {| UpdateResult.raw := VArr items; UpdateResult.generatedMaps := gms |}
         entities w
       = Rejected TypeError).
Proof.
  intros cols Htype Hcols Hunfit Hne.
  destruct (reduceOracleRaw_outcome cols items) as [_ Hrej].
  specialize (Hrej Hunfit).
  destruct entities as [|e rest]; [done|]. split.
  - intros ids gms. unfold insert. cbv zeta.
    cbn [insert_generatedMaps InsertResult.raw].
    rewrite insert_normalizeRaw_oracle by done. fold cols. by rewrite Hrej.
  - intros Hsup gms. unfold update, promiseAll. cbn [launch].
    rewrite (update_callback_inline_throws self _ _ _ TypeError); [|done|].
    + by destruct (launch _ rest 1 _).
    + cbn [fst UpdateResult.raw]. rewrite update_normalizeRaw_oracle by done.
      fold cols. by rewrite Hrej.
Qed.

(** X3: on an oracle driver with RETURNING and extra returning columns, a
    raw array that flattens is flattened once, by the callback of the first
    entity; from then on the raw result is one object and every entity is
    given the map extracted from that same object, not from a row of its
    own: the ledger gains that map once per entity, or nothing at all when
    the extraction produces none. *)
Theorem update_oracle_one_map_for_all (self : ReturningResultsEntityUpdator)
    (sched : list nat) (items : list Value) (gms : list Obj)
    (entities : list loc) (w : World) (newRaw : Obj) :
  let drv := driver (queryRunner self) in
  let cols := extraReturningColumns (expressionMap self) in
  let produced :=
    createGeneratedMap drv (metadata (expressionMap self)) (VObj newRaw)
      None None in
  driverType drv = "oracle" →
  cols ≠ [] →
  isReturningSqlSupported drv ReturningUpdate = true →
  reduceOracleRaw cols items 0 ∅ = Resolved newRaw →
  entities ≠ [] →
  ∃ r' w',
    update self sched
      {| UpdateResult.raw := VArr items; UpdateResult.generatedMaps := gms |}
      entities w
    = Resolved (r', w')
    ∧ UpdateResult.raw r' = VObj newRaw
    ∧ UpdateResult.generatedMaps r'
      = gms ++ match produced with
               | Some m => replicate (length entities) m
               | None => []
               end
    ∧ heap w' = mergeEach self (fun _ => produced) entities 0 (heap w)
    ∧ issued w' = issued w.
Proof.
  intros drv cols produced Htype Hcols Hsup Hreduce Hne.
  eexists _, _. split.
  - apply (update_inline_run self sched _ entities w (VObj newRaw)); [done| |done].
    cbn [UpdateResult.raw]. rewrite update_normalizeRaw_oracle by done.
    fold cols. by rewrite Hreduce.
  - cbn [UpdateResult.raw UpdateResult.generatedMaps heap issued].
    split; [done|]. split; [|split; [|done]].
    + f_equal.
      etrans; [apply (omap_const produced (seq 0 (length entities)))|].
      by rewrite length_seq.
    + reflexivity.
Qed.

(** ** The raw result seen by the callbacks of [insert] *)

Lemma insert_normalizeRaw_stable (self : ReturningResultsEntityUpdator)
    raw raw1 :
  driverType (driver (queryRunner self)) ≠ "spanner" →
  insert_normalizeRaw self raw = Resolved raw1 →
  insert_normalizeRaw self raw1 = Resolved raw1.
Proof.
  intros Htype. unfold insert_normalizeRaw. cbv zeta.
  destruct raw as [| | | | |items|]; try by intros [= <-].
  destruct (bool_decide (0 < _)) eqn:Hcols; [|by intros [= <-]].
  destruct (bool_decide (_ = "oracle")) eqn:Horacle.
  - destruct (reduceOracleRaw _ items 0 ∅); [|done]. by intros [= <-].
  - rewrite bool_decide_eq_false_2 by done. by intros [= <-].
Qed.

(** X4: except on a spanner driver, the normalisation at the head of the
    [entities.map] callback of [insert] has an effect at most once: the
    callback of every position works on the raw result the first callback
    left (the flattened object on oracle, the raw result itself elsewhere),
    or throws what the first one threw. *)
Theorem insert_normalises_once (self : ReturningResultsEntityUpdator)
    (raw : Value) (entityIndex : nat) :
  driverType (driver (queryRunner self)) ≠ "spanner" →
  insert_rawAt self raw entityIndex = insert_normalizeRaw self raw.
Proof.
  intros Htype. revert raw.
  induction entityIndex as [|i IH]; intros raw; cbn [insert_rawAt].
  - by destruct (insert_normalizeRaw self raw).
  - destruct (insert_normalizeRaw self raw) as [raw1|err] eqn:Hn; [|done].
    cbn [mbind Outcome_bind]. rewrite IH.
    by apply (insert_normalizeRaw_stable self raw).
Qed.

Lemma insert_normalizeRaw_spanner (self : ReturningResultsEntityUpdator) items :
  driverType (driver (queryRunner self)) = "spanner" →
  extraReturningColumns (expressionMap self) ≠ [] →
  insert_normalizeRaw self (VArr items) = Resolved (arrayGet items 0).
Proof.
  intros Htype Hcols. unfold insert_normalizeRaw. cbv zeta. rewrite Htype.
  rewrite bool_decide_eq_true_2
    by (destruct (extraReturningColumns (expressionMap self)); [done|simpl; lia]).
  rewrite bool_decide_eq_false_2 by done. by rewrite bool_decide_eq_true_2.
Qed.

Lemma insert_normalizeRaw_not_array (self : ReturningResultsEntityUpdator) raw :
  (∀ items, raw ≠ VArr items) → insert_normalizeRaw self raw = Resolved raw.
Proof.
  intros Hraw. unfold insert_normalizeRaw. cbv zeta.
  destruct raw as [| | | | |items|]; try done. by destruct (Hraw items).
Qed.

Lemma insert_rawAt_not_array (self : ReturningResultsEntityUpdator) raw i :
  (∀ items, raw ≠ VArr items) → insert_rawAt self raw i = Resolved raw.
Proof.
  intros Hraw. induction i as [|i IH]; cbn [insert_rawAt];
    rewrite insert_normalizeRaw_not_array by done; [done|exact IH].
Qed.

(** X5: on a spanner driver with extra returning columns the outer array of
    the raw result is unwrapped by the callback of every entity, not once
    per call.  With a raw result [[rows]] whose first row is not itself an
    array, the first callback unwraps to [rows] and reads [rows[0]]; the
    second unwraps again, to [rows[0]], and from then on the raw result is
    that one row: every entity is handed the first row. *)
Theorem insert_spanner_first_row_for_all (self : ReturningResultsEntityUpdator)
    (outer rows : list Value) (entityIndex : nat) :
  let first := arrayGet rows 0 in
  driverType (driver (queryRunner self)) = "spanner" →
  extraReturningColumns (expressionMap self) ≠ [] →
  arrayGet outer 0 = VArr rows →
  (∀ items, first ≠ VArr items) →
  ∃ raw_i,
    insert_rawAt self (VArr outer) entityIndex = Resolved raw_i
    ∧ rawRow raw_i entityIndex = first
    ∧ (0 < entityIndex → raw_i = first).
Proof.
  intros first Htype Hcols Houter Hfirst.
  destruct entityIndex as [|i]; cbn [insert_rawAt].
  - rewrite insert_normalizeRaw_spanner, Houter by done.
    cbn [mbind Outcome_bind]. exists (VArr rows). split; [done|].
    split; [done|lia].
  - rewrite insert_normalizeRaw_spanner, Houter by done.
    cbn [mbind Outcome_bind]. exists first.
    assert (Hat : insert_rawAt self (VArr rows) i = Resolved first).
    { destruct i as [|i]; cbn [insert_rawAt];
        rewrite insert_normalizeRaw_spanner by done; cbn [mbind Outcome_bind];
        [done|]. by apply insert_rawAt_not_array. }
    split; [exact Hat|]. split; [|done].
    unfold rawRow. destruct first; try done. by destruct (Hfirst items).
Qed.

(** ** No entities, and [insert] with RETURNING *)

(** X6: called with no entity, neither reconciler looks at the raw result,
    issues a read or touches the heap: it resolves with the result and the
    world it was given, whatever the driver, the raw result (even an oracle
    array that would not flatten) and the schedule. *)
Theorem reconcilers_on_no_entity (self : ReturningResultsEntityUpdator)
    (sched : list nat) (w : World) :
  (∀ r, update self sched r [] w = Resolved (r, w))
  ∧ (∀ r, insert self sched r [] w = Resolved (r, w)).
Proof.
  split.
  - intros r. reflexivity.
  - intros [raw ids gms]. destruct w as [h qs].
    unfold insert. cbv zeta. cbn [insert_generatedMaps mbind Outcome_bind].
    destruct (isReturningSqlSupported _ ReturningInsert); cbn [negb]; [done|].
    unfold insert_recover. cbv zeta. cbn [insert_partition length].
    rewrite (bool_decide_eq_false_2 (0 < 0)) by lia.
    cbn [mbind Outcome_bind]. rewrite andb_false_r. reflexivity.
Qed.

(** X7: with RETURNING supported, [insert] issues no read and awaits
    nothing: it can only fail with the [TypeError] of the raw result
    normalisation, and when it completes the reads are as before, the heap
    is the one the generated maps were merged into, and the generated maps
    appended to the ledger are exactly the maps extracted for each
    position, with no recovered row merged on top. *)
Theorem insert_inline_reads_nothing (self : ReturningResultsEntityUpdator)
    (sched : list nat) (r : InsertResult.t) (entities : list loc) (w : World) :
  isReturningSqlSupported (driver (queryRunner self)) ReturningInsert = true →
  (∀ r' w', insert self sched r entities w = Resolved (r', w') →
     issued w' = issued w
     ∧ ∃ gms,
         insert_generatedMaps self (length entities) entities 0
           (InsertResult.raw r) (heap w)
         = Resolved (InsertResult.raw r', heap w', gms)
         ∧ InsertResult.generatedMaps r' = InsertResult.generatedMaps r ++ gms)
  ∧ (∀ err, insert self sched r entities w = Rejected err → err = TypeError)
  ∧ (∀ sched', insert self sched' r entities w = insert self sched r entities w).
Proof.
  intros Hsup. split; [|split].
  - intros r' w' Hrun.
    apply insert_pushed in Hrun
      as (raw1 & h1 & gms & gms2 & Hmaps & _ & _ & Hmode & Hraw & _ & Hgms).
    rewrite Hsup in Hmode. destruct Hmode as (-> & -> & ->).
    split; [done|]. exists gms. by rewrite Hraw.
  - intros err Hrun. apply insert_Rejected in Hrun as [Hrun|Hrun].
    + by apply insert_generatedMaps_Rejected in Hrun.
    + destruct Hrun as (? & ? & ? & _ & Hno & _). congruence.
  - intros sched'. unfold insert. cbv zeta. by rewrite Hsup.
Qed.

(** ** The reads the reconcilers issue *)

Lemma insert_insertionColumns_not_generated
    (self : ReturningResultsEntityUpdator) c :
  isReturningSqlSupported (driver (queryRunner self)) ReturningInsert = false →
  c ∈ insert_insertionColumns self → isGenerated c = false.
Proof.
  intros Hsup Hin. unfold insert_insertionColumns in Hin. cbv zeta in Hin.
  apply list_elem_of_In, filter_In in Hin as [_ Hc]. rewrite Hsup in Hc.
  by destruct (isGenerated c).
Qed.

(** X8: every read [insert] issues selects the primary columns plus the
    insertion returning columns, none of which is a generated column, from
    the target, without soft-deleted rows, as plain objects; and it is never
    unfiltered: its filter is either a non-empty equality condition whose
    values are neither [undefined] nor [null], or a non-empty list of id
    maps. *)
Theorem insert_reads_are_filtered (self : ReturningResultsEntityUpdator)
    (sched : list nat) (r : InsertResult.t) (entities : list loc) (w : World)
    (r' : InsertResult.t) (w' : World) (q : Query) :
  let md := metadata (expressionMap self) in
  let ic := insert_insertionColumns self in
  insert self sched r entities w = Resolved (r', w') →
  q ∈ drop (length (issued w)) (issued w') →
  q_select q = selectPaths md (primaryColumns md)
  ∧ q_addSelect q = selectPaths md ic
  ∧ (∀ c, c ∈ ic → isGenerated c = false)
  ∧ q_from q = targetName md
  ∧ q_withDeleted q = false
  ∧ q_options q = ["create-pojo"]
  ∧ match q_where q with
    | WhereObject condition =>
        condition ≠ ∅ ∧ ∀ path v, condition !! path = Some v → isUsable v = true
    | WhereIds ids => ids ≠ []
    end.
Proof.
  intros md ic Hrun Hq.
  apply insert_pushed in Hrun
    as (raw1 & h1 & gms & gms2 & _ & _ & _ & Hmode & _).
  destruct (isReturningSqlSupported (driver (queryRunner self)) ReturningInsert)
    eqn:Hsup.
  - destruct Hmode as (_ & _ & Hissued).
    rewrite Hissued, drop_all in Hq. by apply elem_of_nil in Hq.
  - destruct Hmode as (rr & Hrecover & _).
    apply insert_recover_spec in Hrecover as (Hissued & _).
    rewrite Hissued, drop_app_length in Hq.
    assert (Hshape : ∀ cond, q = insert_query self ic cond →
              q_select q = selectPaths md (primaryColumns md)
              ∧ q_addSelect q = selectPaths md ic
              ∧ (∀ c, c ∈ ic → isGenerated c = false)
              ∧ q_from q = targetName md
              ∧ q_withDeleted q = false
              ∧ q_options q = ["create-pojo"]
              ∧ q_where q = cond).
    { intros cond ->. repeat split; try done.
      intros c. by apply insert_insertionColumns_not_generated. }
    apply elem_of_app in Hq as [Hq|Hq].
    + unfold insert_conflictQueries in Hq.
      apply list_elem_of_fmap in Hq as ([i q'] & -> & Hin). cbn [snd].
      apply elem_of_conflictReads in Hin as (e & _ & Hkeys & ->).
      destruct (Hshape _ eq_refl) as (? & ? & ? & ? & ? & ? & Hwhere).
      repeat (split; [done|]). cbn [insert_query q_where]. split.
      * unfold hasKeys in Hkeys. by apply bool_decide_eq_true in Hkeys.
      * intros path v Hv. by apply insert_whereCondition_sound in Hv as [? _].
    + unfold insert_batchQuery in Hq. cbv zeta in Hq.
      destruct (bool_decide (0 < length (insert_insertionColumns self))
                && bool_decide (0 < length (knownIds _ h1 entities))) eqn:Hcond;
        [|by apply elem_of_nil in Hq].
      apply list_elem_of_singleton in Hq as ->.
      destruct (Hshape _ eq_refl) as (? & ? & ? & ? & ? & ? & Hwhere).
      repeat (split; [done|]). cbn [insert_query q_where].
      apply andb_true_iff in Hcond as [_ Hids].
      apply bool_decide_eq_true in Hids. intros Hnil. rewrite Hnil in Hids.
      simpl in Hids. lia.
Qed.

Lemma omap_fmap_Some {A B C} (f : A → option B) (g : B → C) (l : list A) :
  Forall (fun x => is_Some (f x)) l →
  ∃ ys, Forall2 (fun x y => f x = Some y) l ys
        ∧ omap (fun x => g <$> f x) l = g <$> ys.
Proof.
  induction 1 as [|x l [y Hy] _ (ys & Hall & Heq)].
  - by exists [].
  - exists (y :: ys). split; [by constructor|].
    change (omap (fun x => g <$> f x) (x :: l))
      with (match g <$> f x with
            | Some z => z :: omap (fun x => g <$> f x) l
            | None => omap (fun x => g <$> f x) l
            end).
    rewrite Hy, Heq. reflexivity.
Qed.

(** X9: [update] issues no read when RETURNING is supported or when there
    is no extra returning column.  Otherwise, when it completes, it has
    issued exactly one read per entity, in entity order, each including
    soft-deleted rows and filtered by the id map the entity had when the
    call started: all reads are issued before the row of any is merged. *)
Theorem update_reads_one_per_entity (self : ReturningResultsEntityUpdator)
    (sched : list nat) (r : UpdateResult.t) (entities : list loc) (w : World)
    (r' : UpdateResult.t) (w' : World) :
  let drv := driver (queryRunner self) in
  let md := metadata (expressionMap self) in
  update self sched r entities w = Resolved (r', w') →
  (isReturningSqlSupported drv ReturningUpdate = true → issued w' = issued w)
  ∧ (isReturningSqlSupported drv ReturningUpdate = false →
     extraReturningColumns (expressionMap self) = [] → issued w' = issued w)
  ∧ (isReturningSqlSupported drv ReturningUpdate = false →
     extraReturningColumns (expressionMap self) ≠ [] →
     ∃ ids,
       Forall2 (fun e entityId => getEntityIdMap md (heap w !!! e) = Some entityId)
         entities ids
       ∧ issued w' = issued w ++ (update_query self <$> ids)
       ∧ length (drop (length (issued w)) (issued w')) = length entities
       ∧ ∀ q, q ∈ update_query self <$> ids → q_withDeleted q = true).
Proof.
  intros drv md Hrun. subst drv md. split; [|split].
  - intros Hsup. by apply update_inline in Hrun as (_ & _ & _ & ?).
  - intros Hsup Hnil. rewrite update_nothing_to_load in Hrun by done.
    by injection Hrun as <- <-.
  - intros Hsup Hcols.
    pose proof (update_reselect self sched r entities w (r', w') Hsup Hcols Hrun)
      as (_ & _ & _ & _ & _ & Hissued).
    cbn [snd] in Hissued.
    destruct w as [h qs]. unfold update in Hrun.
    apply promiseAll_Resolved in Hrun as (st1 & tasks & Hlaunch & Hthrown & _).
    rewrite launch_update_reselect in Hlaunch by done.
    injection Hlaunch as <- <-.
    apply firstThrown_update_task in Hthrown.
    destruct (omap_fmap_Some
                (fun e => getEntityIdMap (metadata (expressionMap self))
                            (h !!! e))
                (update_query self)
                entities Hthrown) as (ids & Hids & Hreads).
    exists ids. split; [exact Hids|].
    cbn [heap issued] in *. unfold update_reads in Hissued.
    rewrite Hreads in Hissued. split; [exact Hissued|]. split.
    + rewrite Hissued, drop_app_length, length_fmap.
      symmetry. by apply Forall2_length in Hids.
    + intros q Hq. by apply list_elem_of_fmap in Hq as (entityId & -> & _).
Qed.

(** ** How [update] can fail, and when it cannot *)

Lemma update_normalizeRaw_Rejected (self : ReturningResultsEntityUpdator)
    raw err :
  update_normalizeRaw self raw = Rejected err → err = TypeError.
Proof.
  unfold update_normalizeRaw. cbv zeta.
  destruct raw as [| | | | |items|]; try done.
  destruct (_ && _); [|done].
  destruct (reduceOracleRaw _ items 0 ∅) eqn:Hr; [done|].
  cbn. intros [= <-]. by apply reduceOracleRaw_Rejected in Hr.
Qed.

Lemma firstThrown_update_task_Some (self : ReturningResultsEntityUpdator)
    h entities err :
  firstThrown (update_task self h <$> entities) = Some err →
  err = TypeORMError missingIdMessage
  ∧ ∃ e, e ∈ entities
         ∧ getEntityIdMap (metadata (expressionMap self)) (h !!! e) = None.
Proof.
  induction entities as [|e rest IH]; [done|].
  rewrite fmap_cons. cbn [firstThrown]. unfold update_task at 1.
  destruct (getEntityIdMap _ (h !!! e)) eqn:He.
  - intros Hrest. apply IH in Hrest as (-> & e' & Hin & He').
    split; [done|]. exists e'. split; [by right|done].
  - intros [= <-]. split; [done|]. exists e. split; [by left|done].
Qed.

(** X10: the ways [update] can fail.  With RETURNING it fails only with the
    [TypeError] of the oracle flattening.  Without RETURNING it fails only
    with the missing-id [TypeORMError], some entity then having no id map,
    or with the rejection of the read issued for one of the entities; so if
    every entity has an id map and every such read resolves, [update]
    completes under every schedule. *)
Theorem update_failure_causes (self : ReturningResultsEntityUpdator)
    (sched : list nat) (r : UpdateResult.t) (entities : list loc) (w : World) :
  let drv := driver (queryRunner self) in
  let mgr := manager (queryRunner self) in
  let md := metadata (expressionMap self) in
  (∀ err, update self sched r entities w = Rejected err →
     (isReturningSqlSupported drv ReturningUpdate = true ∧ err = TypeError)
     ∨ (isReturningSqlSupported drv ReturningUpdate = false
        ∧ extraReturningColumns (expressionMap self) ≠ []
        ∧ ((err = TypeORMError missingIdMessage
            ∧ ∃ e, e ∈ entities ∧ getEntityIdMap md (heap w !!! e) = None)
           ∨ ∃ e entityId,
               e ∈ entities
               ∧ getEntityIdMap md (heap w !!! e) = Some entityId
               ∧ getOne mgr (update_query self entityId) = Rejected err)))
  ∧ (isReturningSqlSupported drv ReturningUpdate = false →
     (∀ e, e ∈ entities →
        ∃ entityId row,
          getEntityIdMap md (heap w !!! e) = Some entityId
          ∧ getOne mgr (update_query self entityId) = Resolved row) →
     ∃ st, update self sched r entities w = Resolved st).
Proof.
  intros drv mgr md. subst drv mgr md. split.
  - intros err Hrun.
    destruct (isReturningSqlSupported _ ReturningUpdate) eqn:Hsup.
    + left. split; [done|].
      destruct entities as [|e rest]; [done|].
      destruct (update_normalizeRaw self (UpdateResult.raw r))
        as [raw1|err'] eqn:Hn.
      * by rewrite (update_inline_run self sched r (e :: rest) w raw1) in Hrun.
      * unfold update, promiseAll in Hrun. cbn [launch] in Hrun.
        rewrite (update_callback_inline_throws self _ _ _ err') in Hrun by done.
        destruct (launch _ rest 1 _) as [st2 ts]. cbn [firstThrown] in Hrun.
        injection Hrun as <-. by apply update_normalizeRaw_Rejected in Hn.
    + right. split; [done|].
      destruct (decide (extraReturningColumns (expressionMap self) = []))
        as [Hnil|Hcols]; [by rewrite update_nothing_to_load in Hrun|].
      split; [done|]. destruct w as [h qs].
      unfold update, promiseAll in Hrun.
      rewrite launch_update_reselect in Hrun by done.
      destruct (firstThrown (update_task self h <$> entities)) as [err'|]
        eqn:Hthrown.
      * injection Hrun as <-. left.
        by apply firstThrown_update_task_Some in Hthrown.
      * right. apply settle_Rejected in Hrun as ([q k] & Hin & Hrej).
        rewrite pendingOf_update_tagged in Hin.
        apply list_elem_of_fmap in Hin as ([e q'] & [= -> ->] & Hin).
        apply elem_of_update_tagged in Hin as (He & entityId & Hid & ->).
        by exists e, entityId.
  - intros Hsup Hall.
    destruct (decide (extraReturningColumns (expressionMap self) = []))
      as [Hnil|Hcols].
    { exists (r, w). by apply update_nothing_to_load. }
    destruct w as [h qs]. unfold update, promiseAll.
    rewrite launch_update_reselect by done.
    destruct (firstThrown (update_task self h <$> entities)) as [err'|]
      eqn:Hthrown.
    + apply firstThrown_update_task_Some in Hthrown as (_ & e & Hin & Hnone).
      destruct (Hall e Hin) as (entityId & row & Hid & _). cbn [heap] in Hid.
      congruence.
    + apply settle_total. rewrite pendingOf_update_tagged.
      apply Forall_fmap, Forall_forall. intros [e q] Hin.
      apply elem_of_update_tagged in Hin as (He & entityId & Hid & ->).
      destruct (Hall e He) as (entityId' & row & Hid' & Hrow).
      cbn [heap] in Hid'. rewrite Hid in Hid'. injection Hid' as <-.
      by exists row.
Qed.

(** ** The order in which the reads of [update] complete *)

Lemma mergeEntity_swap (self : ReturningResultsEntityUpdator)
    (p1 p2 : loc * option Obj) h :
  (p1.1 = p2.1 → p1.2 = p2.2) →
  mergeEntity self p2.1 p2.2 (mergeEntity self p1.1 p1.2 h)
  = mergeEntity self p1.1 p1.2 (mergeEntity self p2.1 p2.2 h).
Proof.
  destruct p1 as [e1 s1], p2 as [e2 s2]. cbn [fst snd]. intros Hsame.
  destruct (decide (e1 = e2)) as [->|Hne]; [by rewrite Hsame|].
  destruct s1 as [s1|], s2 as [s2|]; cbn [mergeEntity]; try done.
  rewrite !lookup_total_insert_ne by done. by apply insert_insert_ne.
Qed.

(** Merging is insensitive to the order of the sources as long as an entity
    that occurs twice is given the same source both times. *)
Lemma mergeSources_Permutation (self : ReturningResultsEntityUpdator)
    pairs1 pairs2 h :
  pairs1 ≡ₚ pairs2 →
  (∀ p1 p2, p1 ∈ pairs1 → p2 ∈ pairs1 → p1.1 = p2.1 → p1.2 = p2.2) →
  mergeSources self pairs1 h = mergeSources self pairs2 h.
Proof.
  intros Hperm. revert h.
  induction Hperm as [|p l1 l2 Hperm IH|p1 p2 l|l1 l2 l3 H12 IH12 H23 IH23];
    intros h Hsame.
  - done.
  - rewrite !mergeSources_cons. apply IH.
    intros q1 q2 H1 H2. apply Hsame; by right.
  - rewrite !mergeSources_cons. f_equal. apply (mergeEntity_swap self p2 p1).
    apply Hsame; [by left|right; by left].
  - rewrite IH12 by done. apply IH23.
    intros q1 q2 H1 H2. apply Hsame; by rewrite H12.
Qed.

Lemma update_tagged_sources (self : ReturningResultsEntityUpdator) h entities
    (p1 p2 : loc * option Obj) :
  let source := fun t : loc * Query =>
    (t.1, rowOf (manager (queryRunner self)) t.2) in
  p1 ∈ source <$> update_tagged self h entities →
  p2 ∈ source <$> update_tagged self h entities →
  p1.1 = p2.1 → p1.2 = p2.2.
Proof.
  intros source H1 H2 Heq. subst source.
  apply list_elem_of_fmap in H1 as ([e1 q1] & -> & H1).
  apply list_elem_of_fmap in H2 as ([e2 q2] & -> & H2).
  cbn [fst snd] in *. subst e2.
  apply elem_of_update_tagged in H1 as (_ & id1 & Hid1 & ->).
  apply elem_of_update_tagged in H2 as (_ & id2 & Hid2 & ->).
  congruence.
Qed.

Lemma update_tagged_loaded (self : ReturningResultsEntityUpdator) h entities :
  omap (fun t : loc * Query => rowOf (manager (queryRunner self)) t.2)
    (update_tagged self h entities)
  = omap (update_loaded self h) entities.
Proof.
  induction entities as [|e rest IH]; [done|].
  unfold update_tagged. cbn [omap list_omap].
  fold (update_tagged self h rest). unfold update_loaded at 1.
  destruct (getEntityIdMap _ (h !!! e)) as [entityId|]; cbn; by rewrite IH.
Qed.

(** What a completed run of [update] without RETURNING leaves, whatever the
    schedule. *)
Lemma update_reselect_state (self : ReturningResultsEntityUpdator) sched r
    entities w r' w' :
  isReturningSqlSupported (driver (queryRunner self)) ReturningUpdate = false →
  extraReturningColumns (expressionMap self) ≠ [] →
  update self sched r entities w = Resolved (r', w') →
  heap w'
  = mergeSources self
      ((fun t => (t.1, rowOf (manager (queryRunner self)) t.2))
         <$> update_tagged self (heap w) entities) (heap w)
  ∧ Forall
      (fun t => ∃ row, getOne (manager (queryRunner self)) t.2 = Resolved row)
      (update_tagged self (heap w) entities)
  ∧ firstThrown (update_task self (heap w) <$> entities) = None.
Proof.
  intros Hsup Hcols Hrun. destruct w as [h qs]. unfold update in Hrun.
  apply promiseAll_Resolved in Hrun as (st1 & tasks & Hlaunch & Hthrown & Hrun).
  rewrite launch_update_reselect in Hlaunch by done.
  injection Hlaunch as <- <-.
  apply settle_Resolved in Hrun as (cs & Hperm & Hall & Hst); [|done].
  rewrite pendingOf_update_tagged in Hperm.
  apply Permutation_fmap_inv in Hperm as (tagged & Hcs & Hperm).
  pose proof (resume_update_heap self cs tagged
                (r, {| heap := h;
                       issued := qs ++ update_reads self h entities |})
                Hcs Hall) as Hheap.
  rewrite <- Hst in Hheap. cbn [fst snd heap] in Hheap.
  cbn [heap]. split; [|split; [|done]].
  - rewrite Hheap. symmetry. apply mergeSources_Permutation.
    + by rewrite Hperm.
    + intros p1 p2. apply update_tagged_sources.
  - rewrite Hperm. apply Forall_forall. intros [e q] Hin.
    assert (Hc : (q, update_record self e) ∈ cs.*1).
    { rewrite Hcs. apply list_elem_of_fmap. by exists (e, q). }
    apply list_elem_of_fmap in Hc as ([[q1 k1] row1] & Heq & Hc).
    cbn in Heq. injection Heq as -> _.
    rewrite Forall_forall in Hall. specialize (Hall _ Hc). cbn in Hall.
    cbn. by exists row1.
Qed.

Lemma update_inline_any_schedule (self : ReturningResultsEntityUpdator)
    sched1 sched2 r entities w :
  isReturningSqlSupported (driver (queryRunner self)) ReturningUpdate = true →
  update self sched1 r entities w = update self sched2 r entities w.
Proof.
  intros Hsup. destruct entities as [|e rest]; [done|].
  destruct (update_normalizeRaw self (UpdateResult.raw r)) as [raw1|err] eqn:Hn.
  - by rewrite !(update_inline_run self _ r (e :: rest) w raw1).
  - unfold update, promiseAll. cbn [launch].
    rewrite (update_callback_inline_throws self _ _ _ err) by done.
    by destruct (launch _ rest 1 _).
Qed.

(** X11: the order in which the reads of [update] complete decides the
    order of the ledger and nothing else.  If [update] completes under one
    schedule it completes under every other, with the same entities, the
    same raw result, the same reads issued and the same ledger entries up
    to their order. *)
Theorem update_schedule_changes_ledger_order_only
    (self : ReturningResultsEntityUpdator) (sched1 sched2 : list nat)
    (r : UpdateResult.t) (entities : list loc) (w : World)
    (r1 : UpdateResult.t) (w1 : World) :
  update self sched1 r entities w = Resolved (r1, w1) →
  ∃ r2 w2,
    update self sched2 r entities w = Resolved (r2, w2)
    ∧ heap w2 = heap w1
    ∧ issued w2 = issued w1
    ∧ UpdateResult.raw r2 = UpdateResult.raw r1
    ∧ UpdateResult.generatedMaps r2 ≡ₚ UpdateResult.generatedMaps r1.
Proof.
  intros Hrun.
  destruct (isReturningSqlSupported (driver (queryRunner self)) ReturningUpdate)
    eqn:Hsup.
  { exists r1, w1. by rewrite (update_inline_any_schedule self sched2 sched1). }
  destruct (decide (extraReturningColumns (expressionMap self) = []))
    as [Hnil|Hcols].
  { exists r1, w1. rewrite update_nothing_to_load in Hrun |- * by done.
    by injection Hrun as <- <-. }
  pose proof (update_reselect_state self sched1 r entities w r1 w1
                Hsup Hcols Hrun) as (Hheap1 & Hall & Hthrown).
  assert (Hrun2 : ∃ st2, update self sched2 r entities w = Resolved st2).
  { destruct w as [h qs]. unfold update, promiseAll.
    rewrite launch_update_reselect by done. cbn [heap] in Hthrown, Hall.
    rewrite Hthrown. apply settle_total. rewrite pendingOf_update_tagged.
    by apply Forall_fmap. }
  destruct Hrun2 as [[r2 w2] Hrun2]. exists r2, w2. split; [done|].
  pose proof (update_reselect_state self sched2 r entities w r2 w2
                Hsup Hcols Hrun2) as (Hheap2 & _ & _).
  destruct (update_reselect self sched1 r entities w (r1, w1) Hsup Hcols Hrun)
    as (added1 & Hg1 & Hp1 & _ & Hraw1 & Hq1).
  destruct (update_reselect self sched2 r entities w (r2, w2) Hsup Hcols Hrun2)
    as (added2 & Hg2 & Hp2 & _ & Hraw2 & Hq2).
  cbn [fst snd] in *.
  split; [congruence|]. split; [congruence|]. split; [congruence|].
  by rewrite Hg1, Hg2, Hp1, Hp2.
Qed.

(** X12: without RETURNING the ledger order of [update] is not fixed by
    its input: when every entity has an id map and every read resolves,
    each arrangement of the entities is the completion order of some
    schedule, and under it the ledger gains the rows found in that
    arrangement. *)
Theorem update_ledger_order_is_any (self : ReturningResultsEntityUpdator)
    (r : UpdateResult.t) (entities arranged : list loc) (w : World) :
  let mgr := manager (queryRunner self) in
  let md := metadata (expressionMap self) in
  isReturningSqlSupported (driver (queryRunner self)) ReturningUpdate = false →
  extraReturningColumns (expressionMap self) ≠ [] →
  (∀ e, e ∈ entities →
     ∃ entityId row,
       getEntityIdMap md (heap w !!! e) = Some entityId
       ∧ getOne mgr (update_query self entityId) = Resolved row) →
  arranged ≡ₚ entities →
  ∃ sched r' w',
    update self sched r entities w = Resolved (r', w')
    ∧ UpdateResult.generatedMaps r'
      = UpdateResult.generatedMaps r
          ++ omap (update_loaded self (heap w)) arranged.
Proof.
  intros mgr md Hsup Hcols Hall Hperm. subst mgr md. destruct w as [h qs].
  cbn [heap] in *.
  set (tagged := update_tagged self h arranged).
  set (cs := (fun t : loc * Query =>
                (t.2, update_record self t.1,
                 rowOf (manager (queryRunner self)) t.2)) <$> tagged
             : list (Completed UpdateState)).
  assert (Hcs : cs.*1 = (fun t => (t.2, update_record self t.1)) <$> tagged).
  { unfold cs. rewrite <- list_fmap_compose. done. }
  assert (Hresolved : Forall
            (fun c : Completed UpdateState =>
               getOne (manager (queryRunner self)) c.1.1 = Resolved c.2) cs).
  { unfold cs. apply Forall_fmap, Forall_forall. intros [e q] Hin. cbn.
    apply elem_of_update_tagged in Hin as (He & entityId & Hid & ->).
    rewrite Hperm in He.
    destruct (Hall e He) as (entityId' & row & Hid' & Hrow).
    rewrite Hid in Hid'. injection Hid' as <-. unfold rowOf. by rewrite Hrow. }
  assert (Hpending : cs.*1 ≡ₚ pendingOf (update_task self h <$> entities)).
  { rewrite Hcs, pendingOf_update_tagged. apply fmap_Permutation.
    unfold tagged, update_tagged. by rewrite Hperm. }
  assert (Hthrown : firstThrown (update_task self h <$> entities) = None).
  { destruct (firstThrown (update_task self h <$> entities)) as [err|] eqn:Ht;
      [|done].
    apply firstThrown_update_task_Some in Ht as (_ & e & Hin & Hnone).
    destruct (Hall e Hin) as (? & ? & ? & _). congruence. }
  destruct (settle_any_order (getOne (manager (queryRunner self))) cs
              (pendingOf (update_task self h <$> entities))
              (r, {| heap := h; issued := qs ++ update_reads self h entities |})
              Hpending Hresolved) as [sched Hrun].
  exists sched. eexists _, _. split.
  - unfold update, promiseAll. rewrite launch_update_reselect by done.
    rewrite Hthrown. rewrite Hrun. rewrite <- surjective_pairing. done.
  - assert (Hk : Forall
              (fun c : Completed UpdateState =>
                 ∃ e, c.1.2 = update_record self e) cs).
    { unfold cs. apply Forall_fmap, Forall_forall. intros [e0 q0] _.
      by exists e0. }
    destruct (resume_update_record self
                (r, {| heap := h; issued := qs ++ update_reads self h entities |})
                cs Hk) as (Hg & _ & _).
    rewrite Hg. cbn [fst]. f_equal.
    rewrite <- update_tagged_loaded. fold tagged. unfold cs.
    clear. induction tagged as [|t tagged IH]; [done|].
    rewrite fmap_cons. cbn. by rewrite IH.
Qed.

(** ** The order in which the reads of [insert] complete *)

Lemma conflicts_settled_unique (self : ReturningResultsEntityUpdator)
    sched1 sched2 reads rr qs (st1 : RecoverState) :
  let pending :=
    (fun read : nat * Query => (read.2, insert_recordConflict read.1))
      <$> reads in
  NoDup reads.*1 →
  settle (getOne (manager (queryRunner self))) (length pending) sched1 pending
    (rr, qs) = Resolved st1 →
  settle (getOne (manager (queryRunner self))) (length pending) sched2 pending
    (rr, qs) = Resolved st1.
Proof.
  intros pending Hnd Hrun1.
  assert (Hall : Forall
            (fun qk : Query * (option Obj → RecoverState → RecoverState) =>
               ∃ row, getOne (manager (queryRunner self)) qk.1 = Resolved row)
            pending).
  { pose proof Hrun1 as Hrun. apply settle_Resolved in Hrun
      as (cs & Hperm & Hq & _); [|done].
    rewrite <- Hperm. apply Forall_fmap.
    eapply Forall_impl; [exact Hq|]. intros [[q k] row] Hc. cbn in *.
    by exists row. }
  destruct (settle_total (getOne (manager (queryRunner self)))
              (length pending) sched2 pending (rr, qs) Hall) as [st2 Hrun2].
  rewrite Hrun2. f_equal.
  apply (conflicts_settled self) in Hrun1
    as (Hq1 & Hl1 & Hat1 & Hother1 & _); [|done].
  apply (conflicts_settled self) in Hrun2
    as (Hq2 & Hl2 & Hat2 & Hother2 & _); [|done].
  destruct st1 as [rr1 q1], st2 as [rr2 q2]. cbn [fst snd] in *.
  f_equal; [|congruence]. apply list_eq. intros k.
  destruct (decide (k ∈ reads.*1)) as [Hin|Hout].
  - apply list_elem_of_fmap in Hin as ([k' q] & -> & Hin). cbn [fst].
    destruct (decide (k' < length rr)) as [Hlt|Hge].
    + destruct (Hat1 k' q Hin Hlt) as (row1 & Hrow1 & ->).
      destruct (Hat2 k' q Hin Hlt) as (row2 & Hrow2 & ->).
      rewrite Hrow1 in Hrow2. by injection Hrow2 as <-.
    + rewrite !lookup_ge_None_2; [done|lia|lia].
  - by rewrite Hother1, Hother2.
Qed.

Lemma insert_recover_any_schedule (self : ReturningResultsEntityUpdator)
    sched1 sched2 ic entities h qs st :
  insert_recover self sched1 ic entities h qs = Resolved st →
  insert_recover self sched2 ic entities h qs = Resolved st.
Proof.
  unfold insert_recover. cbv zeta.
  rewrite insert_partition_spec. cbn [app].
  destruct (bool_decide (0 < length (conflictBased _ h entities 0)));
    [|done].
  destruct (bool_decide (0 < length (getConflictColumns self))); [|done].
  unfold promiseAll.
  destruct (launch_conflictCallback self h ic (getConflictColumns self)
              (conflictBased (metadata (expressionMap self)) h entities 0) 0
              (replicate (length entities) None) qs)
    as (tasks & Hl & Ht & Hp).
  rewrite Hl, Ht, Hp.
  destruct (settle _ _ sched1 _ _) as [st1|err] eqn:Hrun1; [|done].
  rewrite (conflicts_settled_unique self sched1 sched2 _ _ _ st1);
    [done|apply NoDup_conflictReads|done].
Qed.

(** X13: the result of [insert] does not depend on the order in which the
    reads of the conflict-based entities complete: if it completes under
    one schedule, it completes under every other with the same insert
    result, the same entities and the same reads. *)
Theorem insert_result_independent_of_schedule
    (self : ReturningResultsEntityUpdator) (sched1 sched2 : list nat)
    (r : InsertResult.t) (entities : list loc) (w : World)
    (outcome : InsertResult.t * World) :
  insert self sched1 r entities w = Resolved outcome →
  insert self sched2 r entities w = Resolved outcome.
Proof.
  unfold insert. cbv zeta.
  destruct (insert_generatedMaps self (length entities) entities 0
              (InsertResult.raw r) (heap w))
    as [[[raw1 h1] gms]|err]; [|done].
  cbn [mbind Outcome_bind].
  destruct (isReturningSqlSupported _ ReturningInsert); cbn [negb]; [done|].
  destruct (insert_recover self sched1 (insert_insertionColumns self)
              entities h1 (issued w)) as [st|err] eqn:Hrecover; [|done].
  by rewrite (insert_recover_any_schedule self sched1 sched2 _ _ _ _ st).
Qed.

(** ** Handing out the rows of the batched read *)

(** X14: the [forEach] that maps the batched rows back gives the rows out
    in result order to the entities that pass its guard (an id map whose
    values are all neither [undefined] nor [null]): the entity at position
    [j] receives the row whose result index is the number of guarded
    entities before it, or nothing when the rows have run out.  An entity
    that fails the guard keeps its slot and uses up no row. *)
Theorem insert_mapBack_hands_out_in_order
    (self : ReturningResultsEntityUpdator) (h : Heap) (rows : list Obj)
    (entities : list loc) (index resultIndex : nat)
    (rr : list (option Obj)) (j : nat) (e : loc) :
  let md := metadata (expressionMap self) in
  index + length entities ≤ length rr →
  entities !! j = Some e →
  insert_mapBack md h rows entities index resultIndex rr !! (index + j)
  = if insert_receivesRow md h e
    then Some (rows !! (resultIndex
                        + length (List.filter (insert_receivesRow md h)
                                    (take j entities))))
    else rr !! (index + j).
Proof.
  intros md. subst md. revert index resultIndex rr j.
  induction entities as [|e0 rest IH]; intros index resultIndex rr j Hlen Hj;
    [done|].
  cbn [length] in Hlen. cbn [insert_mapBack].
  destruct j as [|j]; cbn in Hj.
  - injection Hj as ->. rewrite !Nat.add_0_r. cbn [take List.filter length].
    unfold insert_receivesRow.
    destruct (getEntityIdMap _ (h !!! e)) as [entityId|];
      [|by rewrite (insert_mapBack_before self) by lia].
    destruct (forallb isUsable _);
      rewrite (insert_mapBack_before self) by lia; [|done].
    apply list_lookup_insert_eq. lia.
  - replace (index + S j) with (S index + j) by lia.
    cbn [take List.filter].
    assert (Hguard : insert_receivesRow (metadata (expressionMap self)) h e0
              = match getEntityIdMap (metadata (expressionMap self)) (h !!! e0)
                with
                | Some entityId => forallb isUsable (map_to_list entityId).*2
                | None => false
                end) by done.
    destruct (getEntityIdMap _ (h !!! e0)) as [entityId|].
    + destruct (forallb isUsable (map_to_list entityId).*2).
      * rewrite Hguard, IH; [|rewrite length_insert; lia|done].
        cbn [length]. rewrite Nat.add_succ_r.
        destruct (insert_receivesRow _ h e); [done|].
        apply list_lookup_insert_ne. lia.
      * rewrite Hguard. by apply IH; [lia|].
    + rewrite Hguard. by apply IH; [lia|].
Qed.

Lemma knownIds_all (md : EntityMetadata) h entities :
  Forall (fun e => is_Some (getEntityIdMap md (h !!! e))) entities →
  length (knownIds md h entities) = length entities
  ∧ conflictBased md h entities 0 = [].
Proof.
  intros Hall. split.
  - unfold knownIds. induction Hall as [|e rest [entityId He] _ IH]; [done|].
    cbn [omap list_omap]. rewrite He. cbn [length]. by rewrite <- IH.
  - generalize 0. induction Hall as [|e rest [entityId He] _ IH]; intros index;
      [done|].
    cbn [conflictBased]. rewrite He. apply IH.
Qed.

(** X15: without RETURNING, when every entity has an id map whose values
    are all usable and there is a column to load, the re-selection issues
    no conflict read and exactly one batched read, filtered by the id maps
    of all the entities; the row at result position [j] goes into the slot
    of the entity at position [j], and the slots beyond the returned rows
    stay empty. *)
Theorem insert_recover_all_identified (self : ReturningResultsEntityUpdator)
    (sched : list nat) (ic : list ColumnMetadata) (entities : list loc)
    (h : Heap) (qs : list Query) (rows : list Obj) :
  let md := metadata (expressionMap self) in
  let q := insert_query self ic (WhereIds (knownIds md h entities)) in
  Forall
    (fun e => ∃ entityId,
       getEntityIdMap md (h !!! e) = Some entityId
       ∧ forallb isUsable (map_to_list entityId).*2 = true)
    entities →
  ic ≠ [] → entities ≠ [] →
  getMany (manager (queryRunner self)) q = Resolved rows →
  insert_recover self sched ic entities h qs
  = Resolved ((fun j => rows !! j) <$> seq 0 (length entities), qs ++ [q])
  ∧ length (knownIds md h entities) = length entities.
Proof.
  intros md q Hall Hic Hne Hmany. subst md q.
  assert (Hsome : Forall
            (fun e => is_Some (getEntityIdMap (metadata (expressionMap self))
                                 (h !!! e))) entities).
  { eapply Forall_impl; [exact Hall|]. intros e (entityId & He & _).
    by eexists. }
  destruct (knownIds_all _ h entities Hsome) as [Hids Hnone].
  split; [|done].
  unfold insert_recover. cbv zeta. rewrite insert_partition_spec. cbn [app].
  rewrite Hnone. cbn [length]. rewrite (bool_decide_eq_false_2 (0 < 0)) by lia.
  cbn [mbind Outcome_bind fst snd].
  rewrite bool_decide_eq_true_2 by (destruct ic; [done|simpl; lia]).
  rewrite bool_decide_eq_true_2
    by (rewrite Hids; destruct entities; [done|simpl; lia]).
  cbn [andb]. rewrite Hmany. cbn [mbind Outcome_bind]. do 2 f_equal.
  apply list_eq. intros j.
  destruct (decide (j < length entities)) as [Hlt|Hge].
  - pose proof (insert_mapBack_by_result_order self h rows entities 0 0
                  (replicate (length entities) None) j) as Hslot.
    cbv zeta in Hslot. rewrite !Nat.add_0_l in Hslot.
    rewrite Hslot; [|done|by rewrite length_replicate|done].
    by rewrite list_lookup_fmap, lookup_seq_lt.
  - rewrite !lookup_ge_None_2; [done| |].
    + rewrite length_fmap, length_seq. lia.
    + rewrite (insert_mapBack_length self), length_replicate. lia.
Qed.

(** ** The conflict-column resolver, further *)

(** X16: what the resolver returns, read off the configuration.  With no
    [onUpdate], no conflict target or the empty string as target it returns
    no column.  With one name (not empty) it returns one column if some
    column of the metadata has that database name and none otherwise.  With
    a list of names it returns as many columns as there are names in the
    list, counted with repetition, that are the database name of some
    column.  So it returns no column exactly when nothing is configured or
    no configured name is a database name of the metadata. *)
Theorem getConflictColumns_empty_iff (self : ReturningResultsEntityUpdator) :
  let md := metadata (expressionMap self) in
  let configured :=
    match onUpdate (expressionMap self) with
    | Some ou => conflict ou
    | None => None
    end in
  (configured = None → getConflictColumns self = [])
  ∧ (configured = Some (ConflictName "") → getConflictColumns self = [])
  ∧ (∀ name, configured = Some (ConflictName name) → name ≠ "" →
       length (getConflictColumns self) = if namesColumn md name then 1 else 0)
  ∧ (∀ names, configured = Some (ConflictNames names) →
       length (getConflictColumns self)
       = length (List.filter (namesColumn md) names))
  ∧ (getConflictColumns self = [] ↔
     configured = None
     ∨ configured = Some (ConflictName "")
     ∨ (∃ name, configured = Some (ConflictName name)
                ∧ namesColumn md name = false)
     ∨ (∃ names, configured = Some (ConflictNames names)
                 ∧ Forall (fun name => namesColumn md name = false) names)).
Proof.
  intros md configured.
  assert (Hnone : configured = None → getConflictColumns self = []).
  { intros Hc. apply getConflictColumns_unconfigured.
    unfold truthyConflict. subst configured.
    destruct (onUpdate (expressionMap self)) as [ou|]; [|done].
    by rewrite Hc. }
  assert (Hempty : configured = Some (ConflictName "") →
                   getConflictColumns self = []).
  { intros Hc. apply getConflictColumns_unconfigured.
    unfold truthyConflict. subst configured.
    destruct (onUpdate (expressionMap self)) as [ou|]; [|done].
    by rewrite Hc. }
  assert (Hname : ∀ name, configured = Some (ConflictName name) → name ≠ "" →
                    getConflictColumns self = omap (findColumn md) [name]).
  { intros name Hc Hne. unfold getConflictColumns, truthyConflict.
    subst configured.
    destruct (onUpdate (expressionMap self)) as [ou|]; [|done].
    rewrite Hc. destruct name as [|a name]; [done|].
    by rewrite pushResolved_acc. }
  assert (Hnames : ∀ names, configured = Some (ConflictNames names) →
                     getConflictColumns self = omap (findColumn md) names).
  { intros names Hc. unfold getConflictColumns, truthyConflict.
    subst configured.
    destruct (onUpdate (expressionMap self)) as [ou|]; [|done].
    rewrite Hc. by rewrite pushResolved_acc. }
  assert (Hcount : ∀ names,
            length (omap (findColumn md) names)
            = length (List.filter (namesColumn md) names)).
  { intros names. by rewrite <- resolved_names, length_fmap. }
  assert (Hnil : ∀ names,
            omap (findColumn md) names = [] ↔
            Forall (fun name => namesColumn md name = false) names).
  { intros names. split.
    - intros Hall. apply Forall_forall. intros name Hin.
      apply not_true_is_false. intros Hn.
      assert (Hf : name ∈ List.filter (namesColumn md) names).
      { apply list_elem_of_In, filter_In. split; [|done].
        by apply list_elem_of_In. }
      rewrite <- resolved_names, Hall in Hf. by apply elem_of_nil in Hf.
    - intros Hall. apply length_zero_iff_nil. rewrite Hcount.
      induction Hall as [|name names Hn _ IH]; [done|].
      cbn [List.filter]. by rewrite Hn. }
  split; [exact Hnone|]. split; [exact Hempty|]. split.
  { intros name Hc Hne. rewrite (Hname name Hc Hne), Hcount.
    cbn [List.filter]. by destruct (namesColumn md name). }
  split; [intros names Hc; by rewrite (Hnames names Hc)|].
  split.
  - intros Hres.
    destruct configured as [[name|names]|] eqn:Hc; [| |by left].
    + destruct (decide (name = "")) as [->|Hne]; [right; by left|].
      right; right; left. exists name. split; [done|].
      rewrite (Hname name eq_refl Hne) in Hres.
      apply Hnil in Hres. by apply Forall_cons in Hres as [? _].
    + right; right; right. exists names. split; [done|].
      apply Hnil. by rewrite <- (Hnames names eq_refl).
  - intros [Hc|[Hc|[(name & Hc & Hn)|(names & Hc & Hall)]]].
    + by apply Hnone.
    + by apply Hempty.
    + destruct (decide (name = "")) as [->|Hne]; [by apply Hempty|].
      rewrite (Hname name Hc Hne). apply Hnil.
      apply Forall_cons. split; [done|]. apply Forall_nil_2.
    + rewrite (Hnames names Hc). by apply Hnil.
Qed.

(** ** The equality filter, further *)

(** X17: when the conflict columns have pairwise distinct property paths,
    the equality filter built for an entity maps the property path of each
    conflict column to the entity's value for it when that value is neither
    [undefined] nor [null], and has no entry for it otherwise. *)
Theorem insert_whereCondition_exact (cc : list ColumnMetadata) (entity : Obj)
    (c : ColumnMetadata) :
  NoDup (propertyPath <$> cc) →
  c ∈ cc →
  insert_whereCondition cc entity !! propertyPath c
  = if isUsable (getEntityValue c entity)
    then Some (getEntityValue c entity)
    else None.
Proof.
  intros Hnd Hin. unfold insert_whereCondition.
  by apply whereCondition_fold_exact.
Qed.

(** ** Splitting the entities *)

Lemma partition_lengths (md : EntityMetadata) h entities index :
  length (knownIds md h entities) + length (conflictBased md h entities index)
  = length entities.
Proof.
  revert index. induction entities as [|e rest IH]; intros index; [done|].
  unfold knownIds. cbn [omap list_omap conflictBased].
  fold (knownIds md h rest).
  destruct (getEntityIdMap md (h !!! e)); cbn [length];
    specialize (IH (S index)); lia.
Qed.

(** X18: the [forEach] that splits the entities puts every entity in
    exactly one of the two groups: the id maps of the entities that have
    one, in entity order, and the entities that have none, each recorded
    once with its own position in the entity list. *)
Theorem insert_partition_splits (self : ReturningResultsEntityUpdator)
    (h : Heap) (entities : list loc) :
  let md := metadata (expressionMap self) in
  ∃ entityIds conflictBasedEntities,
    insert_partition md h entities 0 [] [] = (entityIds, conflictBasedEntities)
    ∧ length entityIds + length conflictBasedEntities = length entities
    ∧ entityIds = omap (fun e => getEntityIdMap md (h !!! e)) entities
    ∧ NoDup conflictBasedEntities.*2
    ∧ ∀ e i, (e, i) ∈ conflictBasedEntities ↔
             entities !! i = Some e ∧ getEntityIdMap md (h !!! e) = None.
Proof.
  intros md. subst md.
  exists (knownIds (metadata (expressionMap self)) h entities),
    (conflictBased (metadata (expressionMap self)) h entities 0).
  split; [by rewrite insert_partition_spec|].
  split; [apply partition_lengths|]. split; [done|].
  split; [apply (NoDup_conflictBased self)|].
  intros e i. rewrite (elem_of_conflictBased self), Nat.sub_0_r.
  split; [by intros (_ & ? & ?)|]. intros [? ?]. split; [lia|done].
Qed.

(** ** How [insert] can fail, and when it cannot *)

Lemma insert_normalizeRaw_resolves (self : ReturningResultsEntityUpdator) raw :
  driverType (driver (queryRunner self)) ≠ "oracle" →
  ∃ raw1, insert_normalizeRaw self raw = Resolved raw1.
Proof.
  intros Htype. unfold insert_normalizeRaw. cbv zeta.
  destruct raw as [| | | | |items|]; try by eexists.
  destruct (bool_decide (0 < _)); [|by eexists].
  rewrite bool_decide_eq_false_2 by done.
  destruct (bool_decide (_ = "spanner")); by eexists.
Qed.

Lemma insert_generatedMaps_resolves (self : ReturningResultsEntityUpdator)
    total entities index raw h :
  (∀ raw', ∃ raw1, insert_normalizeRaw self raw' = Resolved raw1) →
  ∃ result,
    insert_generatedMaps self total entities index raw h = Resolved result.
Proof.
  intros Hn. revert index raw h.
  induction entities as [|e rest IH]; intros index raw h; [by eexists|].
  cbn [insert_generatedMaps]. destruct (Hn raw) as [raw1 ->].
  cbn [mbind Outcome_bind].
  destruct (IH (S index) raw1
              (mergeEntity self e
                 (Some (insert_generatedMap self total index raw1)) h))
    as [[[raw2 h2] gms] ->].
  by eexists.
Qed.

Lemma insert_generatedMaps_stable (self : ReturningResultsEntityUpdator)
    total entities index raw h :
  insert_normalizeRaw self raw = Resolved raw →
  ∃ result,
    insert_generatedMaps self total entities index raw h = Resolved result.
Proof.
  intros Hn. revert index h.
  induction entities as [|e rest IH]; intros index h; [by eexists|].
  cbn [insert_generatedMaps]. rewrite Hn. cbn [mbind Outcome_bind].
  destruct (IH (S index)
              (mergeEntity self e
                 (Some (insert_generatedMap self total index raw)) h))
    as [[[raw2 h2] gms] ->].
  by eexists.
Qed.

(** X19: the ways [insert] can fail.  Before any read, it fails only on an
    oracle driver, with the [TypeError] of a raw array that does not
    flatten, and only if there is an entity.  After that it fails only
    without RETURNING, with the rejection of a read it issued.  So on a
    driver other than oracle, when the query service rejects no read,
    [insert] completes under every schedule. *)
Theorem insert_failure_causes (self : ReturningResultsEntityUpdator)
    (sched : list nat) (r : InsertResult.t) (entities : list loc) (w : World) :
  let drv := driver (queryRunner self) in
  let mgr := manager (queryRunner self) in
  (∀ err, insert self sched r entities w = Rejected err →
     (err = TypeError ∧ driverType drv = "oracle" ∧ entities ≠ []
      ∧ ∃ items,
          InsertResult.raw r = VArr items
          ∧ reduceOracleRaw (extraReturningColumns (expressionMap self))
              items 0 ∅ = Rejected TypeError)
     ∨ (isReturningSqlSupported drv ReturningInsert = false
        ∧ ∃ q, getOne mgr q = Rejected err ∨ getMany mgr q = Rejected err))
  ∧ (driverType drv ≠ "oracle" →
     (∀ q, ∃ row, getOne mgr q = Resolved row) →
     (∀ q, ∃ rows, getMany mgr q = Resolved rows) →
     ∃ outcome, insert self sched r entities w = Resolved outcome).
Proof.
  intros drv mgr. subst drv mgr.
  assert (Hcauses : ∀ err, insert self sched r entities w = Rejected err →
     (err = TypeError ∧ driverType (driver (queryRunner self)) = "oracle"
      ∧ entities ≠ []
      ∧ ∃ items,
          InsertResult.raw r = VArr items
          ∧ reduceOracleRaw (extraReturningColumns (expressionMap self))
              items 0 ∅ = Rejected TypeError)
     ∨ (isReturningSqlSupported (driver (queryRunner self)) ReturningInsert
        = false
        ∧ ∃ q, getOne (manager (queryRunner self)) q = Rejected err
               ∨ getMany (manager (queryRunner self)) q = Rejected err)).
  { intros err Hrun. apply insert_Rejected in Hrun as [Hrun|Hrun].
    - left. pose proof (insert_generatedMaps_Rejected self _ _ _ _ _ _ Hrun)
        as ->.
      split; [done|].
      destruct (decide (driverType (driver (queryRunner self)) = "oracle"))
        as [Htype|Htype].
      + split; [done|]. destruct entities as [|e rest]; [done|].
        split; [done|]. cbn [insert_generatedMaps] in Hrun.
        destruct (insert_normalizeRaw self (InsertResult.raw r))
          as [raw1|err] eqn:Hn.
        * cbn [mbind Outcome_bind] in Hrun.
          assert (Hstable : insert_normalizeRaw self raw1 = Resolved raw1).
          { apply (insert_normalizeRaw_stable self (InsertResult.raw r));
              [|done]. by rewrite Htype. }
          destruct (insert_generatedMaps_stable self (length (e :: rest)) rest 1
                      raw1
                      (mergeEntity self e
                         (Some (insert_generatedMap self (length (e :: rest))
                                  0 raw1)) (heap w)) Hstable)
            as [[[raw2 h2] gms] Hrest].
          by rewrite Hrest in Hrun.
        * pose proof (insert_normalizeRaw_Rejected self _ _ Hn) as ->.
          unfold insert_normalizeRaw in Hn. cbv zeta in Hn.
          destruct (InsertResult.raw r) as [| | | | |items|]; try done.
          exists items. split; [done|].
          destruct (bool_decide (0 < _)); [|done].
          rewrite bool_decide_eq_true_2 in Hn by done.
          destruct (reduceOracleRaw _ items 0 ∅) as [m|e0]; cbn in Hn;
            [done|by injection Hn as ->].
      + destruct (insert_generatedMaps_resolves self (length entities) entities
                    0 (InsertResult.raw r) (heap w)) as [result Hres].
        * intros raw'. by apply insert_normalizeRaw_resolves.
        * by rewrite Hres in Hrun.
    - right. destruct Hrun as (raw1 & h1 & gms & _ & Hsup & Hrecover).
      split; [done|].
      apply insert_recover_Rejected in Hrecover
        as [(q & _ & Hq)|(q & _ & Hq)]; exists q; [by left|by right]. }
  split; [exact Hcauses|].
  intros Htype Hone Hmany.
  destruct (insert self sched r entities w) as [outcome|err] eqn:Hrun;
    [by exists outcome|].
  destruct (Hcauses err eq_refl) as [(_ & Horacle & _)|(_ & q & [Hq|Hq])].
  - done.
  - destruct (Hone q) as [row Hrow]. congruence.
  - destruct (Hmany q) as [rows Hrows]. congruence.
Qed.

(** ** The further properties on concrete runs *)

Lemma oracle_unfit_raw_rejected_witness :
  insert Runs.oracleUpdator [] (Fixture.freshInsert (VArr [VNull])) [0]
    Fixture.twoKnown
  = Rejected TypeError.
Proof.
  refine (proj1 (oracle_unfit_raw_rejected Runs.oracleUpdator [] [VNull] [0]
                   Fixture.twoKnown _ _ _ _) [] []).
  - reflexivity.
  - discriminate.
  - intros [_ Hall]. apply Forall_cons in Hall as [Hnull _]. discriminate.
  - discriminate.
Defined.

Lemma update_oracle_one_map_for_all_witness :
  ∃ r' w',
    update Runs.oracleUpdator [] (Fixture.freshUpdate Runs.oracleRaw) [0; 1]
      Fixture.twoKnown
    = Resolved (r', w')
    ∧ UpdateResult.generatedMaps r'
      = [{[ "updatedAt" := VNum 100 ]}; {[ "updatedAt" := VNum 100 ]}].
Proof.
  pose proof (update_oracle_one_map_for_all Runs.oracleUpdator []
                [VArr [VNum 100]] [] [0; 1] Fixture.twoKnown
                {[ "updatedAt" := VNum 100 ]}) as Hone.
  cbv zeta in Hone.
  destruct Hone as (r' & w' & Hrun & _ & Hg & _).
  - reflexivity.
  - discriminate.
  - reflexivity.
  - vm_compute. reflexivity.
  - discriminate.
  - exists r', w'. split; [exact Hrun|].
    etrans; [exact Hg|]. vm_compute. reflexivity.
Defined.

Lemma insert_normalises_once_witness :
  insert_rawAt Runs.oracleUpdator Runs.oracleRaw 3
  = insert_normalizeRaw Runs.oracleUpdator Runs.oracleRaw.
Proof.
  apply (insert_normalises_once Runs.oracleUpdator Runs.oracleRaw 3).
  discriminate.
Defined.

Lemma insert_spanner_first_row_for_all_witness :
  ∃ raw_i,
    insert_rawAt Runs.spannerUpdator (VArr [VArr Runs.spannerRows]) 1
    = Resolved raw_i
    ∧ rawRow raw_i 1 = VObj (Fixture.row 1 100).
Proof.
  pose proof (insert_spanner_first_row_for_all Runs.spannerUpdator
                [VArr Runs.spannerRows] Runs.spannerRows 1) as Hfirst.
  cbv zeta in Hfirst.
  destruct Hfirst as (raw_i & Hraw & Hrow & _).
  - reflexivity.
  - discriminate.
  - reflexivity.
  - intros items. discriminate.
  - exists raw_i. split; [exact Hraw|exact Hrow].
Defined.

Lemma insert_inline_reads_nothing_witness :
  issued Runs.returnedOutcome.2 = issued Fixture.twoKnown
  ∧ InsertResult.generatedMaps Runs.returnedOutcome.1
    = [Fixture.row 1 100; Fixture.row 2 200].
Proof.
  destruct (proj1 (insert_inline_reads_nothing Runs.postgresUpdator []
                     (Fixture.freshInsert Runs.returnedRows) [0; 1]
                     Fixture.twoKnown eq_refl)
              Runs.returnedOutcome.1 Runs.returnedOutcome.2)
    as (Hissued & gms & _ & _).
  - vm_compute. reflexivity.
  - split; [exact Hissued|]. vm_compute. reflexivity.
Defined.

Lemma insert_reads_are_filtered_witness :
  let q :=
    insert_query Fixture.upsertingUpdator
      (insert_insertionColumns Fixture.upsertingUpdator)
      (WhereObject
         (insert_whereCondition (getConflictColumns Fixture.upsertingUpdator)
            (heap Fixture.oneUnidentified !!! 0))) in
  issued Fixture.upsertOutcome.2 = [q]
  ∧ q_withDeleted q = false
  ∧ q_options q = ["create-pojo"].
Proof.
  intros q.
  pose proof (insert_reads_are_filtered Fixture.upsertingUpdator []
                (Fixture.freshInsert VNull) [0] Fixture.oneUnidentified
                Fixture.upsertOutcome.1 Fixture.upsertOutcome.2 q) as Hq.
  cbv zeta in Hq.
  destruct Hq as (_ & _ & _ & _ & Hdeleted & Hoptions & _).
  - vm_compute. reflexivity.
  - vm_compute. left.
  - split; [vm_compute; reflexivity|]. split; [exact Hdeleted|exact Hoptions].
Defined.

Lemma update_reads_one_per_entity_witness :
  length (drop (length (issued Fixture.twoKnown))
            (issued Runs.reselectedOutcome.2)) = 2.
Proof.
  pose proof (update_reads_one_per_entity Runs.bothRowsUpdator []
                (Fixture.freshUpdate VNull) [0; 1] Fixture.twoKnown
                Runs.reselectedOutcome.1 Runs.reselectedOutcome.2) as Hreads.
  cbv zeta in Hreads.
  destruct Hreads as (_ & _ & Hreselect).
  - vm_compute. reflexivity.
  - destruct Hreselect as (ids & _ & _ & Hlen & _).
    + reflexivity.
    + discriminate.
    + exact Hlen.
Defined.

Lemma update_schedule_changes_ledger_order_only_witness :
  ∃ r2 w2,
    update Runs.bothRowsUpdator [1] (Fixture.freshUpdate VNull) [0; 1]
      Fixture.twoKnown
    = Resolved (r2, w2)
    ∧ UpdateResult.generatedMaps r2
      ≡ₚ [Fixture.row 1 100; Fixture.row 2 200].
Proof.
  destruct (update_schedule_changes_ledger_order_only Runs.bothRowsUpdator
              [] [1] (Fixture.freshUpdate VNull) [0; 1] Fixture.twoKnown
              Runs.reselectedOutcome.1 Runs.reselectedOutcome.2)
    as (r2 & w2 & Hrun & _ & _ & _ & Hperm).
  - vm_compute. reflexivity.
  - exists r2, w2. split; [exact Hrun|exact Hperm].
Defined.

Lemma update_ledger_order_is_any_witness :
  ∃ sched r' w',
    update Runs.bothRowsUpdator sched (Fixture.freshUpdate VNull) [0; 1]
      Fixture.twoKnown
    = Resolved (r', w')
    ∧ UpdateResult.generatedMaps r'
      = [Fixture.row 2 200; Fixture.row 1 100].
Proof.
  pose proof (update_ledger_order_is_any Runs.bothRowsUpdator
                (Fixture.freshUpdate VNull) [0; 1] [1; 0] Fixture.twoKnown)
    as Hany.
  cbv zeta in Hany.
  destruct Hany as (sched & r' & w' & Hrun & Hg).
  - reflexivity.
  - discriminate.
  - intros e He. apply elem_of_cons in He as [->|He].
    + exists {[ "id" := VNum 1 ]}, (Some (Fixture.row 1 100)).
      split; vm_compute; reflexivity.
    + apply elem_of_cons in He as [->|He]; [|by apply elem_of_nil in He].
      exists {[ "id" := VNum 2 ]}, (Some (Fixture.row 2 200)).
      split; vm_compute; reflexivity.
  - apply perm_swap.
  - exists sched, r', w'. split; [exact Hrun|].
    etrans; [exact Hg|]. vm_compute. reflexivity.
Defined.

Lemma insert_result_independent_of_schedule_witness :
  length (conflictReads Fixture.recoveringUpdator
            (heap Fixture.threeUnidentified)
            (insert_insertionColumns Fixture.recoveringUpdator)
            (getConflictColumns Fixture.recoveringUpdator)
            (conflictBased Fixture.testMetadata
               (heap Fixture.threeUnidentified) [0; 1; 2] 0)) = 2
  ∧ insert Fixture.recoveringUpdator [1] (Fixture.freshInsert VNull) [0; 1; 2]
      Fixture.threeUnidentified
    = Resolved Fixture.recoveredOutcome.
Proof.
  split; [vm_compute; reflexivity|].
  apply (insert_result_independent_of_schedule Fixture.recoveringUpdator
           [] [1]).
  vm_compute. reflexivity.
Defined.

Lemma insert_mapBack_hands_out_in_order_witness :
  insert_mapBack Fixture.testMetadata (heap Fixture.twoKnown)
    [Fixture.row 2 200; Fixture.row 1 100] [0; 1] 0 0 [None; None] !! (0 + 1)
  = Some (Some (Fixture.row 1 100)).
Proof.
  pose proof (insert_mapBack_hands_out_in_order Fixture.reorderingUpdator
                (heap Fixture.twoKnown)
                [Fixture.row 2 200; Fixture.row 1 100] [0; 1] 0 0
                [None; None] 1 1) as Hout.
  cbv zeta in Hout.
  etrans; [apply Hout|].
  - cbn. lia.
  - reflexivity.
  - vm_compute. reflexivity.
Defined.

Lemma insert_recover_all_identified_witness :
  let self := Fixture.reorderingUpdator in
  let ic := insert_insertionColumns self in
  insert_recover self [] ic [0; 1] (heap Fixture.twoKnown) []
  = Resolved
      ([Some (Fixture.row 2 200); Some (Fixture.row 1 100)],
       [insert_query self ic
          (WhereIds (knownIds Fixture.testMetadata (heap Fixture.twoKnown)
                       [0; 1]))]).
Proof.
  intros self ic.
  pose proof (insert_recover_all_identified self [] ic [0; 1]
                (heap Fixture.twoKnown) []
                [Fixture.row 2 200; Fixture.row 1 100]) as Hall.
  cbv zeta in Hall.
  destruct Hall as [Hrun _].
  - apply Forall_cons. split.
    { exists {[ "id" := VNum 1 ]}. split; vm_compute; reflexivity. }
    apply Forall_cons. split; [|apply Forall_nil_2].
    exists {[ "id" := VNum 2 ]}. split; vm_compute; reflexivity.
  - discriminate.
  - discriminate.
  - reflexivity.
  - exact Hrun.
Defined.

Lemma insert_whereCondition_exact_witness :
  insert_whereCondition [Fixture.column "key1"; Fixture.column "key2"]
    (heap Fixture.oneUnidentified !!! 0) !! "key1"
  = Some (VStr "conflict").
Proof.
  etrans;
    [apply (insert_whereCondition_exact
              [Fixture.column "key1"; Fixture.column "key2"]
              (heap Fixture.oneUnidentified !!! 0) (Fixture.column "key1"))|].
  - apply (bool_decide_unpack _). vm_compute. reflexivity.
  - left.
  - vm_compute. reflexivity.
Defined.

Lemma reduceOracleRaw_outcome_witness :
  ∃ newRaw,
    reduceOracleRaw [Fixture.updatedAtColumn] [VArr [VNum 100]] 0 ∅
    = Resolved newRaw
    ∧ is_Some (newRaw !! "updatedAt").
Proof.
  destruct (proj1 (reduceOracleRaw_outcome [Fixture.updatedAtColumn]
                     [VArr [VNum 100]]))
    as (newRaw & Hrun & Hhas & _).
  - split; [cbn; lia|]. apply Forall_cons. split; [reflexivity|].
    apply Forall_nil_2.
  - exists newRaw. split; [exact Hrun|].
    apply (Hhas 0 Fixture.updatedAtColumn); [cbn; lia|reflexivity].
Defined.

Lemma update_failure_causes_witness :
  ∃ st,
    update Runs.bothRowsUpdator [3] (Fixture.freshUpdate VNull) [0; 1]
      Fixture.twoKnown
    = Resolved st.
Proof.
  apply (proj2 (update_failure_causes Runs.bothRowsUpdator [3]
                  (Fixture.freshUpdate VNull) [0; 1] Fixture.twoKnown)).
  - reflexivity.
  - intros e He. apply elem_of_cons in He as [->|He].
    + exists {[ "id" := VNum 1 ]}, (Some (Fixture.row 1 100)).
      split; vm_compute; reflexivity.
    + apply elem_of_cons in He as [->|He]; [|by apply elem_of_nil in He].
      exists {[ "id" := VNum 2 ]}, (Some (Fixture.row 2 200)).
      split; vm_compute; reflexivity.
Defined.

Lemma getConflictColumns_empty_iff_witness :
  length (getConflictColumns Fixture.staleTargetUpdator) = 2
  ∧ length (getConflictColumns Fixture.singleTargetUpdator) = 1.
Proof.
  pose proof (getConflictColumns_empty_iff Fixture.staleTargetUpdator)
    as Hstale.
  pose proof (getConflictColumns_empty_iff Fixture.singleTargetUpdator)
    as Hsingle.
  cbv zeta in Hstale, Hsingle.
  destruct Hstale as (_ & _ & _ & Hnames & _).
  destruct Hsingle as (_ & _ & Hname & _).
  split.
  - etrans; [apply (Hnames ["key1"; "renamed"; "key2"]); reflexivity|].
    reflexivity.
  - etrans; [apply (Hname "key2"); [reflexivity|discriminate]|].
    reflexivity.
Defined.

Lemma insert_failure_causes_witness :
  ∃ outcome,
    insert Fixture.upsertingUpdator [2] (Fixture.freshInsert VNull) [0]
      Fixture.oneUnidentified
    = Resolved outcome.
Proof.
  apply (proj2 (insert_failure_causes Fixture.upsertingUpdator [2]
                  (Fixture.freshInsert VNull) [0] Fixture.oneUnidentified)).
  - discriminate.
  - intros q. cbn. destruct (q_where q); eexists; reflexivity.
  - intros q. eexists. reflexivity.
Defined.
